(** * macro-market-matrix-us: rate-limited clients, symbol resolution,
      batch orchestration and the versioned mapping store

    A shallow embedding of the Python sources
    ([financials.py], [yf_lookup.py], [company_info.py], [file_utils.py],
    [utils.py], [process_market_data.py]) together with the properties the
    specification states about them.

    Conventions of the embedding:
    - Python [str] values are [string]s of 8-bit characters; [lower],
      [strip] and [split] act on the ASCII range.
    - wall-clock time is an integer number of seconds ([Z]); [time.sleep]
      advances the clock of the world by the requested amount.
    - Python dictionaries used as plain maps are [gmap]s; dictionaries whose
      iteration order is observable (JSON objects read from a mapping
      artifact, alias tables) are association lists.
    - a caught-or-propagated Python exception is a value of [exn], carried by
      [result]. *)

From Stdlib Require Import ZArith String Ascii Lia.
From stdpp Require Import gmap strings list pretty.

Open Scope string_scope.
Open Scope Z_scope.

(** ** Exceptions *)

Inductive exn : Type :=
| TypeError
| KeyError
| IndexError
| ValueError
| ZeroDivisionError
| FileNotFoundError
| JSONDecodeError
| ProviderError.

(** The outcome of running a piece of Python: it returns a value, raises, or
    (a [while True] loop, an awaited task that is never scheduled) does not
    return. *)
Inductive result (A : Type) : Type :=
| Ok (a : A)
| Raise (e : exn)
| Diverge.
Arguments Ok {A} a.
Arguments Raise {A} e.
Arguments Diverge {A}.

Definition bind {A B : Type} (r : result A) (k : A -> result B) : result B :=
  match r with
  | Ok a => k a
  | Raise e => Raise e
  | Diverge => Diverge
  end.

(** Python truthiness of an optional string: [None] and [""] are falsy. *)
Definition truthy (t : option string) : bool :=
  match t with
  | Some s => negb (String.eqb s "")
  | None => false
  end.

(** ** Python string primitives *)

Module PyStr.

Definition is_upper (c : ascii) : bool :=
  let n := nat_of_ascii c in (65 <=? n)%nat && (n <=? 90)%nat.

Definition lower_char (c : ascii) : ascii :=
  if is_upper c then ascii_of_nat (nat_of_ascii c + 32) else c.

(** [s.lower()] *)
Fixpoint lower (s : string) : string :=
  match s with
  | EmptyString => EmptyString
  | String c s' => String (lower_char c) (lower s')
  end.

(** [c.isspace()] on the ASCII range: TAB, LF, VT, FF, CR, FS, GS, RS, US
    and SPACE. *)
Definition is_space (c : ascii) : bool :=
  let n := nat_of_ascii c in
  ((9 <=? n)%nat && (n <=? 13)%nat) || ((28 <=? n)%nat && (n <=? 32)%nat).

(** [sub in s] *)
Fixpoint contains (sub s : string) : bool :=
  match s with
  | EmptyString => String.prefix sub EmptyString
  | String _ s' => String.prefix sub s || contains sub s'
  end.

(** [s.replace(old, new)] for a non-empty [old]: occurrences are replaced
    from left to right without overlap.  [skip] counts the characters of
    an occurrence that remain to be dropped. *)
Fixpoint replace_from (old new : string) (skip : nat) (s : string) : string :=
  match s with
  | EmptyString => EmptyString
  | String c s' =>
      match skip with
      | S k => replace_from old new k s'
      | O =>
          if String.prefix old s
          then new ++ replace_from old new (Nat.pred (String.length old)) s'
          else String c (replace_from old new O s')
      end
  end.

Definition replace (old new s : string) : string := replace_from old new O s.

Fixpoint lstrip (s : string) : string :=
  match s with
  | EmptyString => EmptyString
  | String c s' => if is_space c then lstrip s' else s
  end.

Fixpoint rstrip (s : string) : string :=
  match s with
  | EmptyString => EmptyString
  | String c s' =>
      match rstrip s' with
      | EmptyString => if is_space c then EmptyString else String c EmptyString
      | r => String c r
      end
  end.

(** [s.strip()] *)
Definition strip (s : string) : string := lstrip (rstrip s).

(** [s.split()]: maximal runs of non-whitespace characters. *)
Fixpoint split (s : string) : list string :=
  match s with
  | EmptyString => []
  | String c s' =>
      if is_space c then split s'
      else
        match s' with
        | EmptyString => [String c EmptyString]
        | String c' _ =>
            if is_space c' then String c EmptyString :: split s'
            else
              match split s' with
              | w :: ws => String c w :: ws
              | [] => [String c EmptyString]
              end
        end
  end.

(** [sep.join(parts)] *)
Fixpoint join (sep : string) (parts : list string) : string :=
  match parts with
  | [] => EmptyString
  | [p] => p
  | p :: ps => p ++ sep ++ join sep ps
  end.

(** [s.rfind(c)] for a one-character needle, -1 when absent. *)
Fixpoint rfind (c : ascii) (s : string) : Z :=
  match s with
  | EmptyString => -1
  | String a s' =>
      let i := rfind c s' in
      if 0 <=? i then i + 1
      else if Ascii.eqb a c then 0 else -1
  end.

(** [s.startswith(p)] and [s.endswith(p)] *)
Definition startswith (s p : string) : bool := String.prefix p s.

Definition endswith (s p : string) : bool :=
  let n := String.length s in
  let k := String.length p in
  (k <=? n)%nat && String.eqb (String.substring (n - k) k s) p.

End PyStr.

(** ** The world the scripts run in: a clock and a flat working directory *)

(** JSON values found under ["mappings"]: [null], a plain ticker string
    (legacy shape) or an object [{"sym": .., "notes": ..}]. *)
Inductive MapVal : Type :=
| VNull
| VStr (s : string)
| VObj (sym : option string) (notes : option string).

Inductive MetaVal : Type :=
| MNull
| MNum (n : Z)
| MStr (s : string).

Record Company : Type := mkCompany {
  company_name : string;
  market_cap : string
}.

Record Subsector : Type := mkSubsector {
  subsector_name : string;
  companies : list Company
}.

Record Sector : Type := mkSector {
  sector_name : string;
  subsectors : list Subsector
}.

(** The parsed content of a file of the working directory. *)
Inductive FileBody : Type :=
| MappingArtifact (metadata : gmap string MetaVal)
                  (mappings : list (string * MapVal))
| Taxonomy (sectors : list Sector)
| Unparsable.

Record File : Type := mkFile {
  mtime : Z;
  body : FileBody
}.

(** [queries] records, oldest first, every search term handed to the
    provider's symbol lookup. *)
Record World : Type := mkWorld {
  clock : Z;
  files : gmap string File;
  queries : list string
}.

Definition path_exists (w : World) (p : string) : bool :=
  bool_decide (is_Some (files w !! p)).

Definition write_file (w : World) (p : string) (b : FileBody) : World :=
  {| clock := clock w;
     files := <[p := {| mtime := clock w; body := b |}]> (files w);
     queries := queries w |}.

Definition sleep (w : World) (seconds : Z) : result World :=
  if seconds <? 0 then Raise ValueError
  else Ok {| clock := clock w + seconds; files := files w;
             queries := queries w |}.

Definition record_query (w : World) (q : string) : World :=
  {| clock := clock w; files := files w; queries := queries w ++ [q] |}.

(** ** The rate limiter shared by the three clients

    [FinnhubClient], [CompanyInfoClient] and [YFinanceClient] carry the same
    three fields and the same [_wait_for_rate_limit] body. *)

Module RateLimit.

Record Limiter : Type := mkLimiter {
  last_call_time : Z;
  calls_this_minute : Z;
  rate_limit : Z
}.

Definition set_calls (self : Limiter) (n : Z) : Limiter :=
  {| last_call_time := last_call_time self;
     calls_this_minute := n;
     rate_limit := rate_limit self |}.

Definition _wait_for_rate_limit (self : Limiter) (w : World)
  : result (Limiter * World) :=
  let current_time := clock w in
  let minute_ago := current_time - 60 in
  bind
    (if last_call_time self <? minute_ago then
       Ok (set_calls self 0, w)
     else if rate_limit self <=? calls_this_minute self then
       let sleep_time := 60 - (current_time - last_call_time self) in
       bind (sleep w sleep_time) (fun w' => Ok (set_calls self 0, w'))
     else Ok (self, w))
    (fun '(self1, w1) =>
       Ok ({| last_call_time := current_time;
              calls_this_minute := calls_this_minute self1 + 1;
              rate_limit := rate_limit self1 |}, w1)).

(** The state [__init__] builds, for a given capacity. *)
Definition init (capacity : Z) : Limiter :=
  {| last_call_time := 0; calls_this_minute := 0; rate_limit := capacity |}.

(** Time passing between two calls. *)
Definition elapse (w : World) (d : Z) : World :=
  {| clock := clock w + d; files := files w; queries := queries w |}.

End RateLimit.

(** ** The resolution loops of financials.py and yf_lookup.py

    [create_company_ticker_map] and [process_unmapped_companies] have the same
    loop in both files; they differ in the client whose [lookup_symbol] they
    call.  The loops are written once over an arbitrary client state [St]. *)

Record UnmappedCompany : Type := mkUnmapped {
  unmapped_name : string;
  unmapped_sector : string;
  unmapped_subsector : string;
  unmapped_market_cap : string
}.

Module ResolutionLoops.
Section Loops.

Context {St : Type}.
Variable lookup_symbol : St -> string -> result (option string * St).

(** [sent] lists, oldest first, the names handed to [lookup_symbol]. *)
Record LoopState : Type := mkLoopState {
  built : gmap string MapVal;
  client : St;
  sent : list string
}.

(** The body of the innermost [for company in subsector["companies"]]. *)
Definition create_company (acc : result LoopState) (company : Company)
  : result LoopState :=
  bind acc (fun st =>
    let name := company_name company in
    match built st !! name with
    | Some _ => Ok st
    | None =>
        bind (lookup_symbol (client st) name) (fun '(ticker, c') =>
          match ticker with
          | Some t =>
              if truthy ticker then
                Ok {| built := <[name := VStr t]> (built st);
                      client := c'; sent := sent st ++ [name] |}
              else
                Ok {| built := built st;
                      client := c'; sent := sent st ++ [name] |}
          | None =>
              Ok {| built := built st;
                    client := c'; sent := sent st ++ [name] |}
          end)
    end).

Definition create_subsector (acc : result LoopState) (subsector : Subsector)
  : result LoopState :=
  fold_left create_company (companies subsector) acc.

Definition create_sector (acc : result LoopState) (sector : Sector)
  : result LoopState :=
  fold_left create_subsector (subsectors sector) acc.

(** The loop of [create_company_ticker_map]: [built] is the mapping it hands
    to [save_mappings]. *)
Definition create_company_ticker_map (c : St) (market_data : list Sector)
  : result LoopState :=
  fold_left create_sector market_data
            (Ok {| built := ∅; client := c; sent := [] |}).

(** The body of [for company in unmapped_data["unmapped"]]. *)
Definition process_unmapped (existing_mappings : gmap string MapVal)
           (acc : result LoopState) (company : UnmappedCompany)
  : result LoopState :=
  bind acc (fun st =>
    let name := unmapped_name company in
    match existing_mappings !! name with
    | Some _ => Ok st
    | None =>
        bind (lookup_symbol (client st) name) (fun '(ticker, c') =>
          match ticker with
          | Some t =>
              if truthy ticker then
                Ok {| built := <[name := VStr t]> (built st);
                      client := c'; sent := sent st ++ [name] |}
              else
                Ok {| built := built st;
                      client := c'; sent := sent st ++ [name] |}
          | None =>
              Ok {| built := built st;
                    client := c'; sent := sent st ++ [name] |}
          end)
    end).

Record UnmappedRun : Type := mkUnmappedRun {
  new_mappings : gmap string MapVal;
  (** [{**existing_mappings, **new_mappings}], built and saved only when
      [new_mappings] is non-empty *)
  updated_mappings : option (gmap string MapVal);
  resolver_calls : list string;
  client_after : St
}.

(** The loop and the merge of [process_unmapped_companies].
    [existing_mappings] is [ticker_data["mappings"]], or [{}] when there is
    no prior artifact; building the metadata and saving the merge are left
    out. *)
Definition process_unmapped_companies (c : St)
           (unmapped : list UnmappedCompany)
           (existing_mappings : gmap string MapVal)
  : result UnmappedRun :=
  bind (fold_left (process_unmapped existing_mappings) unmapped
                  (Ok {| built := ∅; client := c; sent := [] |}))
       (fun st =>
          Ok {| new_mappings := built st;
                updated_mappings :=
                  if decide (built st = ∅) then None
                  else Some (built st ∪ existing_mappings);
                resolver_calls := sent st;
                client_after := client st |}).

(** Every value of the map being built is a non-empty ticker string that
    [lookup_symbol] returned for that very name. *)
Definition only_found (st : LoopState) : Prop :=
  forall n v, built st !! n = Some v ->
    exists t c0 c1,
      v = VStr t /\ t <> "" /\ lookup_symbol c0 n = Ok (Some t, c1).

(** Names sent to the resolver are absent from the prior mapping. *)
Definition sent_unmapped (existing : gmap string MapVal)
           (st : LoopState) : Prop :=
  forall n, n ∈ sent st -> existing !! n = None.

(** What the next run finds as the latest mapping: the saved merge, or the
    prior mapping when nothing was saved. *)
Definition prior_after (existing : gmap string MapVal)
           (run : UnmappedRun) : gmap string MapVal :=
  default existing (updated_mappings run).

End Loops.
End ResolutionLoops.

(** ** financials.py *)

Module Financials.

Record SearchResult : Type := mkSearchResult {
  type_ : string;
  symbol : string;
  description : string
}.

(** What [self.client.symbol_lookup] does: raise, or return an object whose
    ["result"] entry may be absent. *)
Inductive LookupResponse : Type :=
| LookupRaises
| LookupReturns (result : option (list SearchResult)).

Record FinnhubClient : Type := mkFinnhubClient {
  limiter : RateLimit.Limiter;
  COMPANY_ALIASES : list (string * string)
}.

Definition init : FinnhubClient :=
  {| limiter := RateLimit.init 45;
     COMPANY_ALIASES :=
       [ ("alphabet inc", "google");
         ("meta platforms", "facebook");
         ("amazon", "amazon.com");
         ("berkshire hathaway", "brk") ] |}.

(** What [__init__] builds, whatever the limiter has counted since. *)
Definition client_with (l : RateLimit.Limiter) : FinnhubClient :=
  {| limiter := l; COMPANY_ALIASES := COMPANY_ALIASES init |}.

Definition _wait_for_rate_limit (self : FinnhubClient) (w : World)
  : result (FinnhubClient * World) :=
  bind (RateLimit._wait_for_rate_limit (limiter self) w)
       (fun '(l, w') =>
          Ok ({| limiter := l; COMPANY_ALIASES := COMPANY_ALIASES self |}, w')).

Definition suffixes : list string :=
  [ " inc."; " inc"; " corp."; " corp"; " corporation"; " ltd."; " ltd";
    " limited"; " plc"; " s.a."; " ag"; " co."; ","; "." ].

(** Lines 57-61: lowercase, delete every suffix token, trim. *)
Definition clean_name (company_name : string) : string :=
  PyStr.strip
    (fold_left (fun name suffix => PyStr.replace suffix "" name)
               suffixes (PyStr.lower company_name)).

(** Lines 64-67: the first alias key contained in the name wins. *)
Fixpoint check_aliases (aliases : list (string * string))
         (name_to_search : string) : string :=
  match aliases with
  | [] => name_to_search
  | (alias_key, alias_value) :: rest =>
      if PyStr.contains alias_key name_to_search then alias_value
      else check_aliases rest name_to_search
  end.

Definition search_term (self : FinnhubClient) (company_name : string)
  : string :=
  check_aliases (COMPANY_ALIASES self) (clean_name company_name).

Definition is_common_stock (r : SearchResult) : bool :=
  String.eqb (type_ r) "Common Stock".

Definition us_listing (r : SearchResult) : bool :=
  negb (PyStr.contains "." (symbol r)).

(** Lines 76-80. *)
Fixpoint exact_match (name_to_search company_name : string)
         (results : list SearchResult) : option string :=
  match results with
  | [] => None
  | r :: rest =>
      if is_common_stock r && us_listing r &&
         existsb (fun name => PyStr.contains name (PyStr.lower (description r)))
                 [name_to_search; PyStr.lower company_name]
      then Some (symbol r)
      else exact_match name_to_search company_name rest
  end.

(** [len(search_words & desc_words) / len(search_words) > 0.5] on
    integer sizes; the division raises on an empty [search_words]. *)
Definition overlap_above_half (search_words desc_words : gset string)
  : result bool :=
  if (size search_words =? 0)%nat then Raise ZeroDivisionError
  else Ok (size search_words <? 2 * size (search_words ∩ desc_words))%nat.

(** Lines 83-90. *)
Fixpoint partial_match (name_to_search : string)
         (results : list SearchResult) : result (option string) :=
  match results with
  | [] => Ok None
  | r :: rest =>
      if is_common_stock r && us_listing r then
        let desc_words : gset string :=
          list_to_set (PyStr.split (PyStr.lower (description r))) in
        let search_words : gset string :=
          list_to_set (PyStr.split name_to_search) in
        bind (overlap_above_half search_words desc_words)
             (fun above =>
                if above then Ok (Some (symbol r))
                else partial_match name_to_search rest)
      else partial_match name_to_search rest
  end.

(** Lines 93-95. *)
Fixpoint any_common_stock (results : list SearchResult) : option string :=
  match results with
  | [] => None
  | r :: rest =>
      if is_common_stock r then Some (symbol r) else any_common_stock rest
  end.

(** The body of the [try] block once the provider has answered. *)
Definition select_symbol (name_to_search company_name : string)
           (response : LookupResponse) : result (option string) :=
  match response with
  | LookupRaises => Raise ProviderError
  | LookupReturns None => Ok None
  | LookupReturns (Some []) => Ok None
  | LookupReturns (Some results) =>
      match exact_match name_to_search company_name results with
      | Some s => Ok (Some s)
      | None =>
          bind (partial_match name_to_search results)
               (fun found =>
                  match found with
                  | Some s => Ok (Some s)
                  | None => Ok (any_common_stock results)
                  end)
      end
  end.

Definition lookup_symbol (symbol_lookup : string -> LookupResponse)
           (self : FinnhubClient) (w : World) (company_name : string)
  : result (option string * FinnhubClient * World) :=
  bind (_wait_for_rate_limit self w)
       (fun '(self1, w1) =>
          let name_to_search := search_term self1 company_name in
          let w2 := record_query w1 name_to_search in
          match select_symbol name_to_search company_name
                              (symbol_lookup name_to_search) with
          | Ok r => Ok (r, self1, w2)
          | Raise _ => Ok (None, self1, w2)
          | Diverge => Diverge
          end).

(** What the Finnhub client answers for a name, given the provider. *)
Definition finnhub_answer (symbol_lookup : string -> LookupResponse)
           (name : string) : option string :=
  match select_symbol (search_term init name) name
                      (symbol_lookup (search_term init name)) with
  | Ok r => r
  | _ => None
  end.

(** The states the client can be in: its alias table is never assigned
    after [__init__]. *)
Definition as_built (st : FinnhubClient * World) : Prop :=
  COMPANY_ALIASES (fst st) = COMPANY_ALIASES init.

(** [client.lookup_symbol] as the loops call it. *)
Definition resolver (symbol_lookup : string -> LookupResponse)
           (st : FinnhubClient * World) (company_name : string)
  : result (option string * (FinnhubClient * World)) :=
  bind (lookup_symbol symbol_lookup (fst st) (snd st) company_name)
       (fun '(ticker, self', w') => Ok (ticker, (self', w'))).

Definition create_company_ticker_map
           (symbol_lookup : string -> LookupResponse) (w : World)
           (market_data : list Sector) :=
  ResolutionLoops.create_company_ticker_map
    (resolver symbol_lookup) (init, w) market_data.

Definition process_unmapped_companies
           (symbol_lookup : string -> LookupResponse) (w : World)
           (unmapped : list UnmappedCompany)
           (existing_mappings : gmap string MapVal) :=
  ResolutionLoops.process_unmapped_companies
    (resolver symbol_lookup) (init, w) unmapped existing_mappings.

End Financials.


(** ** os.path and Python dictionaries in insertion order *)

Module OsPath.

(** [os.path.splitext] (POSIX): split at the last dot of the last path
    component, unless that component consists of leading dots only up to
    it. *)
Definition splitext (p : string) : string * string :=
  let sepIndex := PyStr.rfind "/"%char p in
  let dotIndex := PyStr.rfind "."%char p in
  if sepIndex <? dotIndex then
    let filenameIndex := Z.to_nat (sepIndex + 1) in
    let between :=
      String.substring filenameIndex (Z.to_nat dotIndex - filenameIndex) p in
    if existsb (fun c => negb (Ascii.eqb c "."%char))
               (list_ascii_of_string between)
    then (String.substring 0 (Z.to_nat dotIndex) p,
          String.substring (Z.to_nat dotIndex)
                           (String.length p - Z.to_nat dotIndex) p)
    else (p, EmptyString)
  else (p, EmptyString).

End OsPath.

Module PyDict.
Section Dict.

Context {V : Type}.

(** [d[k] = v]: overwrite in place, or append a new key. *)
Fixpoint set (d : list (string * V)) (k : string) (v : V)
  : list (string * V) :=
  match d with
  | [] => [(k, v)]
  | (k', v') :: rest =>
      if String.eqb k' k then (k', v) :: rest
      else (k', v') :: set rest k v
  end.

(** [d.get(k)] *)
Fixpoint get (d : list (string * V)) (k : string) : option V :=
  match d with
  | [] => None
  | (k', v') :: rest => if String.eqb k' k then Some v' else get rest k
  end.

End Dict.
End PyDict.

(** ** file_utils.py *)

Module FileUtils.

(** The [while True] loop of [get_next_available_filename]. *)
Fixpoint next_numbered (fuel : nat) (w : World) (name ext : string)
         (counter : nat) : result string :=
  match fuel with
  | O => Diverge
  | S fuel' =>
      let new_filename := name ++ "_" ++ pretty counter ++ ext in
      if negb (path_exists w new_filename) then Ok new_filename
      else next_numbered fuel' w name ext (S counter)
  end.

(** The loop is run for one more round than there are files. *)
Definition get_next_available_filename (w : World) (base_filename : string)
  : result string :=
  if negb (path_exists w base_filename) then Ok base_filename
  else
    let '(name, ext) := OsPath.splitext base_filename in
    next_numbered (S (size (files w))) w name ext 2.

Definition getmtime (w : World) (p : string) : Z :=
  match files w !! p with
  | Some f => mtime f
  | None => 0
  end.

(** [glob.glob("company_ticker_map*.json")] over the directory listing. *)
Definition glob_mapping_files (w : World) : list string :=
  filter (fun p : string =>
            PyStr.startswith p "company_ticker_map" &&
            PyStr.endswith p ".json" &&
            (23 <=? String.length p)%nat = true)
         (map fst (map_to_list (files w))).

(** [max(files, key=os.path.getmtime)]: the first file of maximal mtime. *)
Fixpoint max_by_mtime (w : World) (best : string) (rest : list string)
  : string :=
  match rest with
  | [] => best
  | p :: rest' =>
      if getmtime w best <? getmtime w p then max_by_mtime w p rest'
      else max_by_mtime w best rest'
  end.

Definition get_latest_mapping_file (w : World)
  : option string * option FileBody :=
  match glob_mapping_files w with
  | [] => (None, None)
  | p :: rest =>
      let latest_file := max_by_mtime w p rest in
      match files w !! latest_file with
      | Some {| body := Unparsable |} => (None, None)
      | Some {| body := contents |} => (Some latest_file, Some contents)
      | None => (None, None)
      end
  end.

Definition count_companies (sectors : list Sector) : Z :=
  fold_left
    (fun total sector =>
       fold_left
         (fun total subsector =>
            total + Z.of_nat (length (companies subsector)))
         (subsectors sector) total)
    sectors 0.

(** Any failure to read the taxonomy is caught and answered with 0. *)
Definition get_total_companies (w : World) : Z :=
  match files w !! "enriched_market_matrix.json" with
  | Some {| body := Taxonomy sectors |} => count_companies sectors
  | _ => 0
  end.

Definition save_mappings (w : World) (mappings : list (string * MapVal))
           (metadata : gmap string MetaVal) (base_filename : string)
  : result (World * string) :=
  bind (get_next_available_filename w base_filename) (fun output_file =>
    let total_companies := get_total_companies w in
    let metadata' := <["total_companies" := MNum total_companies]> metadata in
    Ok (write_file w output_file (MappingArtifact metadata' mappings),
        output_file)).

Definition default_base : string := "company_ticker_map.json".

End FileUtils.

(** ** yf_lookup.py *)

Module YfLookup.

Fixpoint next_numbered (fuel : nat) (w : World) (name ext : string)
         (counter : nat) : result string :=
  match fuel with
  | O => Diverge
  | S fuel' =>
      let new_filename := name ++ "_" ++ pretty counter ++ ext in
      if negb (path_exists w new_filename) then Ok new_filename
      else next_numbered fuel' w name ext (S counter)
  end.

Definition get_next_available_filename (w : World) (base_filename : string)
  : result string :=
  if negb (path_exists w base_filename) then Ok base_filename
  else
    let '(name, ext) := OsPath.splitext base_filename in
    next_numbered (S (size (files w))) w name ext 2.

(** The module's own [save_mappings]: the metadata is written as given. *)
Definition save_mappings (w : World) (mappings : list (string * MapVal))
           (metadata : gmap string MetaVal) (base_filename : string)
  : result (World * string) :=
  bind (get_next_available_filename w base_filename) (fun output_file =>
    Ok (write_file w output_file (MappingArtifact metadata mappings),
        output_file)).

(** The loops, over whatever [YFinanceClient.lookup_symbol] does. *)
Definition create_company_ticker_map {St : Type}
           (lookup_symbol : St -> string -> result (option string * St))
           (c : St) (market_data : list Sector) :=
  ResolutionLoops.create_company_ticker_map lookup_symbol c market_data.

Definition process_unmapped_companies {St : Type}
           (lookup_symbol : St -> string -> result (option string * St))
           (c : St) (unmapped : list UnmappedCompany)
           (existing_mappings : gmap string MapVal) :=
  ResolutionLoops.process_unmapped_companies
    lookup_symbol c unmapped existing_mappings.

End YfLookup.

(** ** company_info.py *)

Module CompanyInfo.

Record CompanyInfoClient : Type := mkCompanyInfoClient {
  limiter : RateLimit.Limiter
}.

Definition init : CompanyInfoClient := {| limiter := RateLimit.init 45 |}.

Definition _wait_for_rate_limit (self : CompanyInfoClient) (w : World)
  : result (CompanyInfoClient * World) :=
  bind (RateLimit._wait_for_rate_limit (limiter self) w)
       (fun '(l, w') => Ok ({| limiter := l |}, w')).

(** Lines 78-84 of [fetch_all_company_profiles]: the symbols to fetch. *)
Definition collect_symbols (mappings : list (string * MapVal))
  : gset string :=
  fold_left
    (fun symbols '(_, mapping) =>
       match mapping with
       | VObj sym _ =>
           match sym with
           | Some s => if truthy sym then symbols ∪ {[ s ]} else symbols
           | None => symbols
           end
       | VStr s => if truthy (Some s) then symbols ∪ {[ s ]} else symbols
       | VNull => symbols
       end)
    mappings (∅ : gset string).

End CompanyInfo.

(** ** utils.py *)

Module Utils.

(** Lines 124-132 of [count_unique_tickers]. *)
Definition ticker_symbols (mappings : list (string * MapVal)) : gset string :=
  fold_left
    (fun symbols '(_, value) =>
       match value with
       | VObj (Some s) _ => symbols ∪ {[ s ]}
       | VObj None _ => symbols
       | VStr s => symbols ∪ {[ s ]}
       | VNull => symbols
       end)
    mappings (∅ : gset string).

Definition count_unique_tickers (w : World) : nat :=
  match FileUtils.get_latest_mapping_file w with
  | (_, Some (MappingArtifact _ mappings)) => size (ticker_symbols mappings)
  | _ => 0%nat
  end.

(** Lines 167-172: group the companies by ticker.  A ticker is used as a
    dictionary key, so an object value raises [TypeError]. *)
Definition group_company (acc : result (gmap string (list string)))
           (item : string * MapVal) : result (gmap string (list string)) :=
  bind acc (fun ticker_to_companies =>
    match snd item with
    | VNull => Ok ticker_to_companies
    | VStr ticker =>
        Ok (<[ticker := (default [] (ticker_to_companies !! ticker)
                           ++ [fst item])%list]> ticker_to_companies)
    | VObj _ _ => Raise TypeError
    end).

Definition group_by_ticker (mappings : list (string * MapVal))
  : result (gmap string (list string)) :=
  fold_left group_company mappings (Ok ∅).

(** Lines 175-176. *)
Definition find_duplicates (ticker_to_companies : gmap string (list string))
  : gmap string (list string) :=
  filter (fun kv => (1 < length kv.2)%nat) ticker_to_companies.

Definition sym_of (ticker : MapVal) : option string :=
  match ticker with
  | VStr t => Some t
  | _ => None
  end.

Definition duplicate_note (company : string) (sharing : list string)
  : string :=
  "Duplicate ticker used by: "
    ++ PyStr.join ", " (filter (fun c => c ≠ company) sharing).

(** Lines 186-198: one annotated entry per item, written with [d[k] = v]. *)
Definition annotate_company (duplicates : gmap string (list string))
           (new_mappings : list (string * MapVal))
           (item : string * MapVal) : list (string * MapVal) :=
  let company := fst item in
  let ticker := snd item in
  match sym_of ticker ≫= (fun t => duplicates !! t) with
  | Some sharing =>
      PyDict.set new_mappings company
                 (VObj (sym_of ticker) (Some (duplicate_note company sharing)))
  | None =>
      PyDict.set new_mappings company (VObj (sym_of ticker) None)
  end.

Definition annotate (duplicates : gmap string (list string))
           (mappings : list (string * MapVal)) : list (string * MapVal) :=
  fold_left (annotate_company duplicates) mappings [].

Inductive CleanupLog : Type :=
| NoMappingFile
| NoDuplicates
| Cleaned (duplicates : gmap string (list string)) (output_file : string).

Definition read_taxonomy_total (w : World) : result Z :=
  match files w !! "enriched_market_matrix.json" with
  | None => Raise FileNotFoundError
  | Some {| body := Taxonomy sectors |} => Ok (FileUtils.count_companies sectors)
  | Some {| body := Unparsable |} => Raise JSONDecodeError
  | Some {| body := MappingArtifact _ _ |} => Raise KeyError
  end.

Definition clean_duplicate_tickers (w : World) : result (World * CleanupLog) :=
  match FileUtils.get_latest_mapping_file w with
  | (Some latest_file, Some ticker_data) =>
      bind (read_taxonomy_total w) (fun total_companies =>
        match ticker_data with
        | MappingArtifact _ mappings =>
            bind (group_by_ticker mappings) (fun ticker_to_companies =>
              let duplicates := find_duplicates ticker_to_companies in
              if decide (duplicates = ∅) then Ok (w, NoDuplicates)
              else
                let new_mappings := annotate duplicates mappings in
                let metadata : gmap string MetaVal :=
                  <["mapped_companies" :=
                      MNum (Z.of_nat (size ticker_to_companies))]>
                  (<["total_companies" := MNum total_companies]>
                   (<["original_file" := MStr latest_file]>
                    (<["source" := MStr "duplicate_cleanup"]> ∅))) in
                bind (FileUtils.save_mappings w new_mappings metadata
                                              FileUtils.default_base)
                     (fun '(w', output_file) =>
                        Ok (w', Cleaned duplicates output_file)))
        | _ => Raise KeyError
        end)
  | _ => Ok (w, NoMappingFile)
  end.

End Utils.

(** ** process_market_data.py *)

Module ProcessMarketData.

(** A sector of the input taxonomy: its subsectors are bare names. *)
Record InputSector : Type := mkInputSector {
  input_name : string;
  input_subsectors : list string
}.

(** The chat completion either raises (transport error, content that
    [json.loads] rejects) or yields the parsed content, which the source
    returns as it is: an object with a ["companies"] entry, an object
    without one, or a JSON value that is not an object.  The entry is
    copied to the output unread; it is typed here as the array of
    companies the response format describes, of any length. *)
Inductive ChatResponse : Type :=
| ChatRaises
| ChatCompanies (cs : list Company)
| ChatWithoutCompanies
| ChatNotObject.

(** What [get_companies_for_subsector] returns. *)
Inductive SubsectorResult : Type :=
| ResultCompanies (cs : list Company)
| ResultWithoutCompanies
| ResultNotObject.

Definition placeholder (subsector : string) : Company :=
  {| company_name := "Error processing " ++ subsector; market_cap := "N/A" |}.

Definition get_companies_for_subsector
           (chat : string -> string -> ChatResponse)
           (sector subsector : string) : SubsectorResult :=
  match chat sector subsector with
  | ChatCompanies cs => ResultCompanies cs
  | ChatWithoutCompanies => ResultWithoutCompanies
  | ChatNotObject => ResultNotObject
  | ChatRaises => ResultCompanies (replicate 9 (placeholder subsector))
  end.

(** [results[result_index]["companies"]] on one result. *)
Definition companies_entry (r : SubsectorResult) : result (list Company) :=
  match r with
  | ResultCompanies cs => Ok cs
  | ResultWithoutCompanies => Raise KeyError
  | ResultNotObject => Raise TypeError
  end.

(** [asyncio.gather]: every task owns the slot of its position.  [order]
    is the order in which the tasks complete; a task that never completes
    leaves the gather pending. *)
Definition complete {A B : Type} (run : A -> B) (tasks : list A)
           (slots : list (option B)) (i : nat) : list (option B) :=
  match tasks !! i with
  | Some t => <[i := Some (run t)]> slots
  | None => slots
  end.

Fixpoint collect {B : Type} (slots : list (option B)) : result (list B) :=
  match slots with
  | [] => Ok []
  | Some b :: rest => bind (collect rest) (fun bs => Ok (b :: bs))
  | None :: _ => Diverge
  end.

Definition gather {A B : Type} (run : A -> B) (tasks : list A)
           (order : list nat) : result (list B) :=
  collect (fold_left (complete run tasks) order
                     (replicate (length tasks) None)).

(** Lines 109-113: one task per (sector, subsector), sectors outermost. *)
Definition make_tasks (market_data : list InputSector)
  : list (string * string) :=
  flat_map (fun sector =>
              map (fun subsector => (input_name sector, subsector))
                  (input_subsectors sector))
           market_data.

(** Lines 124-129: consume [results] from [result_index] on. *)
Fixpoint enrich_subsectors (results : list SubsectorResult)
         (result_index : nat) (subs : list string)
  : result (list Subsector * nat) :=
  match subs with
  | [] => Ok ([], result_index)
  | subsector :: rest =>
      match results !! result_index with
      | None => Raise IndexError
      | Some r =>
          bind (companies_entry r) (fun cs =>
            bind (enrich_subsectors results (S result_index) rest)
                 (fun '(enriched, next) =>
                    Ok ({| subsector_name := subsector; companies := cs |}
                          :: enriched, next)))
      end
  end.

(** Lines 122-130. *)
Fixpoint enrich_sectors (results : list SubsectorResult)
         (result_index : nat) (market_data : list InputSector)
  : result (list Sector) :=
  match market_data with
  | [] => Ok []
  | sector :: rest =>
      bind (enrich_subsectors results result_index (input_subsectors sector))
           (fun '(enriched_subsectors, next) =>
              bind (enrich_sectors results next rest) (fun sectors =>
                Ok ({| sector_name := input_name sector;
                       subsectors := enriched_subsectors |} :: sectors)))
  end.

Definition process_all_sectors (chat : string -> string -> ChatResponse)
           (order : list nat) (market_data : list InputSector)
  : result (list Sector) :=
  let tasks := make_tasks market_data in
  bind (gather (fun '(sector, subsector) =>
                  get_companies_for_subsector chat sector subsector)
               tasks order)
       (fun results => enrich_sectors results 0 market_data).

(** The output as a flat sequence of (sector, subsector, companies). *)
Definition entries (market_data : list Sector)
  : list (string * string * list Company) :=
  flat_map (fun sector =>
              map (fun sub => (sector_name sector, subsector_name sub,
                               companies sub))
                  (subsectors sector))
           market_data.

(** One result of [get_tickers_from_perplexity]. *)
Record TickerResult : Type := mkTickerResult {
  result_name : string;
  result_sym : option string;
  result_notes : option string
}.

Definition json_of_sym (sym : option string) : MapVal :=
  match sym with
  | Some s => VStr s
  | None => VNull
  end.

(** [range(0, total, batch_size)] with [companies[i:i + batch_size]]. *)
Fixpoint batches {A : Type} (fuel : nat) (batch_size : nat)
         (companies : list A) : list (list A) :=
  match fuel with
  | O => []
  | S fuel' =>
      match companies with
      | [] => []
      | _ => take batch_size companies
               :: batches fuel' batch_size (drop batch_size companies)
      end
  end.

(** Lines 319-331 and 335: the new mappings and their merge into the
    existing ones.  [get_tickers] is [get_tickers_from_perplexity]. *)
Definition add_results (new_mappings : gmap string MapVal)
           (results : list TickerResult) : gmap string MapVal :=
  fold_left (fun m r => <[result_name r := json_of_sym (result_sym r)]> m)
            results new_mappings.

Definition process_unmapped_with_perplexity
           (get_tickers : list UnmappedCompany -> list TickerResult)
           (batch_size : Z) (companies : list UnmappedCompany)
           (existing_mappings : gmap string MapVal)
  : result (gmap string MapVal * option (gmap string MapVal)) :=
  if batch_size =? 0 then Raise ValueError
  else
    let new_mappings :=
      fold_left (fun m batch => add_results m (get_tickers batch))
                (if batch_size <? 0 then []
                 else batches (length companies) (Z.to_nat batch_size)
                              companies)
                ∅ in
    Ok (new_mappings,
        if decide (new_mappings = ∅) then None
        else Some (new_mappings ∪ existing_mappings)).

End ProcessMarketData.

(** ** The resolver's tiering as the specification words it

    [resolve_by_tiers fold] reads the three tiers off the specification;
    [fold] is what is done to a result's description before it is compared:
    nothing ([id]) in the specification's wording, [PyStr.lower] in the
    code. *)

Module SymbolResolverSpec.

Import Financials.

Definition common_equity (r : SearchResult) : bool :=
  String.eqb (type_ r) "Common Stock".

Definition no_exchange_suffix (r : SearchResult) : bool :=
  negb (PyStr.contains "." (symbol r)).

(** Twice the number of query words found among the description words
    exceeds the number of query words: the overlap ratio exceeds 0.5. *)
Definition overlap_exceeds_half (query desc : string) : bool :=
  let query_words : gset string := list_to_set (PyStr.split query) in
  let desc_words : gset string := list_to_set (PyStr.split desc) in
  (size query_words <? 2 * size (desc_words ∩ query_words))%nat.

Definition tier1 (fold : string -> string) (transformed original : string)
           (r : SearchResult) : bool :=
  common_equity r && no_exchange_suffix r &&
  (PyStr.contains transformed (fold (description r)) ||
   PyStr.contains (PyStr.lower original) (fold (description r))).

Definition tier2 (fold : string -> string) (transformed : string)
           (r : SearchResult) : bool :=
  common_equity r && no_exchange_suffix r &&
  overlap_exceeds_half transformed (fold (description r)).

Definition tier3 (r : SearchResult) : bool := common_equity r.

Definition resolve_by_tiers (fold : string -> string)
           (transformed original : string) (results : list SearchResult)
  : option string :=
  match List.find (tier1 fold transformed original) results with
  | Some r => Some (symbol r)
  | None =>
      match List.find (tier2 fold transformed) results with
      | Some r => Some (symbol r)
      | None =>
          match List.find tier3 results with
          | Some r => Some (symbol r)
          | None => None
          end
      end
  end.

End SymbolResolverSpec.

(** ** The numbered sequence of the mapping store, as the specification
    words it: [base], [base_2], [base_3], ... with the number before the
    extension. *)

Module MappingStoreSpec.

Definition candidate (name ext : string) (k : nat) : string :=
  name ++ "_" ++ pretty k ++ ext.

Definition numbered (base : string) (k : nat) : string :=
  if (k =? 1)%nat then base
  else
    let '(name, ext) := OsPath.splitext base in
    candidate name ext k.

(** What a save leaves behind: a new file under the first free name of
    the sequence, every older file as it was. *)
Definition saved_as_next (w w' : World) (base : string) (k : nat)
           (b : FileBody) : Prop :=
  (1 <= k)%nat /\
  files w !! numbered base k = None /\
  (forall i, (1 <= i < k)%nat -> is_Some (files w !! numbered base i)) /\
  (forall p, is_Some (files w !! p) -> files w' !! p = files w !! p) /\
  (forall p, p <> numbered base k -> files w' !! p = files w !! p) /\
  files w' !! numbered base k = Some {| mtime := clock w; body := b |}.

End MappingStoreSpec.

(** ** Duplicate detection, as the specification words it *)

Module DuplicateSpec.

(** A mapping whose values are plain strings or [null], as JSON values. *)
Definition legacy (m : list (string * option string))
  : list (string * MapVal) :=
  map (fun item => (fst item,
                    match snd item with
                    | Some t => VStr t
                    | None => VNull
                    end)) m.

(** All the companies mapped to [ticker], in the order of the mapping. *)
Definition sharing (m : list (string * option string)) (ticker : string)
  : list string :=
  map fst (filter (fun item => snd item = Some ticker) m).

(** The note of a company: the other companies of its ticker when the
    ticker is shared, [null] otherwise. *)
Definition note (m : list (string * option string)) (company : string)
           (ticker : option string) : option string :=
  match ticker with
  | Some t =>
      if (1 <? length (sharing m t))%nat then
        Some ("Duplicate ticker used by: "
                ++ PyStr.join ", "
                     (filter (fun c => c <> company) (sharing m t)))
      else None
  | None => None
  end.

(** What the grouping dictionary holds for a ticker with these companies. *)
Definition nonempty (l : list string) : option (list string) :=
  match l with
  | [] => None
  | _ => Some l
  end.

End DuplicateSpec.

(** ** The enriched taxonomy, as the specification words it: every
    subsector, in place, with the companies obtained for its pair. *)

Module EnrichmentSpec.

Import ProcessMarketData.

Definition enriched_subsector (f : string * string -> list Company)
           (sector subsector : string) : Subsector :=
  {| subsector_name := subsector; companies := f (sector, subsector) |}.

Definition enriched_sector (f : string * string -> list Company)
           (sector : InputSector) : Sector :=
  {| sector_name := input_name sector;
     subsectors := map (enriched_subsector f (input_name sector))
                       (input_subsectors sector) |}.

(** The companies a result carries. *)
Definition listed_companies (r : SubsectorResult) : list Company :=
  match r with
  | ResultCompanies cs => cs
  | _ => []
  end.

(** The exception the first result without a ["companies"] entry gives
    rise to, if there is such a result. *)
Fixpoint first_failure (results : list SubsectorResult) : option exn :=
  match results with
  | [] => None
  | r :: rest =>
      match companies_entry r with
      | Raise e => Some e
      | _ => first_failure rest
      end
  end.

End EnrichmentSpec.

(** ** Sample inputs *)

Module Samples.

Definition full_limiter : RateLimit.Limiter :=
  {| RateLimit.last_call_time := 100; RateLimit.calls_this_minute := 2;
     RateLimit.rate_limit := 2 |}.

(** The unresolved names of the idempotence example. *)
Definition xy : list UnmappedCompany :=
  [ {| unmapped_name := "X"; unmapped_sector := "S";
       unmapped_subsector := "T"; unmapped_market_cap := "1B" |};
    {| unmapped_name := "Y"; unmapped_sector := "S";
       unmapped_subsector := "T"; unmapped_market_cap := "2B" |} ].

(** A resolver without state that knows ["X"] only. *)
Definition knows_x (st : unit) (name : string)
  : result (option string * unit) :=
  Ok (if String.eqb name "X" then Some "XXX" else None, st).

(** A company for which the AI provider reports no ticker. *)
Definition private_co : UnmappedCompany :=
  {| unmapped_name := "Z"; unmapped_sector := "S";
     unmapped_subsector := "T"; unmapped_market_cap := "N/A" |}.

Definition no_ticker (batch : list UnmappedCompany)
  : list ProcessMarketData.TickerResult :=
  map (fun co => {| ProcessMarketData.result_name := unmapped_name co;
                    ProcessMarketData.result_sym := None;
                    ProcessMarketData.result_notes := Some "private" |})
      batch.

(** A directory that holds one mapping artifact under the base name. *)
Definition first_artifact : World :=
  {| clock := 500;
     files := {[ "company_ticker_map.json" :=
                   {| mtime := 400;
                      body := MappingArtifact ∅ [("A", VStr "TIK")] |} ]};
     queries := [] |}.

(** A taxonomy of three companies. *)
Definition three_companies : list Sector :=
  [ {| sector_name := "Technology";
       subsectors :=
         [ {| subsector_name := "Software";
              companies :=
                [ {| company_name := "A"; market_cap := "3T" |};
                  {| company_name := "B"; market_cap := "2T" |};
                  {| company_name := "C"; market_cap := "1T" |} ] |} ] |} ].

Definition with_taxonomy : World :=
  {| clock := 500;
     files := {[ "enriched_market_matrix.json" :=
                   {| mtime := 100; body := Taxonomy three_companies |} ]};
     queries := [] |}.

(** The mapping of the duplicate-detection example. *)
Definition tik_mapping : list (string * option string) :=
  [ ("A", Some "TIK"); ("B", Some "TIK"); ("C", Some "OTH") ].

(** A directory with that mapping as its only artifact, and a taxonomy. *)
Definition tik_dir : World :=
  {| clock := 500;
     files :=
       <[ "company_ticker_map.json" :=
            {| mtime := 400;
               body := MappingArtifact ∅ (DuplicateSpec.legacy tik_mapping) |} ]>
       (<[ "enriched_market_matrix.json" :=
             {| mtime := 100; body := Taxonomy three_companies |} ]> ∅);
     queries := [] |}.

(** The same directory after a duplicate clean-up has added its annotated
    artifact. *)
Definition tik_dir_cleaned : World :=
  match Utils.clean_duplicate_tickers tik_dir with
  | Ok (w, _) => w
  | _ => tik_dir
  end.

(** Three (sector, subsector) pairs, and a chat provider that fails on the
    second and lists nine companies for the others. *)
Definition three_pairs : list ProcessMarketData.InputSector :=
  [ {| ProcessMarketData.input_name := "Technology";
       ProcessMarketData.input_subsectors := ["Software"; "Hardware"] |};
    {| ProcessMarketData.input_name := "Energy";
       ProcessMarketData.input_subsectors := ["Oil"] |} ].

Definition nine (subsector : string) : list Company :=
  map (fun k : nat => {| company_name := subsector ++ " " ++ pretty k;
                         market_cap := "1B" |})
      (seq 1 9).

Definition flaky_chat (sector subsector : string)
  : ProcessMarketData.ChatResponse :=
  if String.eqb subsector "Hardware" then ProcessMarketData.ChatRaises
  else ProcessMarketData.ChatCompanies (nine subsector).

(** A chat provider whose answer for the third pair parses but has no
    ["companies"] entry. *)
Definition schemaless_chat (sector subsector : string)
  : ProcessMarketData.ChatResponse :=
  if String.eqb subsector "Oil" then ProcessMarketData.ChatWithoutCompanies
  else ProcessMarketData.ChatCompanies (nine subsector).

Definition empty_dir (now : Z) : World :=
  {| clock := now; files := ∅; queries := [] |}.

(** The two listings of the tiering example. *)
Definition abc_listings : list Financials.SearchResult :=
  [ {| Financials.type_ := "Common Stock"; Financials.symbol := "ABC.L";
       Financials.description := "abc corp" |};
    {| Financials.type_ := "Common Stock"; Financials.symbol := "ABC";
       Financials.description := "abc corp" |} ].

(** A provider that describes the first listing in capitals. *)
Definition capitals_listings : list Financials.SearchResult :=
  [ {| Financials.type_ := "Common Stock"; Financials.symbol := "X";
       Financials.description := "ABC CORP" |};
    {| Financials.type_ := "Common Stock"; Financials.symbol := "Y";
       Financials.description := "abc corp" |} ].

Definition answering (results : list Financials.SearchResult)
  : string -> Financials.LookupResponse :=
  fun _ => Financials.LookupReturns (Some results).

End Samples.

(** ** A client making one call after another

    Every client method starts with [self._wait_for_rate_limit()]; between
    two calls the clock moves on by some delay. *)

Module RateLimitRuns.

Fixpoint acquire_all (self : RateLimit.Limiter) (w : World) (delays : list Z)
  : result (RateLimit.Limiter * World) :=
  match delays with
  | [] => Ok (self, w)
  | d :: rest =>
      bind (RateLimit._wait_for_rate_limit self (RateLimit.elapse w d))
           (fun '(self', w') => acquire_all self' w' rest)
  end.

End RateLimitRuns.

(** ** yf_lookup.py: the yfinance client *)

Module YfClient.

Record YFinanceClient : Type := mkYFinanceClient {
  limiter : RateLimit.Limiter
}.

Definition init : YFinanceClient := {| limiter := RateLimit.init 45 |}.

Definition _wait_for_rate_limit (self : YFinanceClient) (w : World)
  : result (YFinanceClient * World) :=
  bind (RateLimit._wait_for_rate_limit (limiter self) w)
       (fun '(l, w') => Ok ({| limiter := l |}, w')).

(** What [yf.Ticker(t).info] does: raise, give an empty dictionary, or give
    a non-empty one, whose ["symbol"] entry may be absent. *)
Inductive TickerInfo : Type :=
| InfoRaises
| InfoEmpty
| InfoWith (symbol : option string).

Definition COMPANY_TICKERS : list (string * string) :=
  [ ("apple", "AAPL"); ("microsoft", "MSFT"); ("alphabet", "GOOGL");
    ("google", "GOOGL"); ("amazon", "AMZN"); ("meta platforms", "META");
    ("facebook", "META"); ("tesla", "TSLA");
    ("berkshire hathaway", "BRK-B"); ("jpmorgan chase", "JPM");
    ("johnson & johnson", "JNJ"); ("walmart", "WMT");
    ("procter & gamble", "PG"); ("exxonmobil", "XOM"); ("coca-cola", "KO");
    ("pfizer", "PFE"); ("bank of america", "BAC"); ("home depot", "HD");
    ("chevron", "CVX"); ("cisco", "CSCO"); ("pepsico", "PEP");
    ("adobe", "ADBE"); ("netflix", "NFLX"); ("costco", "COST");
    ("thermo fisher", "TMO"); ("verizon", "VZ"); ("abbott", "ABT");
    ("abbvie", "ABBV"); ("salesforce", "CRM"); ("merck", "MRK");
    ("comcast", "CMCSA"); ("mcdonalds", "MCD"); ("t-mobile", "TMUS") ].

Definition suffixes : list string :=
  [ " inc."; " inc"; " corp."; " corp"; " corporation"; " ltd."; " ltd";
    " limited"; " plc"; " s.a."; " ag"; " co."; ","; "."; " company" ].

(** Lines 88-92. *)
Definition clean_name (company_name : string) : string :=
  PyStr.strip
    (fold_left (fun name suffix => PyStr.replace suffix "" name)
               suffixes (PyStr.lower company_name)).

(** [if info:] after [info = yf.Ticker(ticker).info], inside the inner
    [try]: an exception counts as a failed verification. *)
Definition verified (ticker_info : string -> TickerInfo) (ticker : string)
  : bool :=
  match ticker_info ticker with
  | InfoWith _ => true
  | _ => false
  end.

(** Lines 95-104.  The loop goes on to the next known name when the
    verification fails.  [requests] lists the tickers asked for so far. *)
Fixpoint check_known (ticker_info : string -> TickerInfo)
         (known : list (string * string)) (name_to_search : string)
         (requests : list string) : option string * list string :=
  match known with
  | [] => (None, requests)
  | (known_name, ticker) :: rest =>
      if PyStr.contains known_name name_to_search then
        if verified ticker_info ticker
        then (Some ticker, (requests ++ [ticker])%list)
        else check_known ticker_info rest name_to_search
                         (requests ++ [ticker])%list
      else check_known ticker_info rest name_to_search requests
  end.

(** Lines 113-120. *)
Fixpoint try_variations (ticker_info : string -> TickerInfo)
         (possible_tickers : list string) (requests : list string)
  : option string * list string :=
  match possible_tickers with
  | [] => (None, requests)
  | possible_ticker :: rest =>
      match ticker_info possible_ticker with
      | InfoWith (Some s) =>
          if truthy (Some s)
          then (Some s, (requests ++ [possible_ticker])%list)
          else try_variations ticker_info rest
                              (requests ++ [possible_ticker])%list
      | _ => try_variations ticker_info rest
                            (requests ++ [possible_ticker])%list
      end
  end.

(** [name_to_search.split()[0]] *)
Definition first_word (name_to_search : string) : result string :=
  match PyStr.split name_to_search with
  | word :: _ => Ok word
  | [] => Raise IndexError
  end.

(** Lines 107-111: the list is built before any variation is tried. *)
Definition possible_tickers (name_to_search : string) : result (list string) :=
  bind (first_word name_to_search) (fun word =>
    Ok [ PyStr.replace " " "" name_to_search;
         PyStr.replace " " "-" name_to_search;
         word ]).

(** The body of the outer [try]: the symbol found, if any, and the tickers
    asked of yfinance on the way. *)
Definition resolve (ticker_info : string -> TickerInfo)
           (company_name : string) : option string * list string :=
  let name_to_search := clean_name company_name in
  match check_known ticker_info COMPANY_TICKERS name_to_search [] with
  | (Some ticker, requests) => (Some ticker, requests)
  | (None, requests) =>
      match possible_tickers name_to_search with
      | Ok possible => try_variations ticker_info possible requests
      | _ => (None, requests)
      end
  end.

Definition lookup_symbol (ticker_info : string -> TickerInfo)
           (self : YFinanceClient) (w : World) (company_name : string)
  : result (option string * list string * YFinanceClient * World) :=
  bind (_wait_for_rate_limit self w)
       (fun '(self1, w1) =>
          let '(found, requests) := resolve ticker_info company_name in
          Ok (found, requests, self1, w1)).

End YfClient.

(** ** Further sample inputs *)

Module MoreSamples.

(** A yfinance that has information for AAPL only. *)
Definition knows_aapl (ticker : string) : YfClient.TickerInfo :=
  if String.eqb ticker "AAPL" then YfClient.InfoWith (Some "AAPL")
  else YfClient.InfoEmpty.

(** A taxonomy in which two companies are listed twice. *)
Definition repeated : list Sector :=
  [ {| sector_name := "Technology";
       subsectors :=
         [ {| subsector_name := "Software";
              companies :=
                [ {| company_name := "X"; market_cap := "3T" |};
                  {| company_name := "Q"; market_cap := "2T" |} ] |};
           {| subsector_name := "Cloud";
              companies :=
                [ {| company_name := "X"; market_cap := "3T" |};
                  {| company_name := "Q"; market_cap := "2T" |} ] |} ] |} ].

End MoreSamples.

(** ** The companies of a taxonomy, in file order *)

Module TaxonomySpec.

Definition all_companies (market_data : list Sector) : list Company :=
  flat_map (fun sector => flat_map companies (subsectors sector)) market_data.

Definition all_names (market_data : list Sector) : list string :=
  map company_name (all_companies market_data).

(** What a resolver that answers by name contributes for a name: its
    answer, unless that is [None] or empty. *)
Definition resolved (answer : string -> option string) (name : string)
  : option MapVal :=
  match answer name with
  | Some t => if truthy (Some t) then Some (VStr t) else None
  | None => None
  end.

(** The number of times [name] occurs in a list of names. *)
Definition occurrences (name : string) (names : list string) : nat :=
  length (filter (fun n => n = name) names).

End TaxonomySpec.

(** ** The state of the creation loop after a prefix of the companies,
    for a resolver that answers by name *)

Module LoopSpec.

Import ResolutionLoops TaxonomySpec.

Definition after_prefix {St : Type} (answer : string -> option string)
           (reachable : St -> Prop) (names : list string)
           (st : LoopState (St := St)) : Prop :=
  reachable (client st) /\
  (forall n, built st !! n
             = if decide (n ∈ names) then resolved answer n else None) /\
  (forall n, occurrences n (sent st)
             = if truthy (answer n)
               then (if decide (n ∈ names) then 1 else 0)%nat
               else occurrences n names).

End LoopSpec.

(** ** What counts as a mapping file, and the symbol a value carries *)

Module ArtifactSpec.

(** The names [glob.glob("company_ticker_map*.json")] matches. *)
Definition is_mapping_file (p : string) : bool :=
  PyStr.startswith p "company_ticker_map" &&
  PyStr.endswith p ".json" &&
  (23 <=? String.length p)%nat.

(** The symbol of a value of either shape, if it has one. *)
Definition symbol_of (v : MapVal) : option string :=
  match v with
  | VNull => None
  | VStr s => Some s
  | VObj sym _ => sym
  end.

(** The annotated entry of a company. *)
Definition annotated_entry (m : list (string * option string))
           (item : string * option string) : string * MapVal :=
  (fst item, VObj (snd item) (DuplicateSpec.note m (fst item) (snd item))).

End ArtifactSpec.

(** ** Further sample directories *)

Module CleanupSamples.

(** A mapping in which no ticker is shared; one company has no ticker. *)
Definition distinct_mapping : list (string * option string) :=
  [ ("A", Some "TIK"); ("C", Some "OTH"); ("D", None) ].

(** A directory with that mapping as its only artifact, and a taxonomy. *)
Definition distinct_dir : World :=
  {| clock := 500;
     files :=
       <[ "company_ticker_map.json" :=
            {| mtime := 400;
               body := MappingArtifact ∅ (DuplicateSpec.legacy distinct_mapping) |} ]>
       (<[ "enriched_market_matrix.json" :=
             {| mtime := 100; body := Taxonomy Samples.three_companies |} ]> ∅);
     queries := [] |}.

End CleanupSamples.

(** ** process_market_data.py: the helpers of the Perplexity flow *)

Module PyStrSep.

(** [s.split(sep)] for a non-empty [sep]: the pieces between the
    occurrences of [sep], found from left to right without overlap.
    [skip] counts the characters of an occurrence that remain to be
    dropped, [cur] is the piece being read. *)
Fixpoint split_from (sep : string) (skip : nat) (cur s : string)
  : list string :=
  match s with
  | EmptyString => [cur]
  | String c s' =>
      match skip with
      | S k => split_from sep k cur s'
      | O =>
          if String.prefix sep s
          then cur :: split_from sep (Nat.pred (String.length sep))
                                 EmptyString s'
          else split_from sep O (cur ++ String c EmptyString) s'
      end
  end.

Definition split_sep (sep s : string) : list string :=
  split_from sep O EmptyString s.

(** [c in chars] *)
Definition among (chars : string) (c : ascii) : bool :=
  existsb (Ascii.eqb c) (list_ascii_of_string chars).

Fixpoint lstrip_chars (chars s : string) : string :=
  match s with
  | EmptyString => EmptyString
  | String c s' => if among chars c then lstrip_chars chars s' else s
  end.

Fixpoint rstrip_chars (chars s : string) : string :=
  match s with
  | EmptyString => EmptyString
  | String c s' =>
      match rstrip_chars chars s' with
      | EmptyString =>
          if among chars c then EmptyString else String c EmptyString
      | r => String c r
      end
  end.

(** [s.strip(chars)] *)
Definition strip_chars (chars s : string) : string :=
  lstrip_chars chars (rstrip_chars chars s).

(** [s[n:]] *)
Fixpoint slice_from (n : nat) (s : string) : string :=
  match n, s with
  | O, _ => s
  | S _, EmptyString => EmptyString
  | S k, String _ s' => slice_from k s'
  end.

Definition nl : string := String "010"%char EmptyString.

End PyStrSep.

Module Perplexity.

Import ProcessMarketData.

(** Lines 196-205. *)
Definition clean_company_name (name : string) : string :=
  let name :=
    if PyStr.contains "(" name
    then hd EmptyString (PyStrSep.split_sep "(" name)
    else name in
  PyStrSep.strip_chars " ,.;" name.

(** What [json.loads] makes of a text that parses: an array, whose items
    either have the keys ["name"], ["sym"] and ["notes"] or make the
    subscription raise, or another value. *)
Inductive Json : Type :=
| JsonArray (items : list (option TickerResult))
| JsonOther.

Record CleanedCompany : Type := mkCleanedCompany {
  cleaned_name : string;
  original_name : string;
  cleaned_market_cap : string
}.

(** Lines 218-225. *)
Definition clean_companies (companies : list UnmappedCompany)
  : list CleanedCompany :=
  map (fun company =>
         {| cleaned_name := clean_company_name (unmapped_name company);
            original_name := unmapped_name company;
            cleaned_market_cap := unmapped_market_cap company |})
      companies.

(** Lines 228-231. *)
Definition company_list (cleaned_companies : list CleanedCompany) : string :=
  PyStr.join PyStrSep.nl
    (map (fun company =>
            "- " ++ cleaned_name company ++ " (Market Cap: "
                 ++ cleaned_market_cap company ++ ")")
         cleaned_companies).

(** Line 271: a dictionary comprehension, later companies overwrite. *)
Definition name_map (cleaned_companies : list CleanedCompany)
  : gmap string string :=
  fold_left
    (fun d c => <[clean_company_name (cleaned_name c) := original_name c]> d)
    cleaned_companies ∅.

(** Lines 273-279; [None] when an item makes a subscription raise. *)
Fixpoint final_results (names : gmap string string)
         (result : list (option TickerResult)) : option (list TickerResult) :=
  match result with
  | [] => Some []
  | None :: _ => None
  | Some item :: rest =>
      match final_results names rest with
      | Some results =>
          Some ({| result_name :=
                     default (result_name item) (names !! result_name item);
                   result_sym := result_sym item;
                   result_notes := result_notes item |} :: results)
      | None => None
      end
  end.

Section Provider.

(** [json.loads], [None] for [JSONDecodeError]; and the chat completion
    as a function of the user message, [None] when it raises. *)
Variable loads : string -> option Json.
Variable chat : string -> option string.

Definition valid (text : string) : bool :=
  match loads text with
  | Some _ => true
  | None => false
  end.

(** Lines 171-185: what one part between code fences yields. *)
Definition fenced_json (part : string) : option string :=
  let cleaned := PyStr.strip part in
  if truthy (Some cleaned) then
    let cleaned :=
      if PyStr.startswith (PyStr.lower cleaned) ("json" ++ PyStrSep.nl)
      then PyStrSep.slice_from 5 cleaned
      else cleaned in
    let cleaned := PyStr.strip cleaned in
    if valid cleaned then Some cleaned else None
  else None.

Fixpoint first_fenced_json (parts : list string) : option string :=
  match parts with
  | [] => None
  | part :: rest =>
      match fenced_json part with
      | Some cleaned => Some cleaned
      | None => first_fenced_json rest
      end
  end.

(** Lines 159-194.  Both outcomes of the last validation return the
    stripped response. *)
Definition clean_json_response (response_text : string) : string :=
  let fenced :=
    if PyStr.contains "```" response_text
    then first_fenced_json (PyStrSep.split_sep "```" response_text)
    else None in
  match fenced with
  | Some cleaned => cleaned
  | None => PyStr.strip response_text
  end.

(** Lines 207-302.  Without an API key the [ValueError] is raised before
    the [try]; every failure after that is answered with an empty list. *)
Definition get_tickers_from_perplexity (api_key : option string)
           (companies : list UnmappedCompany) : result (list TickerResult) :=
  if negb (truthy api_key) then Raise ValueError
  else
    let cleaned_companies := clean_companies companies in
    match chat ("Return ticker symbols for:" ++ PyStrSep.nl
                  ++ company_list cleaned_companies) with
    | None => Ok []
    | Some response_text =>
        match loads (clean_json_response response_text) with
        | Some (JsonArray result) =>
            Ok (default [] (final_results (name_map cleaned_companies)
                                          result))
        | Some JsonOther => Ok []
        | None => Ok []
        end
    end.

End Provider.

End Perplexity.

(** The company a result name is mapped back to. *)
Module PerplexitySpec.

Import ProcessMarketData Perplexity.

(** The original name of the last company of the batch whose cleaned name
    is [k], or [k] itself when there is none. *)
Definition original_of (companies : list UnmappedCompany) (k : string)
  : string :=
  default k
    (unmapped_name <$>
       last (filter (fun c => clean_company_name (unmapped_name c) = k)
                    companies)).

Definition renamed (companies : list UnmappedCompany) (item : TickerResult)
  : TickerResult :=
  {| result_name := original_of companies (result_name item);
     result_sym := result_sym item;
     result_notes := result_notes item |}.

End PerplexitySpec.

(** A batch of two companies and a provider that answers in a fenced
    block, with one item nobody asked for. *)
Module PerplexitySamples.

Import ProcessMarketData Perplexity.

Definition two_companies : list UnmappedCompany :=
  [ {| unmapped_name := "Alphabet Inc. (Class A)";
       unmapped_sector := "Technology"; unmapped_subsector := "Software";
       unmapped_market_cap := "1.8T" |};
    {| unmapped_name := "Amazon";
       unmapped_sector := "Technology"; unmapped_subsector := "Software";
       unmapped_market_cap := "1.6T" |} ].

Definition answer_items : list TickerResult :=
  [ {| result_name := "Alphabet Inc"; result_sym := Some "GOOGL";
       result_notes := None |};
    {| result_name := "Amazon"; result_sym := Some "AMZN";
       result_notes := None |};
    {| result_name := "Nobody"; result_sym := None;
       result_notes := Some "private" |} ].

Definition answer_text : string :=
  "```json" ++ PyStrSep.nl ++ "[...]" ++ PyStrSep.nl ++ "```".

Definition sample_loads (text : string) : option Json :=
  if String.eqb text "[...]" then Some (JsonArray (map Some answer_items))
  else None.

Definition sample_chat (user_message : string) : option string :=
  Some answer_text.

End PerplexitySamples.

(** ** company_info.py: fetching the profiles *)

Module CompanyProfiles.

(** A profile is a JSON object; the provider's call either raises or
    returns one, possibly empty. *)
Inductive ProfileResponse : Type :=
| ProfileRaises
| ProfileReturns (profile : list (string * string)).

(** Lines 44-59.  The symbol asked for is recorded in [queries]. *)
Definition get_company_profile
           (company_profile2 : string -> ProfileResponse)
           (self : CompanyInfo.CompanyInfoClient) (w : World)
           (symbol : string)
  : result (option (list (string * string))
            * CompanyInfo.CompanyInfoClient * World) :=
  bind (CompanyInfo._wait_for_rate_limit self w)
       (fun '(self1, w1) =>
          let w2 := record_query w1 symbol in
          match company_profile2 symbol with
          | ProfileReturns profile =>
              if bool_decide (profile = []) then Ok (None, self1, w2)
              else Ok (Some profile, self1, w2)
          | ProfileRaises => Ok (None, self1, w2)
          end).

(** Lines 89-94 of [fetch_all_company_profiles]: one round of the loop,
    and the loop over the symbols in the order the set yields them. *)
Definition fetch_profile
           (company_profile2 : string -> ProfileResponse)
           (acc : result (gmap string (list (string * string))
                          * CompanyInfo.CompanyInfoClient * World))
           (symbol : string) :=
  bind acc (fun '(profiles, self, w) =>
    bind (get_company_profile company_profile2 self w symbol)
         (fun '(profile, self', w') =>
            match profile with
            | Some p => Ok (<[symbol := p]> profiles, self', w')
            | None => Ok (profiles, self', w')
            end)).

Definition fetch_profiles
           (company_profile2 : string -> ProfileResponse)
           (self : CompanyInfo.CompanyInfoClient) (w : World)
           (symbols : list string) :=
  fold_left (fetch_profile company_profile2) symbols (Ok (∅, self, w)).

End CompanyProfiles.

(** What [get_company_profile] returns for a symbol, given the provider. *)
Module ProfileSpec.

Import CompanyProfiles.

Definition answer (company_profile2 : string -> ProfileResponse)
           (symbol : string) : option (list (string * string)) :=
  match company_profile2 symbol with
  | ProfileReturns profile =>
      match profile with
      | nil => None
      | _ => Some profile
      end
  | ProfileRaises => None
  end.

End ProfileSpec.

Module ProfileSamples.

(** A provider that has a profile for TIK and fails on everything else. *)
Definition knows_tik (symbol : string) : CompanyProfiles.ProfileResponse :=
  if String.eqb symbol "TIK"
  then CompanyProfiles.ProfileReturns [("name", "Tik Corp")]
  else CompanyProfiles.ProfileRaises.

End ProfileSamples.

(** ** utils.py: finding the companies without a mapping *)

Module FindUnmapped.

(** What [find_unmapped_companies] writes to [unmapped_companies.json]:
    the four counts of its metadata and the list of unmapped entries.  The
    list is given in the order lines 60-69 build it; the source then sorts
    it by a floating-point key before writing. *)
Record UnmappedReport : Type := mkUnmappedReport {
  report_total_companies : nat;
  report_mapped_companies : nat;
  report_unmapped_companies : nat;
  report_latest_mapping_file : option string;
  report_unmapped : list UnmappedCompany
}.

(** Lines 26-34: every key of the latest mapping counts as mapped,
    whatever its value. *)
Definition mapped_companies (latest : option string * option FileBody)
  : result (gset string) :=
  match latest with
  | (Some _, Some (MappingArtifact _ mappings)) =>
      Ok (list_to_set (map fst mappings))
  | (Some _, Some _) => Raise KeyError
  | (Some _, None) => Raise TypeError
  | (None, _) => Ok ∅
  end.

(** Lines 37-41. *)
Definition all_companies (market_data : list Sector) : gset string :=
  fold_left
    (fun all sector =>
       fold_left
         (fun all subsector =>
            fold_left (fun all company => all ∪ {[ company_name company ]})
                      (companies subsector) all)
         (subsectors sector) all)
    market_data ∅.

(** Lines 59-69. *)
Definition unmapped_details (market_data : list Sector)
           (unmapped_companies : gset string) : list UnmappedCompany :=
  fold_left
    (fun details sector =>
       fold_left
         (fun details subsector =>
            fold_left
              (fun details company =>
                 if decide (company_name company ∈ unmapped_companies)
                 then (details
                         ++ [ {| unmapped_name := company_name company;
                                 unmapped_sector := sector_name sector;
                                 unmapped_subsector :=
                                   subsector_name subsector;
                                 unmapped_market_cap := market_cap company |} ]
                      )%list
                 else details)
              (companies subsector) details)
         (subsectors sector) details)
    market_data [].

(** Lines 20-105, without the sort and with the report returned instead
    of written. *)
Definition find_unmapped_companies (w : World)
  : result (gset string * UnmappedReport) :=
  match files w !! "enriched_market_matrix.json" with
  | None => Raise FileNotFoundError
  | Some {| body := Unparsable |} => Raise JSONDecodeError
  | Some {| body := MappingArtifact _ _ |} =>
      bind (mapped_companies (FileUtils.get_latest_mapping_file w))
           (fun _ => Raise KeyError)
  | Some {| body := Taxonomy market_data |} =>
      let latest := FileUtils.get_latest_mapping_file w in
      bind (mapped_companies latest) (fun mapped =>
        let all := all_companies market_data in
        let unmapped_companies := all ∖ mapped in
        Ok (unmapped_companies,
            {| report_total_companies := size all;
               report_mapped_companies := size mapped;
               report_unmapped_companies := size unmapped_companies;
               report_latest_mapping_file := fst latest;
               report_unmapped :=
                 unmapped_details market_data unmapped_companies |}))
  end.

End FindUnmapped.

Module FindUnmappedSpec.

(** The entries of the taxonomy, with the sector and subsector each is
    listed under, in the order of the taxonomy. *)
Definition listed (market_data : list Sector) : list UnmappedCompany :=
  flat_map
    (fun sector =>
       flat_map
         (fun subsector =>
            map (fun company =>
                   {| unmapped_name := company_name company;
                      unmapped_sector := sector_name sector;
                      unmapped_subsector := subsector_name subsector;
                      unmapped_market_cap := market_cap company |})
                (companies subsector))
         (subsectors sector))
    market_data.

End FindUnmappedSpec.

(** ** The scripts that resolve the unmapped companies, to the end

    [process_unmapped_companies] of financials.py and of yf_lookup.py from
    the line that reads the latest mapping to the save.  The list read from
    [unmapped_companies.json] is an argument. *)

Module UnmappedScripts.

Import ResolutionLoops.

(** [ticker_data["mappings"] if ticker_data else {}] *)
Definition existing_mappings (ticker_data : option FileBody)
  : result (list (string * MapVal)) :=
  match ticker_data with
  | None => Ok []
  | Some (MappingArtifact _ mappings) => Ok mappings
  | Some _ => Raise KeyError
  end.

(** [ticker_data["metadata"]["total_companies"]] *)
Definition prior_total (ticker_data : FileBody) : result MetaVal :=
  match ticker_data with
  | MappingArtifact metadata _ =>
      match metadata !! "total_companies" with
      | Some total => Ok total
      | None => Raise KeyError
      end
  | _ => Raise KeyError
  end.

(** [{**existing_mappings, **new_mappings}] with its keys in order: those
    of the prior mapping, then the new names in the order in which they
    were resolved. *)
Definition merge {St : Type} (existing : list (string * MapVal))
           (run : UnmappedRun (St := St)) : list (string * MapVal) :=
  fold_left
    (fun d name =>
       match new_mappings run !! name with
       | Some v => PyDict.set d name v
       | None => d
       end)
    (resolver_calls run) existing.

(** [client.lookup_symbol] of the yfinance client as the loops call it. *)
Definition yf_resolver (ticker_info : string -> YfClient.TickerInfo)
           (st : YfClient.YFinanceClient * World) (company_name : string)
  : result (option string * (YfClient.YFinanceClient * World)) :=
  bind (YfClient.lookup_symbol ticker_info (fst st) (snd st) company_name)
       (fun '(found, _, self', w') => Ok (found, (self', w'))).

Section Scripts.

(** [datetime.now().isoformat()] as a function of the clock. *)
Variable isoformat : Z -> string.

(** financials.py, lines 160-216. *)
Definition financials_process_unmapped_companies
           (api_key : option string)
           (symbol_lookup : string -> Financials.LookupResponse)
           (w : World) (unmapped : list UnmappedCompany)
  : result (World * option string) :=
  if negb (truthy api_key) then Raise ValueError
  else
    let '(latest_file, ticker_data) := FileUtils.get_latest_mapping_file w in
    bind (existing_mappings ticker_data) (fun existing =>
    bind (Financials.process_unmapped_companies
            symbol_lookup w unmapped (list_to_map existing)) (fun run =>
      let w1 := snd (client_after run) in
      match updated_mappings run with
      | None => Ok (w1, None)
      | Some _ =>
          let updated := merge existing run in
          bind (match ticker_data with
                | Some data => prior_total data
                | None => Raise TypeError
                end) (fun total =>
            let metadata : gmap string MetaVal :=
              <["mapped_companies" := MNum (Z.of_nat (length updated))]>
              (<["total_companies" := total]>
               (<["created_at" := MStr (isoformat (clock w1))]> ∅)) in
            bind (FileUtils.save_mappings w1 updated metadata
                                          FileUtils.default_base)
                 (fun '(w2, output_file) => Ok (w2, Some output_file)))
      end)).

(** yf_lookup.py, lines 207-260. *)
Definition yf_process_unmapped_companies
           (ticker_info : string -> YfClient.TickerInfo)
           (w : World) (unmapped : list UnmappedCompany)
  : result (World * option string) :=
  let '(latest_file, ticker_data) := FileUtils.get_latest_mapping_file w in
  bind (existing_mappings ticker_data) (fun existing =>
  bind (YfLookup.process_unmapped_companies
          (yf_resolver ticker_info) (YfClient.init, w) unmapped
          (list_to_map existing)) (fun run =>
    let w1 := snd (client_after run) in
    match updated_mappings run with
    | None => Ok (w1, None)
    | Some _ =>
        let updated := merge existing run in
        bind (match ticker_data with
              | Some data => prior_total data
              | None => Ok (MNum (Z.of_nat (length updated)))
              end) (fun total =>
          let metadata : gmap string MetaVal :=
            <["mapped_companies" := MNum (Z.of_nat (length updated))]>
            (<["total_companies" := total]>
             (<["created_at" := MStr (isoformat (clock w1))]> ∅)) in
          bind (YfLookup.save_mappings w1 updated metadata
                                       FileUtils.default_base)
               (fun '(w2, output_file) => Ok (w2, Some output_file)))
    end)).

End Scripts.

End UnmappedScripts.

Module ScriptSamples.

(** Two unmapped companies: yfinance knows the first by its table, the
    provider of the Finnhub client lists the second. *)
Definition apple : UnmappedCompany :=
  {| unmapped_name := "Apple Inc."; unmapped_sector := "Technology";
     unmapped_subsector := "Hardware"; unmapped_market_cap := "3T" |}.

Definition abc : UnmappedCompany :=
  {| unmapped_name := "abc corp"; unmapped_sector := "Technology";
     unmapped_subsector := "Software"; unmapped_market_cap := "1B" |}.

Definition new_year (now : Z) : string := "2025-01-01T00:00:00".

End ScriptSamples.

Module PriorSamples.

(** A directory with a taxonomy and one artifact that maps A and records
    a total of 3. *)
Definition prior_dir : World :=
  {| clock := 500;
     files :=
       <[ "company_ticker_map.json" :=
            {| mtime := 400;
               body := MappingArtifact {[ "total_companies" := MNum 3 ]}
                                       [("A", VStr "TIK")] |} ]>
       (<[ "enriched_market_matrix.json" :=
             {| mtime := 100; body := Taxonomy Samples.three_companies |} ]> ∅);
     queries := [] |}.

End PriorSamples.

(** The order of a Python dictionary's keys: each key where it was first
    inserted. *)
Module MergeSpec.

Definition keep (seen : list string) (name : string) : list string :=
  if decide (name ∈ seen) then seen else (seen ++ [name])%list.

Definition first_occurrences (names : list string) : list string :=
  fold_left keep names [].

End MergeSpec.

(** * Properties *)

(** ** Rate limiter *)

Section RateLimiterFacts.

Import RateLimit.

Lemma sleep_nonneg (w : World) (s : Z) :
  0 <= s ->
  sleep w s = Ok {| clock := clock w + s; files := files w;
                    queries := queries w |}.
Proof.
  intros Hs. unfold sleep.
  destruct (Z.ltb_spec s 0) as [Hneg | _]; [lia | reflexivity].
Qed.

(** The acquire never raises: inside the blocking branch the requested
    sleep is never negative. *)
Lemma wait_for_rate_limit_returns (l : Limiter) (w : World) :
  exists l' w', _wait_for_rate_limit l w = Ok (l', w').
Proof.
  unfold _wait_for_rate_limit.
  destruct (Z.ltb_spec (last_call_time l) (clock w - 60)) as [Hold | Hrecent].
  - cbn. eauto.
  - destruct (Z.leb_spec (rate_limit l) (calls_this_minute l)).
    + rewrite sleep_nonneg by lia. cbn. eauto.
    + cbn. eauto.
Qed.

(** The blocking branch, spelled out. *)
Lemma wait_for_rate_limit_blocking (l : Limiter) (w : World) :
  clock w - last_call_time l <= 60 ->
  rate_limit l <= calls_this_minute l ->
  _wait_for_rate_limit l w =
    Ok ({| last_call_time := clock w; calls_this_minute := 1;
           rate_limit := rate_limit l |},
        {| clock := last_call_time l + 60; files := files w;
           queries := queries w |}).
Proof.
  intros Hwin Hfull. unfold _wait_for_rate_limit.
  destruct (Z.ltb_spec (last_call_time l) (clock w - 60)); [lia |].
  destruct (Z.leb_spec (rate_limit l) (calls_this_minute l)); [| lia].
  rewrite sleep_nonneg by lia. cbn.
  do 3 f_equal. lia.
Qed.

(** Below capacity the acquire returns at once and counts the call. *)
Lemma wait_for_rate_limit_free (l : Limiter) (w : World) :
  calls_this_minute l < rate_limit l ->
  clock w - last_call_time l <= 60 ->
  _wait_for_rate_limit l w =
    Ok ({| last_call_time := clock w;
           calls_this_minute := calls_this_minute l + 1;
           rate_limit := rate_limit l |}, w).
Proof.
  intros Hroom Hwin. unfold _wait_for_rate_limit.
  destruct (Z.ltb_spec (last_call_time l) (clock w - 60)); [lia |].
  destruct (Z.leb_spec (rate_limit l) (calls_this_minute l)); [lia |].
  reflexivity.
Qed.

Lemma wait_for_rate_limit_first (c : Z) (w : World) :
  0 < c ->
  _wait_for_rate_limit (init c) w =
    Ok ({| last_call_time := clock w; calls_this_minute := 1;
           rate_limit := c |}, w).
Proof.
  intros Hc. unfold _wait_for_rate_limit, init. cbn.
  destruct (Z.ltb_spec 0 (clock w - 60)); cbn; [reflexivity |].
  destruct (Z.leb_spec c 0); [lia | reflexivity].
Qed.

(** C2. An acquire that finds less than 60 seconds passed since the last
    recorded call and the counter at the capacity [c] sleeps for
    [60 - (now - last_call_time)] seconds, so it returns no earlier than 60
    seconds after that recorded time, and leaves the counter at 1.  The
    methods of [FinnhubClient] and [CompanyInfoClient] behave alike.  With
    capacity 2, the third acquire of a window that started at [clock w]
    returns at least 60 seconds after that start with the counter at 1,
    the first two having returned at once. *)
Theorem wait_for_rate_limit_blocks_until_window_ends :
  (forall (c : Z) (l : Limiter) (w : World),
      rate_limit l = c ->
      clock w - last_call_time l < 60 ->
      c <= calls_this_minute l ->
      exists l' w',
        _wait_for_rate_limit l w = Ok (l', w') /\
        clock w' - clock w = 60 - (clock w - last_call_time l) /\
        60 <= clock w' - last_call_time l /\
        calls_this_minute l' = 1 /\
        Financials._wait_for_rate_limit
          {| Financials.limiter := l;
             Financials.COMPANY_ALIASES :=
               Financials.COMPANY_ALIASES Financials.init |} w =
          Ok ({| Financials.limiter := l';
                 Financials.COMPANY_ALIASES :=
                   Financials.COMPANY_ALIASES Financials.init |}, w') /\
        CompanyInfo._wait_for_rate_limit {| CompanyInfo.limiter := l |} w =
          Ok ({| CompanyInfo.limiter := l' |}, w')) /\
  (forall (w : World) (d1 d2 : Z),
      0 <= d1 -> 0 <= d2 -> d1 + d2 < 60 ->
      exists l1 w1 l2 w2 l3 w3,
        _wait_for_rate_limit (init 2) w = Ok (l1, w1) /\
        _wait_for_rate_limit l1 (elapse w1 d1) = Ok (l2, w2) /\
        _wait_for_rate_limit l2 (elapse w2 d2) = Ok (l3, w3) /\
        clock w1 = clock w /\
        clock w2 = clock w + d1 /\
        clock w + 60 <= clock w3 /\
        calls_this_minute l3 = 1).
Proof.
  split.
  - intros c l w Hc Hwin Hfull. subst c.
    pose proof (wait_for_rate_limit_blocking l w ltac:(lia) Hfull) as Hrun.
    eexists _, _. split; [exact Hrun |].
    repeat split; cbn; try lia.
    + unfold Financials._wait_for_rate_limit. cbn [Financials.limiter].
      rewrite Hrun. reflexivity.
    + unfold CompanyInfo._wait_for_rate_limit. cbn [CompanyInfo.limiter].
      rewrite Hrun. reflexivity.
  - intros w d1 d2 Hd1 Hd2 Hwin.
    eexists _, _, _, _, _, _.
    split; [apply wait_for_rate_limit_first; lia |].
    split; [apply wait_for_rate_limit_free; cbn; lia |].
    split; [apply wait_for_rate_limit_blocking; cbn; lia |].
    cbn. repeat split; lia.
Qed.

Lemma wait_for_rate_limit_blocks_until_window_ends_witness :
  (exists l' w',
      _wait_for_rate_limit Samples.full_limiter (Samples.empty_dir 130) =
        Ok (l', w') /\
      clock w' - 130 = 60 - (130 - 100) /\
      60 <= clock w' - 100 /\
      calls_this_minute l' = 1) /\
  (exists l1 w1 l2 w2 l3 w3,
      _wait_for_rate_limit (init 2) (Samples.empty_dir 130) = Ok (l1, w1) /\
      _wait_for_rate_limit l1 (elapse w1 10) = Ok (l2, w2) /\
      _wait_for_rate_limit l2 (elapse w2 20) = Ok (l3, w3) /\
      clock w1 = 130 /\
      clock w2 = 130 + 10 /\
      130 + 60 <= clock w3 /\
      calls_this_minute l3 = 1).
Proof.
  split.
  - destruct (proj1 wait_for_rate_limit_blocks_until_window_ends 2
                Samples.full_limiter (Samples.empty_dir 130))
      as (l' & w' & Hrun & Hslept & Hlate & Hone & _);
      [reflexivity | cbn; lia | cbn; lia |].
    exists l', w'. cbn in Hslept, Hlate. auto.
  - apply (proj2 wait_for_rate_limit_blocks_until_window_ends
             (Samples.empty_dir 130) 10 20); lia.
Defined.

End RateLimiterFacts.

(** ** Symbol resolution *)

Section StringFacts.

Import PyStr.

Lemma contains_empty (s : string) : contains "" s = true.
Proof. destruct s; reflexivity. Qed.

Lemma lstrip_idempotent (s : string) : lstrip (lstrip s) = lstrip s.
Proof.
  induction s as [| c s IH]; [reflexivity |].
  cbn. destruct (is_space c) eqn:Hc; [exact IH |].
  cbn. rewrite Hc. reflexivity.
Qed.

Lemma split_nil_lstrip (s : string) : split s = [] -> lstrip s = "".
Proof.
  induction s as [| c s IH]; [reflexivity |].
  cbn. destruct (is_space c); [exact IH |].
  destruct s as [| c' s']; [discriminate |].
  destruct (is_space c'); [discriminate |].
  destruct (split (String c' s')); discriminate.
Qed.

(** A trimmed string without words is empty. *)
Lemma strip_no_words (s : string) : split (strip s) = [] -> strip s = "".
Proof.
  intros Hnil. apply split_nil_lstrip in Hnil.
  unfold strip in *. rewrite lstrip_idempotent in Hnil. exact Hnil.
Qed.

Lemma words_size_zero (l : list string) :
  size (list_to_set l : gset string) = 0%nat -> l = [].
Proof.
  destruct l as [| x l]; [reflexivity |].
  intros Hsize. apply size_empty_inv in Hsize.
  exfalso. apply (not_elem_of_empty (C := gset string) x).
  rewrite <- Hsize. set_solver.
Qed.

End StringFacts.

Section SymbolResolverFacts.

Import Financials SymbolResolverSpec.

Lemma check_aliases_cases (aliases : list (string * string)) (n : string) :
  check_aliases aliases n = n \/
  exists k, In (k, check_aliases aliases n) aliases.
Proof.
  induction aliases as [| [k v] rest IH]; [left; reflexivity |].
  cbn. destruct (PyStr.contains k n).
  - right. exists k. left. reflexivity.
  - destruct IH as [IH | [k' IH]]; [left; exact IH |].
    right. exists k'. right. exact IH.
Qed.

(** A search term without words is the empty string. *)
Lemma search_term_no_words (l : RateLimit.Limiter) (name : string) :
  PyStr.split (search_term (client_with l) name) = [] ->
  search_term (client_with l) name = "".
Proof.
  unfold search_term. cbn [client_with COMPANY_ALIASES init].
  set (al := [("alphabet inc", "google"); ("meta platforms", "facebook");
              ("amazon", "amazon.com"); ("berkshire hathaway", "brk")]).
  destruct (check_aliases_cases al (clean_name name)) as [Hsame | [k Hin]].
  - rewrite Hsame. apply strip_no_words.
  - remember (check_aliases al (clean_name name)) as v eqn:Hv.
    clear Hv. intros Hnil. exfalso.
    destruct Hin as [Heq | [Heq | [Heq | [Heq | []]]]];
      inversion Heq; subst v; discriminate Hnil.
Qed.

Lemma exact_match_find (q name : string) (results : list SearchResult) :
  exact_match q name results =
    match List.find (tier1 PyStr.lower q name) results with
    | Some r => Some (symbol r)
    | None => None
    end.
Proof.
  induction results as [| r rest IH]; [reflexivity |].
  cbn [exact_match List.find].
  replace (tier1 PyStr.lower q name r)
    with (is_common_stock r && us_listing r &&
          existsb (fun n => PyStr.contains n (PyStr.lower (description r)))
                  [q; PyStr.lower name]).
  - destruct (_ && _ && _); [reflexivity | exact IH].
  - unfold tier1, common_equity, no_exchange_suffix, is_common_stock,
      us_listing. cbn [existsb]. rewrite orb_false_r. reflexivity.
Qed.

Lemma any_common_stock_find (results : list SearchResult) :
  any_common_stock results =
    match List.find tier3 results with
    | Some r => Some (symbol r)
    | None => None
    end.
Proof.
  induction results as [| r rest IH]; [reflexivity |].
  cbn [any_common_stock List.find]. unfold tier3, common_equity at 1.
  fold (is_common_stock r).
  destruct (is_common_stock r); [reflexivity | exact IH].
Qed.

(** With a query that has words the division never raises. *)
Lemma partial_match_find (q : string) (results : list SearchResult) :
  PyStr.split q <> [] ->
  partial_match q results =
    Ok match List.find (tier2 PyStr.lower q) results with
       | Some r => Some (symbol r)
       | None => None
       end.
Proof.
  intros Hwords.
  induction results as [| r rest IH]; [reflexivity |].
  cbn [partial_match List.find]. unfold tier2 at 1.
  unfold common_equity, no_exchange_suffix.
  fold (is_common_stock r). fold (us_listing r).
  destruct (is_common_stock r && us_listing r); [| exact IH].
  unfold overlap_above_half, overlap_exceeds_half.
  destruct (Nat.eqb_spec (size (list_to_set (PyStr.split q) : gset string)) 0)
    as [Hzero | Hpos].
  { apply words_size_zero in Hzero. contradiction. }
  cbn [bind andb].
  rewrite (comm_L (∩) (list_to_set (PyStr.split q) : gset string)).
  destruct (_ <? _)%nat; [reflexivity | exact IH].
Qed.

(** With the empty query every domestic common stock is an exact match, so
    once the exact pass has failed the partial pass divides nothing. *)
Lemma partial_match_empty_query (name : string)
      (results : list SearchResult) :
  List.find (tier1 PyStr.lower "" name) results = None ->
  partial_match "" results = Ok None /\
  List.find (tier2 PyStr.lower "") results = None.
Proof.
  induction results as [| r rest IH]; [intros _; split; reflexivity |].
  cbn [List.find partial_match].
  unfold tier1 at 1, tier2 at 1, common_equity, no_exchange_suffix.
  fold (is_common_stock r). fold (us_listing r).
  rewrite contains_empty. cbn [orb]. rewrite andb_true_r.
  destruct (is_common_stock r && us_listing r); [discriminate |].
  cbn [andb]. exact IH.
Qed.

Lemma select_symbol_tiers (l : RateLimit.Limiter) (name : string)
      (results : list SearchResult) :
  select_symbol (search_term (client_with l) name) name
                (LookupReturns (Some results)) =
    Ok (resolve_by_tiers PyStr.lower (search_term (client_with l) name)
                         name results).
Proof.
  pose proof (search_term_no_words l name) as Hterm.
  set (q := search_term (client_with l) name) in *.
  unfold select_symbol, resolve_by_tiers.
  destruct results as [| r0 rest]; [reflexivity |].
  set (results := r0 :: rest).
  rewrite exact_match_find.
  destruct (List.find (tier1 PyStr.lower q name) results) as [r |] eqn:H1;
    [reflexivity |].
  rewrite any_common_stock_find.
  destruct (PyStr.split q) as [| word words] eqn:Hsplit.
  - rewrite (Hterm eq_refl) in *.
    destruct (partial_match_empty_query name results H1) as [Hp Hf].
    rewrite Hp, Hf. reflexivity.
  - rewrite partial_match_find by (rewrite Hsplit; discriminate).
    cbn [bind].
    destruct (List.find (tier2 PyStr.lower q) results); reflexivity.
Qed.

End SymbolResolverFacts.

Section SymbolResolverClaims.

Import Financials SymbolResolverSpec.

Lemma lookup_symbol_runs (symbol_lookup : string -> LookupResponse)
      (l : RateLimit.Limiter) (w : World) (name : string) :
  exists l' w',
    RateLimit._wait_for_rate_limit l w = Ok (l', w') /\
    lookup_symbol symbol_lookup (client_with l) w name =
      match select_symbol (search_term (client_with l) name) name
              (symbol_lookup (search_term (client_with l) name)) with
      | Ok r => Ok (r, client_with l',
                    record_query w' (search_term (client_with l) name))
      | Raise _ => Ok (None, client_with l',
                       record_query w' (search_term (client_with l) name))
      | Diverge => Diverge
      end.
Proof.
  destruct (wait_for_rate_limit_returns l w) as (l' & w' & Hwait).
  exists l', w'. split; [exact Hwait |].
  unfold lookup_symbol, _wait_for_rate_limit.
  cbn [client_with limiter COMPANY_ALIASES]. rewrite Hwait. reflexivity.
Qed.

(** C1, as the code has it.  For every company name and every result list
    the provider returns for its search term, [lookup_symbol] returns the
    symbol of the first Tier-1 result (common stock, no ['.'] in the
    symbol, the lowercased description contains the search term or the
    lowercased name); failing that the first common-stock no-suffix result
    more than half of whose query words occur among the words of the
    lowercased description; failing that the first common stock; and
    [None] otherwise.  For ["abc corp"] over the ABC.L / ABC listings it
    returns ["ABC"]. *)
Theorem lookup_symbol_follows_tiers :
  (forall (symbol_lookup : string -> LookupResponse)
          (l : RateLimit.Limiter) (w : World) (name : string)
          (results : list SearchResult),
      symbol_lookup (search_term (client_with l) name) =
        LookupReturns (Some results) ->
      exists self' w',
        lookup_symbol symbol_lookup (client_with l) w name =
          Ok (resolve_by_tiers PyStr.lower
                               (search_term (client_with l) name)
                               name results, self', w')) /\
  (forall (w : World),
      exists self' w',
        lookup_symbol (Samples.answering Samples.abc_listings)
                      init w "abc corp" = Ok (Some "ABC", self', w')).
Proof.
  assert (Hgeneral :
    forall symbol_lookup l w name results,
      symbol_lookup (search_term (client_with l) name) =
        LookupReturns (Some results) ->
      exists self' w',
        lookup_symbol symbol_lookup (client_with l) w name =
          Ok (resolve_by_tiers PyStr.lower
                               (search_term (client_with l) name)
                               name results, self', w')).
  { intros symbol_lookup l w name results Hanswer.
    destruct (lookup_symbol_runs symbol_lookup l w name)
      as (l' & w' & _ & Hrun).
    rewrite Hrun, Hanswer, select_symbol_tiers. eauto. }
  split; [exact Hgeneral |].
  intros w.
  destruct (Hgeneral (Samples.answering Samples.abc_listings)
              (RateLimit.init 45) w "abc corp" Samples.abc_listings eq_refl)
    as (self' & w' & Hrun).
  exists self', w'. exact Hrun.
Qed.

Lemma lookup_symbol_follows_tiers_witness :
  exists self' w',
    lookup_symbol (Samples.answering Samples.capitals_listings)
                  (client_with (RateLimit.init 45)) (Samples.empty_dir 130)
                  "abc corp" = Ok (Some "X", self', w').
Proof.
  apply (proj1 lookup_symbol_follows_tiers
           (Samples.answering Samples.capitals_listings)
           (RateLimit.init 45) (Samples.empty_dir 130) "abc corp"
           Samples.capitals_listings).
  reflexivity.
Defined.

(** C1, as worded: with descriptions compared as the provider spells them
    the tiers pick ["Y"] where the code, which lowercases the description
    first, returns ["X"]. *)
Lemma lookup_symbol_differs_from_unfolded_tiers :
  resolve_by_tiers id (search_term init "abc corp") "abc corp"
                   Samples.capitals_listings = Some "Y" /\
  exists self' w',
    lookup_symbol (Samples.answering Samples.capitals_listings)
                  init (Samples.empty_dir 130) "abc corp" =
      Ok (Some "X", self', w') /\
    Some "X" <> resolve_by_tiers id (search_term init "abc corp") "abc corp"
                                 Samples.capitals_listings.
Proof.
  split; [vm_compute; reflexivity |].
  destruct (lookup_symbol_runs (Samples.answering Samples.capitals_listings)
              (RateLimit.init 45) (Samples.empty_dir 130) "abc corp")
    as (l' & w' & _ & Hrun).
  unfold Samples.answering in Hrun at 2.
  rewrite select_symbol_tiers in Hrun.
  change (client_with (RateLimit.init 45)) with init in Hrun.
  assert (Hx : resolve_by_tiers PyStr.lower (search_term init "abc corp")
                                "abc corp" Samples.capitals_listings
               = Some "X") by (vm_compute; reflexivity).
  rewrite Hx in Hrun.
  eexists _, _. split; [exact Hrun |].
  vm_compute. discriminate.
Qed.

(** C3. For ["Alphabet Inc."] the suffix [" inc."] is deleted before the
    alias table is consulted, so the key ["alphabet inc"] no longer occurs
    in the cleaned name and the provider is queried for ["alphabet"]. *)
Theorem lookup_symbol_alphabet_searches_alphabet :
  clean_name "Alphabet Inc." = "alphabet" /\
  PyStr.contains "alphabet inc" (clean_name "Alphabet Inc.") = false /\
  search_term init "Alphabet Inc." = "alphabet" /\
  forall (symbol_lookup : string -> LookupResponse) (w : World),
  exists r self' w',
    lookup_symbol symbol_lookup init w "Alphabet Inc." = Ok (r, self', w') /\
    queries w' = (queries w ++ ["alphabet"])%list.
Proof.
  split; [reflexivity |]. split; [reflexivity |]. split; [reflexivity |].
  intros symbol_lookup w.
  destruct (lookup_symbol_runs symbol_lookup (RateLimit.init 45) w
              "Alphabet Inc.") as (l' & w' & Hwait & Hrun).
  change (client_with (RateLimit.init 45)) with init in Hrun.
  assert (Hq : queries w' = queries w).
  { unfold RateLimit._wait_for_rate_limit in Hwait. cbn in Hwait.
    destruct (0 <? clock w - 60); cbn in Hwait.
    - inversion Hwait. reflexivity.
    - inversion Hwait. reflexivity. }
  change (search_term init "Alphabet Inc.") with "alphabet" in Hrun.
  destruct (select_symbol "alphabet" "Alphabet Inc." (symbol_lookup "alphabet"))
    as [r | e |] eqn:Hsel.
  - exists r, (client_with l'), (record_query w' "alphabet").
    split; [exact Hrun |]. cbn. rewrite Hq. reflexivity.
  - exists None, (client_with l'), (record_query w' "alphabet").
    split; [exact Hrun |]. cbn. rewrite Hq. reflexivity.
  - exfalso. revert Hsel. unfold select_symbol.
    destruct (symbol_lookup "alphabet") as [| [[| r0 rest] |]];
      try discriminate.
    destruct (exact_match _ _ _); [discriminate |].
    destruct (partial_match _ _) as [[s |] | e |] eqn:Hp; try discriminate.
    intros _. revert Hp. generalize (r0 :: rest). intros results.
    induction results as [| r rs IH]; [discriminate |].
    cbn [partial_match].
    destruct (is_common_stock r && us_listing r); [| exact IH].
    unfold overlap_above_half.
    change (size (list_to_set (PyStr.split "alphabet") : gset string) =? 0)%nat
      with false.
    cbn [bind]. destruct (_ <? _)%nat; [discriminate | exact IH].
Qed.

End SymbolResolverClaims.

(** ** Batch orchestration *)

Section ResolutionLoopFacts.

Import ResolutionLoops.

Context {St : Type}.
Variable lookup_symbol : St -> string -> result (option string * St).

Lemma truthy_some (t : string) : truthy (Some t) = true -> t <> "".
Proof.
  cbn. destruct (String.eqb_spec t ""); [discriminate | auto].
Qed.

(** A property every step carries along is carried along by the loop. *)
Lemma fold_left_carries {X : Type} (P : LoopState (St := St) -> Prop)
      (step : result LoopState -> X -> result LoopState) :
  (forall acc x st', step acc x = Ok st' ->
                     exists st, acc = Ok st /\ (P st -> P st')) ->
  forall (l : list X) acc st',
    fold_left step l acc = Ok st' ->
    exists st, acc = Ok st /\ (P st -> P st').
Proof.
  intros Hstep l. induction l as [| x l IH]; intros acc st' Hrun.
  - exists st'. auto.
  - cbn in Hrun. destruct (IH _ _ Hrun) as (st1 & Hacc1 & HP1).
    destruct (Hstep _ _ _ Hacc1) as (st & Hacc & HP).
    exists st. auto.
Qed.

Lemma create_company_only_found acc company st' :
  create_company lookup_symbol acc company = Ok st' ->
  exists st, acc = Ok st /\ (only_found lookup_symbol st -> only_found lookup_symbol st').
Proof.
  unfold create_company. destruct acc as [st | e |]; try discriminate.
  cbn [bind]. intros Hstep. exists st. split; [reflexivity |].
  intros Hinv.
  destruct (built st !! company_name company) eqn:Hseen.
  { inversion Hstep; subst; exact Hinv. }
  destruct (lookup_symbol (client st) (company_name company))
    as [[ticker c'] | e |] eqn:Hlook; try discriminate.
  cbn [bind] in Hstep.
  destruct ticker as [t |]; [| inversion Hstep; subst; exact Hinv].
  destruct (truthy (Some t)) eqn:Htruthy;
    [| inversion Hstep; subst; exact Hinv].
  inversion Hstep; subst; clear Hstep.
  intros n v. cbn [built].
  destruct (decide (company_name company = n)) as [<- | Hne].
  - rewrite lookup_insert_eq. intros [= <-].
    exists t, (client st), c'. auto using truthy_some.
  - rewrite lookup_insert_ne by exact Hne. apply Hinv.
Qed.

Lemma process_unmapped_only_found existing acc company st' :
  process_unmapped lookup_symbol existing acc company = Ok st' ->
  exists st, acc = Ok st /\ (only_found lookup_symbol st -> only_found lookup_symbol st').
Proof.
  unfold process_unmapped. destruct acc as [st | e |]; try discriminate.
  cbn [bind]. intros Hstep. exists st. split; [reflexivity |].
  intros Hinv.
  destruct (existing !! unmapped_name company) eqn:Hseen.
  { inversion Hstep; subst; exact Hinv. }
  destruct (lookup_symbol (client st) (unmapped_name company))
    as [[ticker c'] | e |] eqn:Hlook; try discriminate.
  cbn [bind] in Hstep.
  destruct ticker as [t |]; [| inversion Hstep; subst; exact Hinv].
  destruct (truthy (Some t)) eqn:Htruthy;
    [| inversion Hstep; subst; exact Hinv].
  inversion Hstep; subst; clear Hstep.
  intros n v. cbn [built].
  destruct (decide (unmapped_name company = n)) as [<- | Hne].
  - rewrite lookup_insert_eq. intros [= <-].
    exists t, (client st), c'. auto using truthy_some.
  - rewrite lookup_insert_ne by exact Hne. apply Hinv.
Qed.

Lemma only_found_empty (c : St) :
  only_found lookup_symbol {| built := ∅; client := c; sent := [] |}.
Proof. intros n v. cbn. rewrite lookup_empty. discriminate. Qed.

Lemma create_company_ticker_map_only_found c market_data st' :
  create_company_ticker_map lookup_symbol c market_data = Ok st' ->
  only_found lookup_symbol st'.
Proof.
  intros Hrun. unfold create_company_ticker_map in Hrun.
  eapply (fold_left_carries (only_found lookup_symbol)) in Hrun.
  - destruct Hrun as (st & [= <-] & Hkeep).
    apply Hkeep, only_found_empty.
  - intros acc sector st1. unfold create_sector.
    apply fold_left_carries.
    intros acc' subsector st2. unfold create_subsector.
    apply fold_left_carries. apply create_company_only_found.
Qed.

Lemma process_unmapped_companies_only_found c unmapped existing run :
  process_unmapped_companies lookup_symbol c unmapped existing = Ok run ->
  forall n v, new_mappings run !! n = Some v ->
    exists t c0 c1,
      v = VStr t /\ t <> "" /\ lookup_symbol c0 n = Ok (Some t, c1).
Proof.
  unfold process_unmapped_companies.
  destruct (fold_left _ _ _) as [st | e |] eqn:Hloop; try discriminate.
  cbn [bind]. intros [= <-]. cbn [new_mappings].
  eapply (fold_left_carries (only_found lookup_symbol)) in Hloop.
  - destruct Hloop as (st0 & [= <-] & Hkeep).
    apply Hkeep, only_found_empty.
  - apply process_unmapped_only_found.
Qed.

Lemma process_unmapped_sent existing acc company st' :
  process_unmapped lookup_symbol existing acc company = Ok st' ->
  exists st, acc = Ok st /\
             (sent_unmapped existing st -> sent_unmapped existing st').
Proof.
  unfold process_unmapped. destruct acc as [st | e |]; try discriminate.
  cbn [bind]. intros Hstep. exists st. split; [reflexivity |].
  intros Hinv.
  destruct (existing !! unmapped_name company) eqn:Hseen.
  { inversion Hstep; subst; exact Hinv. }
  destruct (lookup_symbol (client st) (unmapped_name company))
    as [[ticker c'] | e |] eqn:Hlook; try discriminate.
  cbn [bind] in Hstep.
  assert (Hsent : sent st' = (sent st ++ [unmapped_name company])%list).
  { destruct ticker as [t |]; [destruct (truthy (Some t)) |];
      inversion Hstep; reflexivity. }
  intros n. rewrite Hsent, elem_of_app, list_elem_of_singleton.
  intros [Hold | ->]; [apply Hinv, Hold | exact Hseen].
Qed.

Lemma process_unmapped_companies_skips c unmapped existing run :
  process_unmapped_companies lookup_symbol c unmapped existing = Ok run ->
  forall n, is_Some (existing !! n) -> n ∉ resolver_calls run.
Proof.
  unfold process_unmapped_companies.
  destruct (fold_left _ _ _) as [st | e |] eqn:Hloop; try discriminate.
  cbn [bind]. intros [= <-]. cbn [resolver_calls].
  eapply (fold_left_carries (sent_unmapped existing)) in Hloop;
    [| apply process_unmapped_sent].
  destruct Hloop as (st0 & [= <-] & Hkeep).
  intros n [v Hv] Hin.
  assert (Hnone : existing !! n = None).
  { apply Hkeep; [| exact Hin]. intros m Hm. cbn in Hm.
    apply elem_of_nil in Hm. destruct Hm. }
  congruence.
Qed.

End ResolutionLoopFacts.

Section DeterministicResolver.

Import ResolutionLoops.

Context {St : Type}.
Variable lookup_symbol : St -> string -> result (option string * St).

(** The resolver answers by name alone, on every client state it can be
    in. *)
Variable answer : string -> option string.
Variable reachable : St -> Prop.
Hypothesis deterministic :
  forall st n, reachable st ->
    exists st', lookup_symbol st n = Ok (answer n, st') /\ reachable st'.

Variable existing : gmap string MapVal.

Lemma unmapped_loop_deterministic (l : list UnmappedCompany) :
  forall st0, reachable (client st0) ->
    exists st',
      fold_left (process_unmapped lookup_symbol existing) l (Ok st0)
        = Ok st' /\
      reachable (client st') /\
      (forall n, is_Some (built st0 !! n) -> is_Some (built st' !! n)) /\
      (forall co, co ∈ l -> existing !! unmapped_name co = None ->
                  truthy (answer (unmapped_name co)) = true ->
                  is_Some (built st' !! unmapped_name co)) /\
      ((forall co, co ∈ l -> existing !! unmapped_name co = None ->
                   truthy (answer (unmapped_name co)) = false) ->
       built st' = built st0).
Proof.
  induction l as [| co l IH]; intros st0 Hreach.
  - exists st0. cbn. repeat split; auto.
    intros co Hin. apply elem_of_nil in Hin. destruct Hin.
  - cbn [fold_left]. unfold process_unmapped at 2. cbn [bind].
    destruct (existing !! unmapped_name co) as [v |] eqn:Hprior.
    + destruct (IH st0 Hreach) as (st' & Hrun & Hr & Hmono & Hall & Hnone).
      exists st'. repeat split; auto.
      * intros co' Hin Hfree Hans. apply elem_of_cons in Hin.
        destruct Hin as [-> | Hin]; [congruence | auto].
      * intros Hquiet. apply Hnone. intros co' Hin.
        apply Hquiet. apply elem_of_cons. auto.
    + destruct (deterministic (client st0) (unmapped_name co) Hreach)
        as (c' & Hlook & Hreach').
      rewrite Hlook. cbn [bind].
      destruct (answer (unmapped_name co)) as [t |] eqn:Hans.
      * destruct (truthy (Some t)) eqn:Htruthy.
        -- set (st1 := {| built := <[unmapped_name co := VStr t]> (built st0);
                          client := c';
                          sent := (sent st0 ++ [unmapped_name co])%list |}).
           destruct (IH st1 Hreach')
             as (st' & Hrun & Hr & Hmono & Hall & Hnone).
           exists st'. repeat split; auto.
           ++ intros n Hn. apply Hmono. cbn.
              destruct (decide (unmapped_name co = n)) as [<- | Hne].
              ** rewrite lookup_insert_eq. eauto.
              ** rewrite lookup_insert_ne by exact Hne. exact Hn.
           ++ intros co' Hin Hfree Hyes. apply elem_of_cons in Hin.
              destruct Hin as [-> | Hin]; [| auto].
              apply Hmono. cbn. rewrite lookup_insert_eq. eauto.
           ++ intros Hquiet. exfalso.
              specialize (Hquiet co (list_elem_of_here _ _) Hprior).
              rewrite Hans in Hquiet. congruence.
        -- set (st1 := {| built := built st0; client := c';
                          sent := (sent st0 ++ [unmapped_name co])%list |}).
           destruct (IH st1 Hreach')
             as (st' & Hrun & Hr & Hmono & Hall & Hnone).
           exists st'. repeat split; auto.
           ++ intros co' Hin Hfree Hyes. apply elem_of_cons in Hin.
              destruct Hin as [-> | Hin]; [| auto].
              rewrite Hans in Hyes. congruence.
           ++ intros Hquiet. apply Hnone. intros co' Hin.
              apply Hquiet. apply elem_of_cons. auto.
      * set (st1 := {| built := built st0; client := c';
                       sent := (sent st0 ++ [unmapped_name co])%list |}).
        destruct (IH st1 Hreach')
          as (st' & Hrun & Hr & Hmono & Hall & Hnone).
        exists st'. repeat split; auto.
        -- intros co' Hin Hfree Hyes. apply elem_of_cons in Hin.
           destruct Hin as [-> | Hin]; [| auto].
           rewrite Hans in Hyes. discriminate.
        -- intros Hquiet. apply Hnone. intros co' Hin.
           apply Hquiet. apply elem_of_cons. auto.
Qed.

End DeterministicResolver.

Section Idempotence.

Import ResolutionLoops.

Context {St : Type}.
Variable lookup_symbol : St -> string -> result (option string * St).
Variable answer : string -> option string.
Variable reachable : St -> Prop.
Hypothesis deterministic :
  forall st n, reachable st ->
    exists st', lookup_symbol st n = Ok (answer n, st') /\ reachable st'.

Lemma rerun_adds_nothing (c c' : St) (unmapped : list UnmappedCompany)
      (existing : gmap string MapVal) :
  reachable c -> reachable c' ->
  exists run1 run2,
    process_unmapped_companies lookup_symbol c unmapped existing = Ok run1 /\
    process_unmapped_companies lookup_symbol c' unmapped
                               (prior_after existing run1) = Ok run2 /\
    new_mappings run2 = ∅ /\
    updated_mappings run2 = None.
Proof.
  intros Hc Hc'.
  destruct (unmapped_loop_deterministic lookup_symbol answer reachable
              deterministic existing unmapped
              {| built := ∅; client := c; sent := [] |} Hc)
    as (st1 & Hrun1 & _ & _ & Hall1 & _).
  unfold process_unmapped_companies at 1. rewrite Hrun1. cbn [bind].
  set (run1 := {| new_mappings := built st1;
                  updated_mappings :=
                    if decide (built st1 = ∅) then None
                    else Some (built st1 ∪ existing);
                  resolver_calls := sent st1;
                  client_after := client st1 |}).
  exists run1.
  set (prior := prior_after existing run1).
  assert (Hprior : forall n, prior !! n = None ->
                             built st1 !! n = None /\ existing !! n = None).
  { intros n. unfold prior, prior_after, run1. cbn [updated_mappings].
    destruct (decide (built st1 = ∅)) as [Hempty | Hfull];
      unfold default; cbn [from_option id].
    - rewrite Hempty, lookup_empty. auto.
    - rewrite lookup_union_None. auto. }
  destruct (unmapped_loop_deterministic lookup_symbol answer reachable
              deterministic prior unmapped
              {| built := ∅; client := c'; sent := [] |} Hc')
    as (st2 & Hrun2 & _ & _ & _ & Hnone2).
  unfold process_unmapped_companies. rewrite Hrun2. cbn [bind].
  eexists. split; [reflexivity |]. split; [reflexivity |].
  cbn [new_mappings updated_mappings].
  assert (Hbuilt : built st2 = ∅).
  { apply Hnone2. intros co Hin Hfree.
    destruct (Hprior _ Hfree) as [Hunbuilt Hunmapped].
    destruct (truthy (answer (unmapped_name co))) eqn:Hans; [| reflexivity].
    destruct (Hall1 co Hin Hunmapped Hans) as [v Hv]. congruence. }
  rewrite Hbuilt. split; [reflexivity |].
  destruct (decide (∅ = ∅)); [reflexivity | congruence].
Qed.

End Idempotence.

Section FinnhubResolver.

Import Financials.

Lemma partial_match_returns_or_raises (q : string)
      (results : list SearchResult) :
  partial_match q results <> Diverge.
Proof.
  induction results as [| r rest IH]; [discriminate |].
  cbn [partial_match].
  destruct (is_common_stock r && us_listing r); [| exact IH].
  unfold overlap_above_half.
  destruct (_ =? _)%nat; [discriminate |].
  cbn [bind]. destruct (_ <? _)%nat; [discriminate | exact IH].
Qed.

Lemma select_symbol_returns_or_raises (q name : string)
      (response : LookupResponse) :
  select_symbol q name response <> Diverge.
Proof.
  unfold select_symbol.
  destruct response as [| [[| r0 rest] |]]; try discriminate.
  destruct (exact_match _ _ _); [discriminate |].
  pose proof (partial_match_returns_or_raises q (r0 :: rest)) as Hp.
  destruct (partial_match q (r0 :: rest)) as [[s |] | e |];
    cbn [bind]; congruence.
Qed.

Lemma finnhub_resolver_deterministic
      (symbol_lookup : string -> LookupResponse) :
  forall st n, as_built st ->
    exists st', resolver symbol_lookup st n
                = Ok (finnhub_answer symbol_lookup n, st') /\ as_built st'.
Proof.
  intros [[l aliases] w] n Hbuilt. unfold as_built in Hbuilt.
  cbn in Hbuilt. subst aliases.
  destruct (lookup_symbol_runs symbol_lookup l w n)
    as (l' & w' & _ & Hrun).
  unfold resolver. cbn [fst snd].
  change (lookup_symbol symbol_lookup _ w n)
    with (lookup_symbol symbol_lookup (client_with l) w n).
  rewrite Hrun.
  change (search_term (client_with l) n) with (search_term init n).
  unfold finnhub_answer.
  pose proof (select_symbol_returns_or_raises (search_term init n) n
                (symbol_lookup (search_term init n))) as Hsel.
  destruct (select_symbol _ _ _) as [r | e |]; [| | congruence];
    cbn [bind]; eexists; (split; [reflexivity | reflexivity]).
Qed.

End FinnhubResolver.

Section BatchClaims.

Import ResolutionLoops.

(** C4. A name that is a key of the prior mapping is never sent to the
    resolver, whatever the resolver does.  With a resolver that answers by
    name alone, running again on the same names with the mapping the first
    run left behind adds no entry; this holds for the loop of
    [yf_lookup.py] over any such resolver and for the loop of
    [financials.py] over any provider function, and in particular for the
    names ["X"], ["Y"] resolved against the empty mapping. *)
Theorem process_unmapped_companies_idempotent :
  (forall (St : Type)
          (lookup_symbol : St -> string -> result (option string * St))
          (c : St) (unmapped : list UnmappedCompany)
          (existing : gmap string MapVal) (run : UnmappedRun),
      YfLookup.process_unmapped_companies lookup_symbol c unmapped existing
        = Ok run ->
      forall n, is_Some (existing !! n) -> n ∉ resolver_calls run) /\
  (forall (St : Type)
          (lookup_symbol : St -> string -> result (option string * St))
          (answer : string -> option string) (reachable : St -> Prop)
          (c c' : St) (unmapped : list UnmappedCompany)
          (existing : gmap string MapVal),
      (forall st n, reachable st ->
         exists st', lookup_symbol st n = Ok (answer n, st') /\
                     reachable st') ->
      reachable c -> reachable c' ->
      exists run1 run2,
        YfLookup.process_unmapped_companies lookup_symbol c unmapped existing
          = Ok run1 /\
        YfLookup.process_unmapped_companies lookup_symbol c' unmapped
          (prior_after existing run1) = Ok run2 /\
        new_mappings run2 = ∅ /\
        updated_mappings run2 = None) /\
  (forall (symbol_lookup : string -> Financials.LookupResponse)
          (w w' : World) (unmapped : list UnmappedCompany)
          (existing : gmap string MapVal),
      exists run1 run2,
        Financials.process_unmapped_companies symbol_lookup w unmapped
          existing = Ok run1 /\
        Financials.process_unmapped_companies symbol_lookup w' unmapped
          (prior_after existing run1) = Ok run2 /\
        (forall n, is_Some (existing !! n) -> n ∉ resolver_calls run1) /\
        new_mappings run2 = ∅ /\
        updated_mappings run2 = None) /\
  (forall (answer : string -> option string),
      exists run1 run2,
        YfLookup.process_unmapped_companies
          (fun (st : unit) n => Ok (answer n, st)) tt Samples.xy ∅
          = Ok run1 /\
        YfLookup.process_unmapped_companies
          (fun (st : unit) n => Ok (answer n, st)) tt Samples.xy
          (prior_after ∅ run1) = Ok run2 /\
        new_mappings run2 !! "X" = None /\
        new_mappings run2 !! "Y" = None).
Proof.
  split; [| split; [| split]].
  - intros St lookup_symbol c unmapped existing run Hrun.
    exact (process_unmapped_companies_skips lookup_symbol c unmapped
             existing run Hrun).
  - intros St lookup_symbol answer reachable c c' unmapped existing
           Hdet Hc Hc'.
    exact (rerun_adds_nothing lookup_symbol answer reachable Hdet
             c c' unmapped existing Hc Hc').
  - intros symbol_lookup w w' unmapped existing.
    destruct (rerun_adds_nothing (Financials.resolver symbol_lookup)
                (Financials.finnhub_answer symbol_lookup) Financials.as_built
                (finnhub_resolver_deterministic symbol_lookup)
                (Financials.init, w) (Financials.init, w')
                unmapped existing eq_refl eq_refl)
      as (run1 & run2 & Hrun1 & Hrun2 & Hnew & Hupd).
    exists run1, run2. repeat split; try assumption.
    exact (process_unmapped_companies_skips _ _ _ _ _ Hrun1).
  - intros answer.
    destruct (rerun_adds_nothing (fun (st : unit) n => Ok (answer n, st))
                answer (fun _ => True)
                (fun st n _ => ex_intro _ st (conj eq_refl I))
                tt tt Samples.xy ∅ I I)
      as (run1 & run2 & Hrun1 & Hrun2 & Hnew & _).
    exists run1, run2. rewrite Hnew, !lookup_empty. auto.
Qed.

Lemma process_unmapped_companies_idempotent_witness :
  (exists run1 run2,
      YfLookup.process_unmapped_companies Samples.knows_x tt Samples.xy ∅
        = Ok run1 /\
      YfLookup.process_unmapped_companies Samples.knows_x tt Samples.xy
        (prior_after ∅ run1) = Ok run2 /\
      new_mappings run2 = ∅ /\
      updated_mappings run2 = None) /\
  (forall run,
      YfLookup.process_unmapped_companies Samples.knows_x tt Samples.xy
        {[ "Y" := VNull ]} = Ok run ->
      "Y" ∉ resolver_calls run).
Proof.
  split.
  - apply (proj1 (proj2 process_unmapped_companies_idempotent)
             unit Samples.knows_x
             (fun n => if String.eqb n "X" then Some "XXX" else None)
             (fun _ => True) tt tt Samples.xy ∅).
    + intros st n _. exists st. split; [reflexivity | exact I].
    + exact I.
    + exact I.
  - intros run Hrun.
    apply (proj1 process_unmapped_companies_idempotent
             unit Samples.knows_x tt Samples.xy {[ "Y" := VNull ]} run Hrun).
    rewrite lookup_singleton_eq. eauto.
Defined.

End BatchClaims.

Section LoopTotality.

Import ResolutionLoops.

Context {St : Type}.
Variable lookup_symbol : St -> string -> result (option string * St).
Hypothesis lookup_returns :
  forall st n, exists r, lookup_symbol st n = Ok r.

Lemma fold_left_returns {X : Type}
      (step : result (LoopState (St := St)) -> X -> result LoopState) :
  (forall st x, exists st', step (Ok st) x = Ok st') ->
  forall (l : list X) st, exists st', fold_left step l (Ok st) = Ok st'.
Proof.
  intros Hstep l. induction l as [| x l IH]; intros st; [eauto |].
  cbn. destruct (Hstep st x) as (st1 & ->). apply IH.
Qed.

Lemma create_company_returns st company :
  exists st', create_company lookup_symbol (Ok st) company = Ok st'.
Proof.
  unfold create_company. cbn [bind].
  destruct (built st !! company_name company); [eauto |].
  destruct (lookup_returns (client st) (company_name company))
    as ([ticker c'] & ->).
  cbn [bind]. destruct ticker as [t |]; [destruct (truthy _) |]; eauto.
Qed.

Lemma create_company_ticker_map_returns c market_data :
  exists st', create_company_ticker_map lookup_symbol c market_data = Ok st'.
Proof.
  unfold create_company_ticker_map. apply fold_left_returns.
  intros st sector. unfold create_sector. apply fold_left_returns.
  intros st1 subsector. unfold create_subsector. apply fold_left_returns.
  apply create_company_returns.
Qed.

End LoopTotality.

Section NullValueFacts.

Import ProcessMarketData.

Lemma finnhub_resolver_returns
      (symbol_lookup : string -> Financials.LookupResponse) st n :
  exists r, Financials.resolver symbol_lookup st n = Ok r.
Proof.
  destruct st as [self w].
  unfold Financials.resolver, Financials.lookup_symbol,
    Financials._wait_for_rate_limit. cbn [fst snd].
  destruct (wait_for_rate_limit_returns (Financials.limiter self) w)
    as (l' & w' & ->).
  cbn [bind].
  match goal with
  | |- context [Financials.select_symbol ?q ?n ?resp] =>
      pose proof (select_symbol_returns_or_raises q n resp) as Hsel;
      destruct (Financials.select_symbol q n resp)
  end; cbn [bind]; [eauto | eauto | congruence].
Qed.

Lemma add_results_keeps (results : list TickerResult) :
  forall (m : gmap string MapVal) n,
    is_Some (m !! n) -> is_Some (add_results m results !! n).
Proof.
  unfold add_results.
  induction results as [| r rs IH]; intros m n Hn; [exact Hn |].
  cbn [fold_left]. apply IH.
  destruct (decide (result_name r = n)) as [<- | Hne].
  - rewrite lookup_insert_eq. eauto.
  - rewrite lookup_insert_ne by exact Hne. exact Hn.
Qed.

Lemma add_results_inserts (results : list TickerResult) :
  forall (m : gmap string MapVal) r,
    r ∈ results -> is_Some (add_results m results !! result_name r).
Proof.
  induction results as [| r0 rs IH]; intros m r Hin.
  - apply elem_of_nil in Hin. destruct Hin.
  - apply elem_of_cons in Hin. destruct Hin as [-> | Hin].
    + change (add_results m (r0 :: rs))
        with (add_results (<[result_name r0 := json_of_sym (result_sym r0)]> m)
                          rs).
      apply add_results_keeps. rewrite lookup_insert_eq. eauto.
    + change (add_results m (r0 :: rs))
        with (add_results (<[result_name r0 := json_of_sym (result_sym r0)]> m)
                          rs).
      apply IH, Hin.
Qed.

Lemma batches_insert_all
      (get_tickers : list UnmappedCompany -> list TickerResult)
      (bs : list (list UnmappedCompany)) :
  forall (m : gmap string MapVal),
    (forall n, is_Some (m !! n) ->
       is_Some (fold_left (fun m batch => add_results m (get_tickers batch))
                          bs m !! n)) /\
    (forall batch r, batch ∈ bs -> r ∈ get_tickers batch ->
       is_Some (fold_left (fun m batch => add_results m (get_tickers batch))
                          bs m !! result_name r)).
Proof.
  induction bs as [| b bs IH]; intros m.
  - split; [auto |]. intros batch r Hin. apply elem_of_nil in Hin.
    destruct Hin.
  - cbn [fold_left].
    destruct (IH (add_results m (get_tickers b))) as [Hkeep Hall].
    split.
    + intros n Hn. apply Hkeep, add_results_keeps, Hn.
    + intros batch r Hin Hr. apply elem_of_cons in Hin.
      destruct Hin as [-> | Hin]; [| eauto].
      apply Hkeep, add_results_inserts, Hr.
Qed.

(** The value under a name is the symbol of the last result given under
    that name. *)
Lemma add_results_last (results : list TickerResult) (n : string) :
  forall m : gmap string MapVal,
    add_results m results !! n
      = match last (filter (fun r => result_name r = n) results) with
        | Some r => Some (json_of_sym (result_sym r))
        | None => m !! n
        end.
Proof.
  unfold add_results.
  induction results as [| r rs IH] using rev_ind; intros m; [reflexivity |].
  rewrite fold_left_app, filter_app, filter_cons, filter_nil.
  cbn [fold_left].
  destruct (decide (result_name r = n)) as [Heq | Hne].
  - rewrite Heq, lookup_insert_eq, last_snoc. reflexivity.
  - rewrite lookup_insert_ne by exact Hne. rewrite app_nil_r. apply IH.
Qed.

Lemma batches_last
      (get_tickers : list UnmappedCompany -> list TickerResult)
      (bs : list (list UnmappedCompany)) (n : string) :
  forall m : gmap string MapVal,
    fold_left (fun m batch => add_results m (get_tickers batch)) bs m !! n
      = match last (filter (fun r => result_name r = n)
                           (flat_map get_tickers bs)) with
        | Some r => Some (json_of_sym (result_sym r))
        | None => m !! n
        end.
Proof.
  induction bs as [| b bs IH]; intros m; [reflexivity |].
  cbn [fold_left flat_map]. rewrite IH, filter_app, last_app, add_results_last.
  destruct (last (filter _ (flat_map get_tickers bs))); reflexivity.
Qed.

End NullValueFacts.

Section NullValueClaims.

Import ResolutionLoops ProcessMarketData.

(** C10. The loops of [create_company_ticker_map] and
    [process_unmapped_companies], with the yfinance client (any resolver)
    and with the Finnhub client (any provider), write a key only with a
    non-empty ticker string the resolver returned for that name; the
    creation loops return whenever the resolver does.  The Perplexity flow
    inserts a key for every result it gets: the value under a name is the
    symbol of the last result the provider gave under that name, the string
    when it has one and [null] when it has none, and the mapping that is
    saved holds every new entry with that value.  A key with a [null] value
    in the prior mapping is never sent to the resolver by the skip
    check. *)
Theorem null_values_originate_in_perplexity_flow :
  (forall (St : Type)
          (lookup_symbol : St -> string -> result (option string * St))
          (c : St) (market_data : list Sector),
      ((forall st n, exists r, lookup_symbol st n = Ok r) ->
       exists st',
         YfLookup.create_company_ticker_map lookup_symbol c market_data
           = Ok st') /\
      forall st',
        YfLookup.create_company_ticker_map lookup_symbol c market_data
          = Ok st' ->
        forall n v, built st' !! n = Some v ->
          exists t c0 c1,
            v = VStr t /\ t <> "" /\
            lookup_symbol c0 n = Ok (Some t, c1)) /\
  (forall (symbol_lookup : string -> Financials.LookupResponse)
          (w : World) (market_data : list Sector),
      exists st',
        Financials.create_company_ticker_map symbol_lookup w market_data
          = Ok st' /\
        forall n v, built st' !! n = Some v ->
          exists t c0 c1,
            v = VStr t /\ t <> "" /\
            Financials.resolver symbol_lookup c0 n = Ok (Some t, c1)) /\
  (forall (St : Type)
          (lookup_symbol : St -> string -> result (option string * St))
          (c : St) (unmapped : list UnmappedCompany)
          (existing : gmap string MapVal) (run : UnmappedRun),
      YfLookup.process_unmapped_companies lookup_symbol c unmapped existing
        = Ok run ->
      (forall n v, new_mappings run !! n = Some v ->
         exists t c0 c1,
           v = VStr t /\ t <> "" /\
           lookup_symbol c0 n = Ok (Some t, c1)) /\
      (forall n, existing !! n = Some VNull -> n ∉ resolver_calls run)) /\
  (forall (get_tickers : list UnmappedCompany -> list TickerResult)
          (batch_size : Z) (companies : list UnmappedCompany)
          (existing : gmap string MapVal),
      0 < batch_size ->
      exists new_mappings updated,
        process_unmapped_with_perplexity get_tickers batch_size companies
                                         existing
          = Ok (new_mappings, updated) /\
        (forall batch r,
            batch ∈ batches (length companies) (Z.to_nat batch_size)
                            companies ->
            r ∈ get_tickers batch ->
            is_Some (new_mappings !! result_name r)) /\
        (forall n,
            new_mappings !! n
              = (fun r => match result_sym r with
                          | Some sym => VStr sym
                          | None => VNull
                          end)
                  <$> last (filter (fun r => result_name r = n)
                                   (flat_map get_tickers
                                      (batches (length companies)
                                               (Z.to_nat batch_size)
                                               companies)))) /\
        (forall n v,
            new_mappings !! n = Some v ->
            exists merged, updated = Some merged /\ merged !! n = Some v)) /\
  (exists new_mappings updated,
      process_unmapped_with_perplexity Samples.no_ticker 20
                                       [Samples.private_co] ∅
        = Ok (new_mappings, Some updated) /\
      new_mappings !! "Z" = Some VNull /\
      updated !! "Z" = Some VNull).
Proof.
  split; [| split; [| split; [| split]]].
  - intros St lookup_symbol c market_data. split.
    + intros Hret.
      exact (create_company_ticker_map_returns lookup_symbol Hret c
               market_data).
    + intros st' Hrun.
      exact (create_company_ticker_map_only_found lookup_symbol c
               market_data st' Hrun).
  - intros symbol_lookup w market_data.
    destruct (create_company_ticker_map_returns
                (Financials.resolver symbol_lookup)
                (finnhub_resolver_returns symbol_lookup)
                (Financials.init, w) market_data) as (st' & Hrun).
    exists st'. split; [exact Hrun |].
    exact (create_company_ticker_map_only_found _ _ _ _ Hrun).
  - intros St lookup_symbol c unmapped existing run Hrun. split.
    + exact (process_unmapped_companies_only_found lookup_symbol c unmapped
               existing run Hrun).
    + intros n Hnull.
      apply (process_unmapped_companies_skips lookup_symbol c unmapped
               existing run Hrun).
      rewrite Hnull. eauto.
  - intros get_tickers batch_size companies existing Hpos.
    unfold process_unmapped_with_perplexity.
    destruct (Z.eqb_spec batch_size 0) as [-> | _]; [lia |].
    destruct (Z.ltb_spec batch_size 0) as [Hneg | _]; [lia |].
    eexists _, _. split; [reflexivity |]. split; [| split].
    + intros batch r Hbatch Hr.
      exact (proj2 (batches_insert_all get_tickers _ ∅) batch r Hbatch Hr).
    + intros n. rewrite batches_last, lookup_empty.
      destruct (last _) as [r |]; [| reflexivity].
      cbn [fmap option_fmap option_map]. destruct (result_sym r); reflexivity.
    + intros n v Hv.
      match goal with
      | |- context [decide (?new = ∅)] =>
          destruct (decide (new = ∅)) as [Hempty | _]
      end.
      * rewrite Hempty, lookup_empty in Hv. discriminate.
      * eexists. split; [reflexivity |].
        apply lookup_union_Some_l. exact Hv.
  - eexists _, _. split; [reflexivity |].
    split; reflexivity.
Qed.

End NullValueClaims.

(** ** Mapping store: numbered filenames *)

Section FilenameFacts.

Lemma string_to_list_app (s1 s2 : string) :
  list_ascii_of_string (s1 ++ s2)
    = (list_ascii_of_string s1 ++ list_ascii_of_string s2)%list.
Proof.
  induction s1 as [| c s1 IH]; [reflexivity |].
  simpl. rewrite IH. reflexivity.
Qed.

Lemma string_to_list_inj (s1 s2 : string) :
  list_ascii_of_string s1 = list_ascii_of_string s2 -> s1 = s2.
Proof.
  intros Heq.
  rewrite <- (string_of_list_ascii_of_string s1),
          <- (string_of_list_ascii_of_string s2), Heq.
  reflexivity.
Qed.

Lemma string_app_inv_head (p s1 s2 : string) : p ++ s1 = p ++ s2 -> s1 = s2.
Proof.
  intros Heq. apply string_to_list_inj.
  apply (f_equal list_ascii_of_string) in Heq.
  rewrite !string_to_list_app in Heq.
  exact (app_inv_head _ _ _ Heq).
Qed.

Lemma string_app_inv_tail (s1 s2 e : string) : s1 ++ e = s2 ++ e -> s1 = s2.
Proof.
  intros Heq. apply string_to_list_inj.
  apply (f_equal list_ascii_of_string) in Heq.
  rewrite !string_to_list_app in Heq.
  exact (app_inv_tail _ _ _ Heq).
Qed.

Variables name ext : string.

Local Abbreviation candidate := (MappingStoreSpec.candidate name ext).

(** Distinct counters give distinct names. *)
Lemma candidate_inj (j k : nat) : candidate j = candidate k -> j = k.
Proof.
  unfold candidate. intros Heq.
  apply string_app_inv_head in Heq.
  apply (string_app_inv_head "_") in Heq.
  apply string_app_inv_tail in Heq.
  exact (pretty_nat_inj _ _ Heq).
Qed.

Lemma candidates_NoDup (k n : nat) : NoDup (candidate <$> seq k n).
Proof.
  apply NoDup_fmap_2; [| apply NoDup_seq].
  intros i j. apply candidate_inj.
Qed.

(** Among more candidates than there are files, one is free. *)
Lemma some_candidate_free (D : gset string) (k : nat) :
  exists j, (k <= j < k + S (size D))%nat /\ candidate j ∉ D.
Proof.
  destruct (decide (Exists (fun j => candidate j ∉ D) (seq k (S (size D)))))
    as [Hfree | Hfull].
  - apply Exists_exists in Hfree. destruct Hfree as (j & Hin & Hj).
    exists j. split; [| exact Hj].
    apply elem_of_seq. exact Hin.
  - exfalso.
    apply (not_Exists_Forall _) in Hfull.
    assert (Hsub : (list_to_set (candidate <$> seq k (S (size D))) : gset string)
                     ⊆ D).
    { intros p Hp. apply elem_of_list_to_set in Hp.
      apply list_elem_of_fmap in Hp. destruct Hp as (j & -> & Hj).
      rewrite Forall_forall in Hfull.
      specialize (Hfull j Hj).
      cbn in Hfull. destruct (decide (candidate j ∈ D)); tauto. }
    apply subseteq_size in Hsub.
    rewrite size_list_to_set in Hsub by apply candidates_NoDup.
    rewrite length_fmap, length_seq in Hsub. lia.
Qed.

Variable w : World.

Lemma path_exists_true (p : string) :
  path_exists w p = true <-> p ∈ dom (files w).
Proof.
  unfold path_exists. rewrite bool_decide_eq_true, elem_of_dom. tauto.
Qed.

Lemma path_exists_false (p : string) :
  path_exists w p = false <-> p ∉ dom (files w).
Proof.
  unfold path_exists. rewrite bool_decide_eq_false, elem_of_dom. tauto.
Qed.

(** The loop returns the first free candidate if its fuel reaches one. *)
Lemma next_numbered_first_free (fuel : nat) :
  forall k j,
    (k <= j < k + fuel)%nat -> candidate j ∉ dom (files w) ->
    exists j',
      (k <= j' <= j)%nat /\
      FileUtils.next_numbered fuel w name ext k = Ok (candidate j') /\
      (candidate j' ∉ dom (files w)) /\
      (forall i, (k <= i < j')%nat -> candidate i ∈ dom (files w)).
Proof.
  induction fuel as [| fuel IH]; intros k j Hrange Hfree; [lia |].
  cbn [FileUtils.next_numbered]. fold (candidate k).
  destruct (path_exists w (candidate k)) eqn:Hk; cbn [negb].
  - apply path_exists_true in Hk.
    assert (Hne : j <> k) by (intros ->; contradiction).
    destruct (IH (S k) j ltac:(lia) Hfree) as (j' & Hj' & Hrun & Hnew & Hall).
    exists j'. split; [lia |]. split; [exact Hrun |].
    split; [exact Hnew |].
    intros i Hi. destruct (decide (i = k)) as [-> | Hik]; [exact Hk |].
    apply Hall. lia.
  - apply path_exists_false in Hk.
    exists k. split; [lia |]. split; [reflexivity |].
    split; [exact Hk |].
    intros i Hi. lia.
Qed.

Lemma yf_next_numbered_same (fuel k : nat) :
  YfLookup.next_numbered fuel w name ext k
    = FileUtils.next_numbered fuel w name ext k.
Proof.
  revert k. induction fuel as [| fuel IH]; intros k; [reflexivity |].
  cbn. rewrite IH. reflexivity.
Qed.

End FilenameFacts.

Section MappingStoreClaims.

Import MappingStoreSpec.

Lemma get_next_available_filename_first_free (w : World) (base : string) :
  exists k,
    (1 <= k)%nat /\
    FileUtils.get_next_available_filename w base = Ok (numbered base k) /\
    (numbered base k ∉ dom (files w)) /\
    (forall i, (1 <= i < k)%nat -> numbered base i ∈ dom (files w)).
Proof.
  unfold FileUtils.get_next_available_filename.
  destruct (path_exists w base) eqn:Hbase; cbn [negb].
  - apply path_exists_true in Hbase.
    destruct (OsPath.splitext base) as [name ext] eqn:Hsplit.
    destruct (some_candidate_free name ext (dom (files w)) 2)
      as (j & Hj & Hfree).
    rewrite size_dom in Hj.
    destruct (next_numbered_first_free name ext w (S (size (files w))) 2 j
                Hj Hfree) as (j' & Hj' & Hrun & Hnew & Hall).
    assert (Hnum : forall i, (2 <= i)%nat ->
                             numbered base i = candidate name ext i).
    { intros i Hi. unfold numbered.
      destruct (Nat.eqb_spec i 1); [lia |]. rewrite Hsplit. reflexivity. }
    exists j'. split; [lia |].
    rewrite (Hnum j') by lia. split; [exact Hrun |]. split; [exact Hnew |].
    intros i Hi. destruct (decide (i = 1%nat)) as [-> | Hne].
    + exact Hbase.
    + rewrite Hnum by lia. apply Hall. lia.
  - apply path_exists_false in Hbase.
    exists 1%nat. split; [lia |]. split; [reflexivity |].
    split; [exact Hbase |]. intros i Hi. lia.
Qed.

Lemma yf_get_next_available_filename_same (w : World) (base : string) :
  YfLookup.get_next_available_filename w base
    = FileUtils.get_next_available_filename w base.
Proof.
  unfold YfLookup.get_next_available_filename,
    FileUtils.get_next_available_filename.
  destruct (negb (path_exists w base)); [reflexivity |].
  destruct (OsPath.splitext base). apply yf_next_numbered_same.
Qed.

Lemma write_file_fresh (w : World) (p : string) (b : FileBody) :
  p ∉ dom (files w) ->
  (forall q, is_Some (files w !! q) ->
             files (write_file w p b) !! q = files w !! q) /\
  (forall q, q <> p -> files (write_file w p b) !! q = files w !! q) /\
  files (write_file w p b) !! p = Some {| mtime := clock w; body := b |}.
Proof.
  intros Hfresh. cbn [write_file files]. split; [| split].
  - intros q Hq. apply lookup_insert_ne. intros ->.
    apply Hfresh, elem_of_dom, Hq.
  - intros q Hq. apply lookup_insert_ne. congruence.
  - apply lookup_insert_eq.
Qed.

Lemma save_mappings_next (w : World) (mappings : list (string * MapVal))
      (metadata : gmap string MetaVal) (base : string) :
  exists k w',
    FileUtils.save_mappings w mappings metadata base
      = Ok (w', numbered base k) /\
    saved_as_next w w' base k
      (MappingArtifact
         (<["total_companies" := MNum (FileUtils.get_total_companies w)]>
            metadata)
         mappings).
Proof.
  destruct (get_next_available_filename_first_free w base)
    as (k & Hk & Hrun & Hnew & Hall).
  unfold FileUtils.save_mappings. rewrite Hrun. cbn [bind].
  eexists k, _. split; [reflexivity |].
  destruct (write_file_fresh w (numbered base k)
              (MappingArtifact
                 (<["total_companies" :=
                      MNum (FileUtils.get_total_companies w)]> metadata)
                 mappings) Hnew) as (Hold & Hrest & Hfile).
  split; [exact Hk |]. split; [apply not_elem_of_dom, Hnew |].
  split; [intros i Hi; apply elem_of_dom, Hall, Hi |].
  split; [exact Hold |]. split; [exact Hrest | exact Hfile].
Qed.

Lemma yf_save_mappings_next (w : World) (mappings : list (string * MapVal))
      (metadata : gmap string MetaVal) (base : string) :
  exists k w',
    YfLookup.save_mappings w mappings metadata base
      = Ok (w', numbered base k) /\
    saved_as_next w w' base k (MappingArtifact metadata mappings).
Proof.
  destruct (get_next_available_filename_first_free w base)
    as (k & Hk & Hrun & Hnew & Hall).
  unfold YfLookup.save_mappings.
  rewrite yf_get_next_available_filename_same, Hrun. cbn [bind].
  eexists k, _. split; [reflexivity |].
  destruct (write_file_fresh w (numbered base k)
              (MappingArtifact metadata mappings) Hnew)
    as (Hold & Hrest & Hfile).
  split; [exact Hk |]. split; [apply not_elem_of_dom, Hnew |].
  split; [intros i Hi; apply elem_of_dom, Hall, Hi |].
  split; [exact Hold |]. split; [exact Hrest | exact Hfile].
Qed.

(** The position in the sequence is fixed by which names are taken. *)
Lemma saved_as_next_position (w w' : World) (base : string) (k n : nat)
      (b : FileBody) :
  saved_as_next w w' base k b ->
  (1 <= n)%nat ->
  (forall i, (1 <= i < n)%nat -> is_Some (files w !! numbered base i)) ->
  files w !! numbered base n = None ->
  k = n.
Proof.
  intros (Hk & Hfree & Hall & _) Hn Htaken Hnfree.
  destruct (Nat.lt_trichotomy k n) as [Hlt | [Heq | Hgt]]; [| exact Heq |].
  - destruct (Htaken k ltac:(lia)) as [f Hf]. congruence.
  - destruct (Hall n ltac:(lia)) as [f Hf]. congruence.
Qed.

(** C5. [save_mappings], in [file_utils.py] and in [yf_lookup.py], writes
    to the first name of the sequence base, base_2, base_3, ... that does
    not exist; the name it writes to did not exist before and every file
    that did is left as it was.  When [company_ticker_map.json] exists and
    the next two names are free, a save produces
    [company_ticker_map_2.json] and a second save
    [company_ticker_map_3.json]. *)
Theorem save_mappings_writes_first_free_name :
  (forall (w : World) (mappings : list (string * MapVal))
          (metadata : gmap string MetaVal) (base : string),
      (exists k w' b,
          FileUtils.save_mappings w mappings metadata base
            = Ok (w', numbered base k) /\
          saved_as_next w w' base k b) /\
      (exists k w' b,
          YfLookup.save_mappings w mappings metadata base
            = Ok (w', numbered base k) /\
          saved_as_next w w' base k b)) /\
  (forall (w : World) (m1 m2 : list (string * MapVal))
          (md1 md2 : gmap string MetaVal),
      is_Some (files w !! "company_ticker_map.json") ->
      files w !! "company_ticker_map_2.json" = None ->
      files w !! "company_ticker_map_3.json" = None ->
      exists w1 w2,
        FileUtils.save_mappings w m1 md1 "company_ticker_map.json"
          = Ok (w1, "company_ticker_map_2.json") /\
        FileUtils.save_mappings w1 m2 md2 "company_ticker_map.json"
          = Ok (w2, "company_ticker_map_3.json") /\
        (forall p, is_Some (files w !! p) ->
                   files w2 !! p = files w !! p)).
Proof.
  split.
  - intros w mappings metadata base. split.
    + destruct (save_mappings_next w mappings metadata base)
        as (k & w' & Hrun & Hsaved). eauto.
    + destruct (yf_save_mappings_next w mappings metadata base)
        as (k & w' & Hrun & Hsaved). eauto.
  - intros w m1 m2 md1 md2 Hbase Hsecond Hthird.
    set (base := "company_ticker_map.json").
    assert (Hn1 : numbered base 1 = "company_ticker_map.json")
      by reflexivity.
    assert (Hn2 : numbered base 2 = "company_ticker_map_2.json")
      by reflexivity.
    assert (Hn3 : numbered base 3 = "company_ticker_map_3.json")
      by reflexivity.
    destruct (save_mappings_next w m1 md1 base)
      as (k1 & w1 & Hrun1 & Hsaved1).
    assert (Hk1 : k1 = 2%nat).
    { apply (saved_as_next_position _ _ _ _ _ _ Hsaved1); [lia | |].
      - intros i Hi. replace i with 1%nat by lia. rewrite Hn1. exact Hbase.
      - rewrite Hn2. exact Hsecond. }
    subst k1. rewrite Hn2 in Hrun1.
    destruct Hsaved1 as (_ & _ & _ & Hold1 & Hrest1 & Hnew1).
    rewrite Hn2 in Hnew1, Hrest1.
    destruct (save_mappings_next w1 m2 md2 base)
      as (k2 & w2 & Hrun2 & Hsaved2).
    assert (Hthird1 : files w1 !! "company_ticker_map_3.json" = None).
    { rewrite Hrest1 by discriminate. exact Hthird. }
    assert (Hk2 : k2 = 3%nat).
    { apply (saved_as_next_position _ _ _ _ _ _ Hsaved2); [lia | |].
      - intros i Hi. assert (i = 1 \/ i = 2)%nat as [-> | ->] by lia.
        + rewrite Hn1, (Hold1 _ Hbase). exact Hbase.
        + rewrite Hn2, Hnew1. eauto.
      - rewrite Hn3. exact Hthird1. }
    subst k2. rewrite Hn3 in Hrun2.
    destruct Hsaved2 as (_ & _ & _ & Hold2 & _ & _).
    exists w1, w2. split; [exact Hrun1 |]. split; [exact Hrun2 |].
    intros p Hp. rewrite Hold2; [apply Hold1, Hp |].
    rewrite (Hold1 _ Hp). exact Hp.
Qed.

Lemma save_mappings_writes_first_free_name_witness :
  exists w1 w2,
    FileUtils.save_mappings Samples.first_artifact [] ∅
                            "company_ticker_map.json"
      = Ok (w1, "company_ticker_map_2.json") /\
    FileUtils.save_mappings w1 [] ∅ "company_ticker_map.json"
      = Ok (w2, "company_ticker_map_3.json") /\
    (forall p, is_Some (files Samples.first_artifact !! p) ->
               files w2 !! p = files Samples.first_artifact !! p).
Proof.
  apply (proj2 save_mappings_writes_first_free_name
           Samples.first_artifact [] [] ∅ ∅).
  - cbn. rewrite lookup_singleton_eq. eauto.
  - cbn. apply lookup_singleton_ne. discriminate.
  - cbn. apply lookup_singleton_ne. discriminate.
Defined.

(** C9. [file_utils.save_mappings] overrides ["total_companies"] with the
    count read from the taxonomy file; the [save_mappings] of
    [yf_lookup.py] writes the caller's metadata as it stands: over a
    taxonomy of three companies a caller-supplied total of 5 is saved as
    5. *)
Theorem yf_save_mappings_keeps_caller_total :
  (forall (w : World) (mappings : list (string * MapVal))
          (metadata : gmap string MetaVal) (base : string),
      exists w' f md' t,
        FileUtils.save_mappings w mappings metadata base = Ok (w', f) /\
        files w' !! f
          = Some {| mtime := t; body := MappingArtifact md' mappings |} /\
        md' !! "total_companies"
          = Some (MNum (FileUtils.get_total_companies w))) /\
  FileUtils.get_total_companies Samples.with_taxonomy = 3 /\
  (exists w' md' t,
      FileUtils.save_mappings Samples.with_taxonomy [("A", VStr "TIK")]
                              {[ "total_companies" := MNum 5 ]}
                              "company_ticker_map.json"
        = Ok (w', "company_ticker_map.json") /\
      files w' !! "company_ticker_map.json"
        = Some {| mtime := t;
                  body := MappingArtifact md' [("A", VStr "TIK")] |} /\
      md' !! "total_companies" = Some (MNum 3)) /\
  (exists w' md' t,
      YfLookup.save_mappings Samples.with_taxonomy [("A", VStr "TIK")]
                             {[ "total_companies" := MNum 5 ]}
                             "company_ticker_map.json"
        = Ok (w', "company_ticker_map.json") /\
      files w' !! "company_ticker_map.json"
        = Some {| mtime := t;
                  body := MappingArtifact md' [("A", VStr "TIK")] |} /\
      md' !! "total_companies" = Some (MNum 5)).
Proof.
  split; [| split; [reflexivity | split]].
  - intros w mappings metadata base.
    destruct (save_mappings_next w mappings metadata base)
      as (k & w' & Hrun & (_ & _ & _ & _ & _ & Hfile)).
    eexists w', _, _, _. split; [exact Hrun |]. split; [exact Hfile |].
    apply lookup_insert_eq.
  - eexists _, _, _. split; [reflexivity |].
    split; [reflexivity | reflexivity].
  - eexists _, _, _. split; [reflexivity |].
    split; [reflexivity | reflexivity].
Qed.

End MappingStoreClaims.


(** ** Duplicate tickers *)

Section DuplicateFacts.

Import Utils DuplicateSpec.

Lemma sharing_snoc (m : list (string * option string)) (c : string)
      (t : option string) (ticker : string) :
  sharing (m ++ [(c, t)]) ticker
    = (sharing m ticker ++ if decide (t = Some ticker) then [c] else [])%list.
Proof.
  unfold sharing. rewrite filter_app, map_app. f_equal.
  rewrite filter_cons, filter_nil. cbn [snd].
  destruct (decide (t = Some ticker)); reflexivity.
Qed.

Lemma legacy_snoc (m : list (string * option string)) (c : string)
      (t : option string) :
  legacy (m ++ [(c, t)])
    = (legacy m ++ [(c, match t with Some s => VStr s | None => VNull end)])%list.
Proof. unfold legacy. rewrite map_app. reflexivity. Qed.

(** Grouping a legacy mapping never raises and collects, per ticker, all
    of its companies. *)
Lemma group_by_ticker_sharing (m : list (string * option string)) :
  exists t2c,
    group_by_ticker (legacy m) = Ok t2c /\
    forall ticker, t2c !! ticker = nonempty (sharing m ticker).
Proof.
  induction m as [| [c t] m IH] using rev_ind.
  - exists ∅. split; [reflexivity |]. intros ticker. apply lookup_empty.
  - destruct IH as (t2c & Hrun & Hall).
    unfold group_by_ticker in *.
    rewrite legacy_snoc, fold_left_app, Hrun. cbn [fold_left].
    unfold group_company. cbn [bind snd fst].
    destruct t as [s |].
    + eexists. split; [reflexivity |]. intros ticker.
      rewrite sharing_snoc.
      destruct (decide (s = ticker)) as [-> | Hne].
      * rewrite lookup_insert_eq, Hall, decide_True by reflexivity.
        destruct (sharing m ticker); reflexivity.
      * rewrite lookup_insert_ne by exact Hne.
        rewrite decide_False by congruence.
        rewrite app_nil_r. apply Hall.
    + exists t2c. split; [reflexivity |]. intros ticker.
      rewrite sharing_snoc, decide_False by discriminate.
      rewrite app_nil_r. apply Hall.
Qed.

Lemma find_duplicates_lookup (t2c : gmap string (list string))
      (ticker : string) (cs : list string) :
  find_duplicates t2c !! ticker = Some cs <->
  t2c !! ticker = Some cs /\ (1 < length cs)%nat.
Proof. unfold find_duplicates. apply map_lookup_filter_Some. Qed.

Lemma duplicates_sharing (m : list (string * option string))
      (t2c : gmap string (list string)) :
  (forall ticker, t2c !! ticker = nonempty (sharing m ticker)) ->
  forall ticker cs,
    find_duplicates t2c !! ticker = Some cs <->
    cs = sharing m ticker /\ (1 < length cs)%nat.
Proof.
  intros Hall ticker cs. rewrite find_duplicates_lookup, Hall.
  split.
  - intros [Hcs Hlen]. split; [| exact Hlen].
    destruct (sharing m ticker); [discriminate |].
    cbn in Hcs. congruence.
  - intros [-> Hlen]. split; [| exact Hlen].
    destruct (sharing m ticker); [cbn in Hlen; lia | reflexivity].
Qed.

Lemma dict_get_set {V : Type} (d : list (string * V)) (k k' : string)
      (v : V) :
  PyDict.get (PyDict.set d k v) k'
    = if decide (k = k') then Some v else PyDict.get d k'.
Proof.
  induction d as [| [k0 v0] d IH]; cbn [PyDict.set PyDict.get].
  - destruct (String.eqb_spec k k'), (decide (k = k')); congruence.
  - destruct (String.eqb_spec k0 k) as [-> | Hk0].
    + cbn [PyDict.get].
      destruct (String.eqb_spec k k'), (decide (k = k')); congruence.
    + cbn [PyDict.get]. rewrite IH.
      destruct (String.eqb_spec k0 k'), (decide (k = k')); congruence.
Qed.

(** The entry [annotate] writes for one item. *)
Lemma annotate_company_entry (m : list (string * option string))
      (t2c : gmap string (list string)) (d : list (string * MapVal))
      (c : string) (t : option string) :
  (forall ticker, t2c !! ticker = nonempty (sharing m ticker)) ->
  annotate_company (find_duplicates t2c) d
                   (c, match t with Some s => VStr s | None => VNull end)
    = PyDict.set d c (VObj t (note m c t)).
Proof.
  intros Hall. unfold annotate_company, note. cbn [fst snd].
  destruct t as [s |]; cbn [sym_of mbind option_bind]; [| reflexivity].
  pose proof (duplicates_sharing m t2c Hall s) as Hdup.
  destruct (find_duplicates t2c !! s) as [cs |] eqn:Hlook.
  - destruct (proj1 (Hdup cs) eq_refl) as [-> Hlen].
    destruct (Nat.ltb_spec 1 (length (sharing m s))); [reflexivity | lia].
  - destruct (Nat.ltb_spec 1 (length (sharing m s))) as [Hlen |];
      [| reflexivity].
    pose proof (proj2 (Hdup (sharing m s)) (conj eq_refl Hlen)). congruence.
Qed.

Lemma annotate_lookup (m0 : list (string * option string))
      (t2c : gmap string (list string)) :
  (forall ticker, t2c !! ticker = nonempty (sharing m0 ticker)) ->
  forall m : list (string * option string),
    NoDup (map fst m) ->
    forall c t, (c, t) ∈ m ->
      PyDict.get (annotate (find_duplicates t2c) (legacy m)) c
        = Some (VObj t (note m0 c t)).
Proof.
  intros Hall m. unfold annotate.
  induction m as [| [c0 t0] m IH] using rev_ind; intros Hnodup c t Hin.
  - apply elem_of_nil in Hin. destruct Hin.
  - rewrite legacy_snoc, fold_left_app. cbn [fold_left].
    rewrite (annotate_company_entry m0 t2c _ c0 t0 Hall), dict_get_set.
    rewrite map_app in Hnodup. cbn [map fst] in Hnodup.
    apply NoDup_app in Hnodup. destruct Hnodup as (Hm & Hfresh & _).
    apply elem_of_app in Hin. destruct Hin as [Hin | Hin].
    + destruct (decide (c0 = c)) as [-> | Hne].
      * exfalso. apply (Hfresh c); [| apply list_elem_of_singleton; reflexivity].
        apply list_elem_of_In, in_map_iff. exists (c, t).
        split; [reflexivity | apply list_elem_of_In, Hin].
      * apply IH; assumption.
    + apply list_elem_of_singleton in Hin. inversion Hin; subst.
      rewrite decide_True by reflexivity. reflexivity.
Qed.

Lemma group_company_raised (l : list (string * MapVal)) (e : exn) :
  fold_left group_company l (Raise e) = Raise e.
Proof. induction l as [| x l IH]; [reflexivity | exact IH]. Qed.

(** Whatever precedes and follows it, an object value makes the grouping
    raise [TypeError]. *)
Lemma group_by_ticker_object (pre post : list (string * MapVal))
      (c : string) (sym notes : option string) :
  group_by_ticker (pre ++ (c, VObj sym notes) :: post) = Raise TypeError.
Proof.
  unfold group_by_ticker. generalize (∅ : gmap string (list string)).
  induction pre as [| [c0 v0] pre IH]; intros acc; cbn [app fold_left].
  - cbn. apply group_company_raised.
  - unfold group_company at 2. cbn [bind snd fst].
    destruct v0; [apply IH | apply IH | apply group_company_raised].
Qed.

End DuplicateFacts.

Section DuplicateClaims.

Import Utils DuplicateSpec.

(** C7. For a latest artifact whose values are strings or [null],
    [clean_duplicate_tickers] reports as duplicates exactly the tickers
    with more than one company, each with the complete list of its
    companies; when there is one, it saves under a name that did not
    exist, leaving every existing file as it was, an annotated mapping in
    which each company of a shared ticker carries a note listing the other
    companies of that ticker and every other company carries a [null]
    note.  For A and B on TIK and C on OTH the duplicates are
    [{"TIK": ["A", "B"]}], A's note names B, B's names A, C's is [null]. *)
Theorem clean_duplicate_tickers_annotates_shared_tickers :
  (forall (w : World) (latest : string) (md : gmap string MetaVal)
          (m : list (string * option string)) (total : Z),
      FileUtils.get_latest_mapping_file w
        = (Some latest, Some (MappingArtifact md (legacy m))) ->
      NoDup (map fst m) ->
      read_taxonomy_total w = Ok total ->
      (exists ticker, (1 < length (sharing m ticker))%nat) ->
      exists w' output_file duplicates meta annotated,
        clean_duplicate_tickers w
          = Ok (w', Cleaned duplicates output_file) /\
        (forall ticker cs,
            duplicates !! ticker = Some cs <->
            cs = sharing m ticker /\ (1 < length cs)%nat) /\
        files w !! output_file = None /\
        files w' !! output_file
          = Some {| mtime := clock w;
                    body := MappingArtifact meta annotated |} /\
        (forall p, is_Some (files w !! p) ->
                   files w' !! p = files w !! p) /\
        (forall c t, (c, t) ∈ m ->
                     PyDict.get annotated c = Some (VObj t (note m c t)))) /\
  match clean_duplicate_tickers Samples.tik_dir with
  | Ok (w', Cleaned duplicates output_file) =>
      duplicates = {[ "TIK" := ["A"; "B"] ]} /\
      output_file = "company_ticker_map_2.json" /\
      (body <$> files w' !! output_file)
        = Some (MappingArtifact
                  (<["mapped_companies" := MNum 2]>
                   (<["total_companies" := MNum 3]>
                    (<["original_file" := MStr "company_ticker_map.json"]>
                     (<["source" := MStr "duplicate_cleanup"]> ∅))))
                  [ ("A", VObj (Some "TIK")
                               (Some "Duplicate ticker used by: B"));
                    ("B", VObj (Some "TIK")
                               (Some "Duplicate ticker used by: A"));
                    ("C", VObj (Some "OTH") None) ]) /\
      files w' !! "company_ticker_map.json"
        = files Samples.tik_dir !! "company_ticker_map.json"
  | _ => False
  end.
Proof.
  split.
  - intros w latest md m total Hlatest Hnodup Htotal [shared Hshared].
    unfold clean_duplicate_tickers. rewrite Hlatest, Htotal. cbn [bind].
    destruct (group_by_ticker_sharing m) as (t2c & Hgroup & Hall).
    rewrite Hgroup. cbn [bind].
    pose proof (duplicates_sharing m t2c Hall) as Hdup.
    destruct (decide (find_duplicates t2c = ∅)) as [Hnone | _].
    { exfalso.
      pose proof (proj2 (Hdup shared (sharing m shared))
                        (conj eq_refl Hshared)) as Hfound.
      rewrite Hnone, lookup_empty in Hfound. discriminate. }
    match goal with
    | |- context [FileUtils.save_mappings w ?nm ?meta ?base] =>
        destruct (save_mappings_next w nm meta base)
          as (k & w' & Hrun & (_ & Hfree & _ & Hold & _ & Hfile));
        rewrite Hrun
    end.
    cbn [bind].
    eexists w', _, _, _, _. split; [reflexivity |].
    split; [exact Hdup |]. split; [exact Hfree |]. split; [exact Hfile |].
    split; [exact Hold |].
    intros c t Hin. exact (annotate_lookup m t2c Hall m Hnodup c t Hin).
  - vm_compute. repeat split; reflexivity.
Qed.

Lemma clean_duplicate_tickers_annotates_shared_tickers_witness :
  exists w' output_file duplicates meta annotated,
    clean_duplicate_tickers Samples.tik_dir
      = Ok (w', Cleaned duplicates output_file) /\
    (forall ticker cs,
        duplicates !! ticker = Some cs <->
        cs = sharing Samples.tik_mapping ticker /\ (1 < length cs)%nat) /\
    files Samples.tik_dir !! output_file = None /\
    files w' !! output_file
      = Some {| mtime := clock Samples.tik_dir;
                body := MappingArtifact meta annotated |} /\
    (forall p, is_Some (files Samples.tik_dir !! p) ->
               files w' !! p = files Samples.tik_dir !! p) /\
    (forall c t, (c, t) ∈ Samples.tik_mapping ->
                 PyDict.get annotated c
                   = Some (VObj t (note Samples.tik_mapping c t))).
Proof.
  destruct clean_duplicate_tickers_annotates_shared_tickers as [Hall _].
  apply (Hall Samples.tik_dir "company_ticker_map.json" ∅
              Samples.tik_mapping 3).
  - vm_compute. reflexivity.
  - apply (bool_decide_unpack _). vm_compute. exact I.
  - vm_compute. reflexivity.
  - exists "TIK". vm_compute. lia.
Defined.

(** C8. The symbol collection of [fetch_all_company_profiles] and that of
    [count_unique_tickers] read a plain string and an object with the same
    symbol alike.  [clean_duplicate_tickers] uses the value itself as a
    dictionary key: any object value makes it raise [TypeError], as it does
    on the artifact its own previous run has written, which the other two
    read without error. *)
Theorem clean_duplicate_tickers_rejects_object_values :
  (forall (pre : list (string * MapVal)) (c s : string)
          (notes : option string),
      CompanyInfo.collect_symbols (pre ++ [(c, VObj (Some s) notes)])
        = CompanyInfo.collect_symbols (pre ++ [(c, VStr s)]) /\
      ticker_symbols (pre ++ [(c, VObj (Some s) notes)])
        = ticker_symbols (pre ++ [(c, VStr s)]) /\
      s ∈ ticker_symbols (pre ++ [(c, VStr s)])) /\
  (forall (pre post : list (string * MapVal)) (c : string)
          (sym notes : option string),
      group_by_ticker (pre ++ (c, VObj sym notes) :: post)
        = Raise TypeError) /\
  match FileUtils.get_latest_mapping_file Samples.tik_dir_cleaned with
  | (Some latest, Some (MappingArtifact _ mappings)) =>
      latest = "company_ticker_map_2.json" /\
      mappings = [ ("A", VObj (Some "TIK")
                              (Some "Duplicate ticker used by: B"));
                   ("B", VObj (Some "TIK")
                              (Some "Duplicate ticker used by: A"));
                   ("C", VObj (Some "OTH") None) ] /\
      CompanyInfo.collect_symbols mappings = {[ "TIK"; "OTH" ]}
  | _ => False
  end /\
  count_unique_tickers Samples.tik_dir_cleaned = 2%nat /\
  clean_duplicate_tickers Samples.tik_dir_cleaned = Raise TypeError.
Proof.
  split; [| split; [| split; [| split]]].
  - intros pre c s notes.
    unfold CompanyInfo.collect_symbols, ticker_symbols.
    rewrite !fold_left_app. cbn [fold_left].
    split; [reflexivity |]. split; [reflexivity |]. set_solver.
  - apply group_by_ticker_object.
  - vm_compute. repeat split; reflexivity.
  - vm_compute. reflexivity.
  - vm_compute. reflexivity.
Qed.

End DuplicateClaims.

Section NullValueWitness.

Import ResolutionLoops ProcessMarketData.

Lemma null_values_originate_in_perplexity_flow_witness :
  (exists st',
      YfLookup.create_company_ticker_map Samples.knows_x tt
                                         Samples.three_companies = Ok st') /\
  (forall run,
      YfLookup.process_unmapped_companies Samples.knows_x tt Samples.xy
        {[ "Y" := VNull ]} = Ok run ->
      (forall n v, new_mappings run !! n = Some v ->
         exists t c0 c1,
           v = VStr t /\ t <> "" /\
           Samples.knows_x c0 n = Ok (Some t, c1)) /\
      (forall n, ({[ "Y" := VNull ]} : gmap string MapVal) !! n = Some VNull ->
                 n ∉ resolver_calls run)) /\
  (exists new_mappings updated,
      process_unmapped_with_perplexity Samples.no_ticker 20
                                       [Samples.private_co] ∅
        = Ok (new_mappings, updated) /\
      (forall batch r,
          batch ∈ batches (length [Samples.private_co]) (Z.to_nat 20)
                          [Samples.private_co] ->
          r ∈ Samples.no_ticker batch ->
          is_Some (new_mappings !! result_name r)) /\
      (forall n,
          new_mappings !! n
            = (fun r => match result_sym r with
                        | Some sym => VStr sym
                        | None => VNull
                        end)
                <$> last (filter (fun r => result_name r = n)
                                 (flat_map Samples.no_ticker
                                    (batches (length [Samples.private_co])
                                             (Z.to_nat 20)
                                             [Samples.private_co])))) /\
      (forall n v,
          new_mappings !! n = Some v ->
          exists merged, updated = Some merged /\ merged !! n = Some v)).
Proof.
  destruct null_values_originate_in_perplexity_flow
    as (Hcreate & _ & Hunmapped & Hperplexity & _).
  split; [| split].
  - apply (proj1 (Hcreate unit Samples.knows_x tt Samples.three_companies)).
    intros st n. eexists. reflexivity.
  - intros run Hrun.
    exact (Hunmapped unit Samples.knows_x tt Samples.xy
                     {[ "Y" := VNull ]} run Hrun).
  - apply (Hperplexity Samples.no_ticker 20 [Samples.private_co] ∅). lia.
Defined.

End NullValueWitness.

(** ** Parallel enrichment *)

Section GatherFacts.

Import ProcessMarketData.

Context {A B : Type}.
Variable run : A -> B.
Variable tasks : list A.

Lemma complete_length (slots : list (option B)) (i : nat) :
  length (complete run tasks slots i) = length slots.
Proof.
  unfold complete. destruct (tasks !! i); [apply length_insert | reflexivity].
Qed.

(** Slot [i] holds the result of task [i] once [i] has completed, and is
    untouched before. *)
Lemma fold_complete_lookup (order : list nat) :
  forall (slots : list (option B)) (i : nat),
    length slots = length tasks ->
    fold_left (complete run tasks) order slots !! i
      = if decide (i ∈ order) then (fun t => Some (run t)) <$> tasks !! i
        else slots !! i.
Proof.
  induction order as [| j order IH]; intros slots i Hlen.
  - cbn. rewrite decide_False by apply not_elem_of_nil. reflexivity.
  - cbn [fold_left]. rewrite IH by (rewrite complete_length; exact Hlen).
    destruct (decide (i ∈ order)) as [Hin | Hout].
    + rewrite decide_True by (apply elem_of_cons; auto). reflexivity.
    + destruct (decide (i = j)) as [-> | Hne].
      * rewrite decide_True by (apply elem_of_cons; auto).
        unfold complete. destruct (tasks !! j) as [t |] eqn:Ht.
        -- apply list_lookup_insert_eq. rewrite Hlen.
           apply lookup_lt_Some in Ht. exact Ht.
        -- cbn. apply lookup_ge_None. rewrite Hlen.
           apply lookup_ge_None in Ht. exact Ht.
      * rewrite decide_False
          by (intros Hin; apply elem_of_cons in Hin; tauto).
        unfold complete. destruct (tasks !! j); [| reflexivity].
        apply list_lookup_insert_ne. congruence.
Qed.

Lemma collect_all (l : list B) : collect (map Some l) = Ok l.
Proof.
  induction l as [| b l IH]; [reflexivity |].
  cbn. rewrite IH. reflexivity.
Qed.

(** Whatever the completion order, the gathered results follow the order
    of the tasks. *)
Lemma gather_any_order (order : list nat) :
  order ≡ₚ seq 0 (length tasks) ->
  gather run tasks order = Ok (map run tasks).
Proof.
  intros Hperm. unfold gather.
  assert (Hslots : fold_left (complete run tasks) order
                             (replicate (length tasks) None)
                   = map Some (map run tasks)).
  { apply list_eq. intros i.
    rewrite fold_complete_lookup by apply length_replicate.
    change (map Some (map run tasks)) with (Some <$> (run <$> tasks)).
    rewrite !list_lookup_fmap.
    destruct (decide (i ∈ order)) as [Hin | Hout].
    - destruct (tasks !! i); reflexivity.
    - assert (Hge : (length tasks <= i)%nat).
      { destruct (Nat.le_gt_cases (length tasks) i) as [Hle | Hlt];
          [exact Hle |].
        exfalso. apply Hout. rewrite Hperm. apply elem_of_seq. lia. }
      rewrite (proj2 (lookup_ge_None tasks i) Hge).
      apply lookup_ge_None. rewrite length_replicate. exact Hge. }
  rewrite Hslots. apply collect_all.
Qed.

End GatherFacts.

Section EnrichmentFacts.

Import ProcessMarketData EnrichmentSpec.

Variable g : string * string -> SubsectorResult.

Local Abbreviation f := (fun task : string * string => listed_companies (g task)).

Lemma first_failure_app (l1 l2 : list SubsectorResult) :
  first_failure (l1 ++ l2)
    = match first_failure l1 with
      | Some e => Some e
      | None => first_failure l2
      end.
Proof.
  induction l1 as [| r l1 IH]; [reflexivity |].
  cbn [app first_failure]. destruct (companies_entry r); auto.
Qed.

Lemma first_failure_none (l : list SubsectorResult) :
  (forall r, r ∈ l -> exists cs, r = ResultCompanies cs) ->
  first_failure l = None.
Proof.
  induction l as [| r l IH]; intros Hall; [reflexivity |].
  destruct (Hall r (list_elem_of_here _ _)) as [cs ->]. cbn.
  apply IH. intros r Hr. apply Hall. right. exact Hr.
Qed.

Lemma first_failure_some (l : list SubsectorResult) (r : SubsectorResult) :
  r ∈ l -> r = ResultWithoutCompanies \/ r = ResultNotObject ->
  first_failure l = Some KeyError \/ first_failure l = Some TypeError.
Proof.
  induction l as [| r0 l IH]; intros Hin Hr.
  - apply elem_of_nil in Hin. destruct Hin.
  - cbn [first_failure]. destruct r0 as [cs | |]; cbn; auto.
    apply elem_of_cons in Hin. destruct Hin as [-> | Hin]; [| auto].
    destruct Hr; discriminate.
Qed.

Lemma enrich_subsectors_reads (results : list SubsectorResult)
      (sector : string) (subs : list string) :
  forall pre post,
    results = (pre ++ map g (map (pair sector) subs) ++ post)%list ->
    enrich_subsectors results (length pre) subs
      = match first_failure (map g (map (pair sector) subs)) with
        | Some e => Raise e
        | None => Ok (map (enriched_subsector f sector) subs,
                      (length pre + length subs)%nat)
        end.
Proof.
  induction subs as [| sub subs IH]; intros pre post Hres.
  - cbn. rewrite Nat.add_0_r. reflexivity.
  - cbn [enrich_subsectors map first_failure].
    assert (Hhere : results !! length pre = Some (g (sector, sub))).
    { rewrite Hres. cbn [map app]. apply list_lookup_middle. reflexivity. }
    rewrite Hhere.
    replace (S (length pre)) with (length (pre ++ [g (sector, sub)]))
      by (rewrite length_app; cbn; lia).
    rewrite (IH (pre ++ [g (sector, sub)])%list post)
      by (rewrite Hres; cbn [map app]; rewrite <- app_assoc; reflexivity).
    unfold enriched_subsector at 2.
    destruct (g (sector, sub)) as [cs | |]; cbn [companies_entry bind];
      [| reflexivity | reflexivity].
    destruct (first_failure _); cbn [bind listed_companies];
      [reflexivity |].
    rewrite length_app. cbn [length]. do 2 f_equal. lia.
Qed.

Lemma make_tasks_cons (sector : InputSector) (rest : list InputSector) :
  make_tasks (sector :: rest)
    = (map (pair (input_name sector)) (input_subsectors sector)
         ++ make_tasks rest)%list.
Proof. reflexivity. Qed.

Lemma enrich_sectors_reads (results : list SubsectorResult)
      (market_data : list InputSector) :
  forall pre post,
    results = (pre ++ map g (make_tasks market_data) ++ post)%list ->
    enrich_sectors results (length pre) market_data
      = match first_failure (map g (make_tasks market_data)) with
        | Some e => Raise e
        | None => Ok (map (enriched_sector f) market_data)
        end.
Proof.
  induction market_data as [| sector rest IH]; intros pre post Hres.
  - reflexivity.
  - cbn [enrich_sectors].
    rewrite make_tasks_cons, map_app, <- app_assoc in Hres.
    rewrite (enrich_subsectors_reads results (input_name sector)
               (input_subsectors sector) pre _ Hres).
    rewrite make_tasks_cons, map_app, first_failure_app.
    destruct (first_failure (map g (map (pair (input_name sector))
                                        (input_subsectors sector))));
      [reflexivity |].
    cbn [bind].
    replace (length pre + length (input_subsectors sector))%nat
      with (length (pre ++ map g (map (pair (input_name sector))
                                      (input_subsectors sector))))
      by (rewrite length_app, !length_map; reflexivity).
    rewrite (IH _ post) by (rewrite Hres, <- app_assoc; reflexivity).
    destruct (first_failure (map g (make_tasks rest))); reflexivity.
Qed.

Lemma entries_enriched (market_data : list InputSector) :
  entries (map (enriched_sector f) market_data)
    = map (fun task => (fst task, snd task, f task)) (make_tasks market_data).
Proof.
  induction market_data as [| sector rest IH]; [reflexivity |].
  rewrite make_tasks_cons, map_app, <- IH.
  cbn [map entries flat_map enriched_sector sector_name subsectors].
  f_equal. rewrite !map_map. reflexivity.
Qed.

End EnrichmentFacts.

Section EnrichmentClaims.

Import ProcessMarketData EnrichmentSpec.

(** What a run gives, whatever the provider answers: the exception of the
    first pair, in the order of the pairs, whose answer has no
    ["companies"] entry, and the enriched taxonomy when there is none. *)
Lemma process_all_sectors_any_order
      (chat : string -> string -> ChatResponse) (order : list nat)
      (market_data : list InputSector) :
  order ≡ₚ seq 0 (length (make_tasks market_data)) ->
  process_all_sectors chat order market_data
    = match first_failure
              (map (fun task => get_companies_for_subsector
                                  chat (fst task) (snd task))
                   (make_tasks market_data)) with
      | Some e => Raise e
      | None =>
          Ok (map (enriched_sector
                     (fun task =>
                        listed_companies
                          (get_companies_for_subsector chat (fst task)
                                                       (snd task))))
                  market_data)
      end.
Proof.
  intros Hperm. unfold process_all_sectors.
  rewrite gather_any_order by exact Hperm. cbn [bind].
  set (g := fun task : string * string =>
              get_companies_for_subsector chat (fst task) (snd task)).
  replace (map (fun '(sector, subsector) =>
                  get_companies_for_subsector chat sector subsector)
               (make_tasks market_data))
    with (map g (make_tasks market_data))
    by (apply map_ext; intros [sector subsector]; reflexivity).
  apply (enrich_sectors_reads g _ market_data [] []).
  rewrite app_nil_r. reflexivity.
Qed.



End EnrichmentClaims.

(** * Further properties of the code *)

(** ** Rate limiter *)

Section RateLimiterMore.

Import RateLimit.

Lemma wait_for_rate_limit_cases (l : Limiter) (w : World) :
  exists slept calls,
    _wait_for_rate_limit l w =
      Ok ({| last_call_time := clock w; calls_this_minute := calls;
             rate_limit := rate_limit l |},
          {| clock := clock w + slept; files := files w;
             queries := queries w |}) /\
    ((last_call_time l < clock w - 60 /\ slept = 0 /\ calls = 1) \/
     (clock w - 60 <= last_call_time l /\
      rate_limit l <= calls_this_minute l /\
      slept = 60 - (clock w - last_call_time l) /\ calls = 1) \/
     (clock w - 60 <= last_call_time l /\
      calls_this_minute l < rate_limit l /\
      slept = 0 /\ calls = calls_this_minute l + 1)).
Proof.
  unfold _wait_for_rate_limit.
  destruct (Z.ltb_spec (last_call_time l) (clock w - 60)) as [Hold | Hrecent].
  - exists 0, 1. cbn. split; [| left; lia].
    rewrite Z.add_0_r. destruct w; reflexivity.
  - destruct (Z.leb_spec (rate_limit l) (calls_this_minute l)) as [Hfull | Hroom].
    + rewrite sleep_nonneg by lia. cbn.
      eexists _, 1. split; [reflexivity |]. right. left. lia.
    + exists 0, (calls_this_minute l + 1). cbn. split; [| right; right; lia].
      rewrite Z.add_0_r. destruct w; reflexivity.
Qed.

(** X1. The acquire never raises: it is never asked to sleep a negative
    time.  It touches neither the files nor the provider, never moves the
    clock back, records the time read on entry (not the time of return) as
    the last call, and, when the last call is not in the future, sleeps at
    most 60 seconds. *)
Theorem wait_for_rate_limit_sleeps_at_most_a_minute (l : Limiter) (w : World) :
  exists l' w',
    _wait_for_rate_limit l w = Ok (l', w') /\
    files w' = files w /\ queries w' = queries w /\
    rate_limit l' = rate_limit l /\
    last_call_time l' = clock w /\
    clock w <= clock w' /\
    (last_call_time l <= clock w -> clock w' <= clock w + 60).
Proof.
  destruct (wait_for_rate_limit_cases l w) as (slept & calls & Hrun & Hcases).
  eexists _, _. split; [exact Hrun |]. cbn.
  repeat split; lia.
Qed.

Lemma wait_for_rate_limit_sleeps_at_most_a_minute_witness :
  exists l' w',
    _wait_for_rate_limit Samples.full_limiter (Samples.empty_dir 130)
      = Ok (l', w') /\
    130 <= clock w' <= 190.
Proof.
  destruct (wait_for_rate_limit_sleeps_at_most_a_minute
              Samples.full_limiter (Samples.empty_dir 130))
    as (l' & w' & Hrun & _ & _ & _ & _ & Hlow & Hhigh).
  exists l', w'. split; [exact Hrun |].
  split; [exact Hlow | apply Hhigh; cbn; lia].
Defined.

(** X2. The window is reset only when strictly more than 60 seconds have
    passed since the last call: then the acquire returns at once with the
    counter at 1, whatever it was.  At exactly 60 seconds the old window
    still counts: below capacity the counter is incremented, at capacity the
    acquire sleeps for zero seconds and restarts the counter at 1. *)
Theorem wait_for_rate_limit_resets_after_a_minute (l : Limiter) (w : World) :
  (60 < clock w - last_call_time l ->
   _wait_for_rate_limit l w =
     Ok ({| last_call_time := clock w; calls_this_minute := 1;
            rate_limit := rate_limit l |}, w)) /\
  (clock w - last_call_time l = 60 ->
   calls_this_minute l < rate_limit l ->
   _wait_for_rate_limit l w =
     Ok ({| last_call_time := clock w;
            calls_this_minute := calls_this_minute l + 1;
            rate_limit := rate_limit l |}, w)) /\
  (clock w - last_call_time l = 60 ->
   rate_limit l <= calls_this_minute l ->
   exists w',
     _wait_for_rate_limit l w =
       Ok ({| last_call_time := clock w; calls_this_minute := 1;
              rate_limit := rate_limit l |}, w') /\
     clock w' = clock w).
Proof.
  split; [| split].
  - intros Hidle. unfold _wait_for_rate_limit.
    destruct (Z.ltb_spec (last_call_time l) (clock w - 60)); [| lia].
    reflexivity.
  - intros Hedge Hroom. apply wait_for_rate_limit_free; lia.
  - intros Hedge Hfull.
    rewrite wait_for_rate_limit_blocking by lia.
    eexists. split; [reflexivity |]. cbn. lia.
Qed.

Lemma wait_for_rate_limit_resets_after_a_minute_witness :
  _wait_for_rate_limit Samples.full_limiter (Samples.empty_dir 161) =
    Ok ({| last_call_time := 161; calls_this_minute := 1; rate_limit := 2 |},
        Samples.empty_dir 161) /\
  exists w',
    _wait_for_rate_limit Samples.full_limiter (Samples.empty_dir 160) =
      Ok ({| last_call_time := 160; calls_this_minute := 1; rate_limit := 2 |},
          w') /\
    clock w' = 160.
Proof.
  destruct (wait_for_rate_limit_resets_after_a_minute
              Samples.full_limiter (Samples.empty_dir 161)) as (Hreset & _ & _).
  destruct (wait_for_rate_limit_resets_after_a_minute
              Samples.full_limiter (Samples.empty_dir 160)) as (_ & _ & Hedge).
  split.
  - apply Hreset. cbn. lia.
  - apply Hedge; cbn; lia.
Defined.

Lemma acquire_keeps_counter_in_range (l : Limiter) (w : World) :
  1 <= rate_limit l ->
  0 <= calls_this_minute l <= rate_limit l ->
  exists l' w',
    _wait_for_rate_limit l w = Ok (l', w') /\
    rate_limit l' = rate_limit l /\
    1 <= calls_this_minute l' <= rate_limit l.
Proof.
  intros Hcap Hrange.
  destruct (wait_for_rate_limit_cases l w) as (slept & calls & Hrun & Hcases).
  eexists _, _. split; [exact Hrun |]. cbn. split; [reflexivity |]. lia.
Qed.

(** X3. With a capacity of at least 1, however many calls a client makes
    and whatever the delays between them, every acquire returns and the
    call counter stays between 0 and the capacity. *)
Theorem acquire_all_counter_within_capacity (capacity : Z) (w : World)
        (delays : list Z) :
  1 <= capacity ->
  exists l' w',
    RateLimitRuns.acquire_all (init capacity) w delays = Ok (l', w') /\
    rate_limit l' = capacity /\
    0 <= calls_this_minute l' <= capacity.
Proof.
  intros Hcap.
  assert (Hgen : forall delays l w,
             rate_limit l = capacity ->
             0 <= calls_this_minute l <= capacity ->
             exists l' w',
               RateLimitRuns.acquire_all l w delays = Ok (l', w') /\
               rate_limit l' = capacity /\
               0 <= calls_this_minute l' <= capacity).
  { clear w delays. intros delays.
    induction delays as [| d delays IH]; intros l w Hl Hrange.
    - exists l, w. auto.
    - cbn [RateLimitRuns.acquire_all].
      destruct (acquire_keeps_counter_in_range l (elapse w d))
        as (l1 & w1 & Hrun & Hl1 & Hrange1); [lia | lia |].
      rewrite Hrun. cbn [bind]. apply IH; lia. }
  apply Hgen; cbn; lia.
Qed.

Lemma acquire_all_counter_within_capacity_witness :
  exists l' w',
    RateLimitRuns.acquire_all (init 2) (Samples.empty_dir 130) [0; 10; 20; 5]
      = Ok (l', w') /\
    rate_limit l' = 2 /\
    0 <= calls_this_minute l' <= 2.
Proof.
  apply (acquire_all_counter_within_capacity 2 (Samples.empty_dir 130)
           [0; 10; 20; 5]).
  lia.
Defined.

End RateLimiterMore.

(** ** Symbol resolution with the Finnhub client *)

Section SymbolResolverMore.

Import Financials SymbolResolverSpec.

(** X4. [lookup_symbol] never raises and never hangs: whatever the provider
    does, the call returns after one rate-limit acquire and exactly one
    provider query, made with the search term; the files are not touched. *)
Theorem lookup_symbol_queries_once
        (symbol_lookup : string -> LookupResponse)
        (l : RateLimit.Limiter) (w : World) (name : string) :
  exists r l' w1,
    RateLimit._wait_for_rate_limit l w = Ok (l', w1) /\
    lookup_symbol symbol_lookup (client_with l) w name
      = Ok (r, client_with l',
            record_query w1 (search_term (client_with l) name)) /\
    queries (record_query w1 (search_term (client_with l) name))
      = (queries w ++ [search_term (client_with l) name])%list /\
    files (record_query w1 (search_term (client_with l) name)) = files w.
Proof.
  destruct (lookup_symbol_runs symbol_lookup l w name)
    as (l' & w1 & Hwait & Hrun).
  destruct (wait_for_rate_limit_cases l w) as (slept & calls & Hcase & _).
  assert (Hw1 : queries w1 = queries w /\ files w1 = files w).
  { rewrite Hcase in Hwait. inversion Hwait; subst. cbn. auto. }
  pose proof (select_symbol_returns_or_raises
                (search_term (client_with l) name) name
                (symbol_lookup (search_term (client_with l) name))) as Hsel.
  destruct (select_symbol _ _ _) as [r | e |] eqn:Hs; [| | congruence].
  - exists r, l', w1. cbn. destruct Hw1 as [-> ->]. auto.
  - exists None, l', w1. cbn. destruct Hw1 as [-> ->]. auto.
Qed.

(** X5. When the provider raises, answers without a result list, or answers
    with an empty one, [lookup_symbol] returns [None]: the error is not
    propagated to the caller. *)
Theorem lookup_symbol_none_on_provider_failure
        (symbol_lookup : string -> LookupResponse)
        (l : RateLimit.Limiter) (w : World) (name : string) :
  symbol_lookup (search_term (client_with l) name) = LookupRaises \/
  symbol_lookup (search_term (client_with l) name) = LookupReturns None \/
  symbol_lookup (search_term (client_with l) name) = LookupReturns (Some []) ->
  exists self' w',
    lookup_symbol symbol_lookup (client_with l) w name = Ok (None, self', w').
Proof.
  intros Hfail.
  destruct (lookup_symbol_runs symbol_lookup l w name)
    as (l' & w1 & _ & Hrun).
  rewrite Hrun.
  destruct Hfail as [-> | [-> | ->]]; cbn; eauto.
Qed.

Lemma lookup_symbol_none_on_provider_failure_witness :
  exists self' w',
    lookup_symbol (fun _ => LookupRaises) (client_with (RateLimit.init 45))
                  (Samples.empty_dir 130) "abc corp" = Ok (None, self', w').
Proof.
  apply (lookup_symbol_none_on_provider_failure
           (fun _ => LookupRaises) (RateLimit.init 45)
           (Samples.empty_dir 130) "abc corp").
  left. reflexivity.
Defined.

Lemma tier1_common (q name : string) (r : SearchResult) :
  tier1 PyStr.lower q name r = true -> tier3 r = true.
Proof.
  unfold tier1, tier3. intros H.
  apply andb_true_iff in H. destruct H as [H _].
  apply andb_true_iff in H. tauto.
Qed.

Lemma tier2_common (q : string) (r : SearchResult) :
  tier2 PyStr.lower q r = true -> tier3 r = true.
Proof.
  unfold tier2, tier3. intros H.
  apply andb_true_iff in H. destruct H as [H _].
  apply andb_true_iff in H. tauto.
Qed.

(** X6. Every symbol [lookup_symbol] returns is the symbol of a result of
    type ["Common Stock"], and it returns [None] for a result list exactly
    when the list has no such result: a common stock with an exchange suffix
    and an unrelated description is still taken as a last resort. *)
Theorem lookup_symbol_returns_common_stock_only
        (symbol_lookup : string -> LookupResponse)
        (l : RateLimit.Limiter) (w : World) (name : string)
        (results : list SearchResult) :
  symbol_lookup (search_term (client_with l) name)
    = LookupReturns (Some results) ->
  exists found self' w',
    lookup_symbol symbol_lookup (client_with l) w name
      = Ok (found, self', w') /\
    (forall s, found = Some s ->
       exists r, In r results /\ symbol r = s /\ type_ r = "Common Stock") /\
    (found = None <-> forall r, In r results -> type_ r <> "Common Stock").
Proof.
  intros Hanswer.
  destruct (lookup_symbol_runs symbol_lookup l w name)
    as (l' & w1 & _ & Hrun).
  rewrite Hanswer, select_symbol_tiers in Hrun.
  eexists _, _, _. split; [exact Hrun |].
  set (q := search_term (client_with l) name).
  assert (Hcommon : forall r, tier3 r = true <-> type_ r = "Common Stock").
  { intros r. unfold tier3, common_equity. apply String.eqb_eq. }
  unfold resolve_by_tiers.
  destruct (List.find (tier1 PyStr.lower q name) results) as [r1 |] eqn:H1.
  { apply find_some in H1. destruct H1 as [Hin Ht]. split.
    - intros s [= <-]. exists r1. repeat split; auto.
      apply Hcommon, (tier1_common q name), Ht.
    - split; [discriminate |]. intros Hnone. exfalso.
      apply (Hnone r1 Hin), Hcommon, (tier1_common q name), Ht. }
  destruct (List.find (tier2 PyStr.lower q) results) as [r2 |] eqn:H2.
  { apply find_some in H2. destruct H2 as [Hin Ht]. split.
    - intros s [= <-]. exists r2. repeat split; auto.
      apply Hcommon, (tier2_common q), Ht.
    - split; [discriminate |]. intros Hnone. exfalso.
      apply (Hnone r2 Hin), Hcommon, (tier2_common q), Ht. }
  destruct (List.find tier3 results) as [r3 |] eqn:H3.
  { apply find_some in H3. destruct H3 as [Hin Ht]. split.
    - intros s [= <-]. exists r3. repeat split; auto. apply Hcommon, Ht.
    - split; [discriminate |]. intros Hnone. exfalso.
      apply (Hnone r3 Hin), Hcommon, Ht. }
  split; [discriminate |]. split; [| reflexivity].
  intros _ r Hin Htype.
  pose proof (find_none _ _ H3 r Hin) as Hno.
  apply Hcommon in Htype. congruence.
Qed.

Lemma lookup_symbol_returns_common_stock_only_witness :
  exists found self' w',
    lookup_symbol (Samples.answering Samples.abc_listings)
                  (client_with (RateLimit.init 45)) (Samples.empty_dir 130)
                  "abc corp" = Ok (found, self', w') /\
    (forall s, found = Some s ->
       exists r, In r Samples.abc_listings /\ symbol r = s /\
                 type_ r = "Common Stock") /\
    (found = None <->
     forall r, In r Samples.abc_listings -> type_ r <> "Common Stock").
Proof.
  apply (lookup_symbol_returns_common_stock_only
           (Samples.answering Samples.abc_listings) (RateLimit.init 45)
           (Samples.empty_dir 130) "abc corp" Samples.abc_listings).
  reflexivity.
Defined.

End SymbolResolverMore.

(** ** The cleaned company name *)

Section CleanNameFacts.

Import PyStr.

Lemma Forall_sublist {A : Type} (P : A -> Prop) (l1 l2 : list A) :
  l1 `sublist_of` l2 -> Forall P l2 -> Forall P l1.
Proof.
  induction 1 as [| x l1 l2 _ IH | x l1 l2 _ IH]; intros Hall.
  - constructor.
  - inversion Hall; subst. constructor; auto.
  - inversion Hall; subst. auto.
Qed.

(** Deleting occurrences only drops characters. *)
Lemma replace_from_sublist (old : string) (s : string) :
  forall skip,
    list_ascii_of_string (replace_from old "" skip s)
      `sublist_of` list_ascii_of_string s.
Proof.
  induction s as [| c s IH]; intros skip; [constructor |].
  cbn [replace_from list_ascii_of_string].
  destruct skip as [| k].
  - destruct (String.prefix old (String c s)).
    + cbn [append]. apply sublist_cons, IH.
    + cbn [list_ascii_of_string]. apply sublist_skip, IH.
  - apply sublist_cons, IH.
Qed.

Lemma delete_all_sublist (tokens : list string) :
  forall s,
    list_ascii_of_string
      (fold_left (fun name token => replace token "" name) tokens s)
      `sublist_of` list_ascii_of_string s.
Proof.
  induction tokens as [| t tokens IH]; intros s; [reflexivity |].
  cbn [fold_left]. etransitivity; [apply IH |].
  apply replace_from_sublist.
Qed.

Lemma lstrip_sublist (s : string) :
  list_ascii_of_string (lstrip s) `sublist_of` list_ascii_of_string s.
Proof.
  induction s as [| c s IH]; [constructor |].
  cbn [lstrip]. destruct (is_space c); [| reflexivity].
  cbn [list_ascii_of_string]. apply sublist_cons, IH.
Qed.

Lemma rstrip_sublist (s : string) :
  list_ascii_of_string (rstrip s) `sublist_of` list_ascii_of_string s.
Proof.
  induction s as [| c s IH]; [constructor |].
  cbn [rstrip list_ascii_of_string].
  destruct (rstrip s) as [| c' r] eqn:Hr.
  - destruct (is_space c); cbn [list_ascii_of_string].
    + apply sublist_cons, IH.
    + apply sublist_skip, IH.
  - cbn [list_ascii_of_string] in *. apply sublist_skip, IH.
Qed.

Lemma strip_sublist (s : string) :
  list_ascii_of_string (strip s) `sublist_of` list_ascii_of_string s.
Proof.
  unfold strip. etransitivity; [apply lstrip_sublist | apply rstrip_sublist].
Qed.

(** Deleting a one-character token leaves no occurrence of it. *)
Lemma replace_char_gone (c : ascii) (s : string) :
  Forall (fun a => a <> c)
         (list_ascii_of_string (replace (String c "") "" s)).
Proof.
  unfold replace. induction s as [| a s IH]; [constructor |].
  cbn [replace_from String.prefix].
  destruct (ascii_dec c a) as [-> | Hne].
  - destruct s; cbn [String.prefix String.length Nat.pred append]; exact IH.
  - cbn [list_ascii_of_string]. constructor; [congruence | exact IH].
Qed.

Lemma lower_char_not_upper (c : ascii) : is_upper (lower_char c) = false.
Proof.
  destruct c as [[] [] [] [] [] [] [] []]; reflexivity.
Qed.

Lemma lower_no_upper (s : string) :
  Forall (fun a => is_upper a = false) (list_ascii_of_string (lower s)).
Proof.
  induction s as [| c s IH]; [constructor |].
  cbn. constructor; [apply lower_char_not_upper | exact IH].
Qed.

Lemma rstrip_tail_fixed (c : ascii) (s : string) :
  rstrip (String c s) = String c s -> rstrip s = s.
Proof.
  cbn [rstrip]. destruct (rstrip s) as [| c' r] eqn:Hr.
  - destruct (is_space c); [discriminate |]. intros [= <-]. reflexivity.
  - intros [= <-]. reflexivity.
Qed.

Lemma rstrip_idempotent (s : string) : rstrip (rstrip s) = rstrip s.
Proof.
  induction s as [| c s IH]; [reflexivity |].
  cbn [rstrip]. destruct (rstrip s) as [| c' r] eqn:Hr.
  - destruct (is_space c) eqn:Hc; [reflexivity |].
    cbn [rstrip]. rewrite Hc. reflexivity.
  - change (rstrip (String c (String c' r)))
      with (match rstrip (String c' r) with
            | "" => if is_space c then "" else String c ""
            | r0 => String c r0
            end).
    rewrite IH. reflexivity.
Qed.

Lemma lstrip_keeps_rstrip_fixed (s : string) :
  rstrip s = s -> rstrip (lstrip s) = lstrip s.
Proof.
  induction s as [| c s IH]; [reflexivity |].
  intros Hfix. cbn [lstrip]. destruct (is_space c); [| exact Hfix].
  apply IH, (rstrip_tail_fixed c), Hfix.
Qed.

Lemma strip_idempotent (s : string) : strip (strip s) = strip s.
Proof.
  unfold strip.
  rewrite (lstrip_keeps_rstrip_fixed (rstrip s)) by apply rstrip_idempotent.
  apply lstrip_idempotent.
Qed.

(** X7. The name [lookup_symbol] cleans before the alias check is made of
    characters of the lowercased company name, in their order; it has no
    uppercase letter, no comma and no period, and no whitespace at either
    end. *)
Theorem clean_name_shape (company_name : string) :
  list_ascii_of_string (Financials.clean_name company_name)
    `sublist_of` list_ascii_of_string (lower company_name) /\
  Forall (fun a => is_upper a = false /\ a <> ","%char /\ a <> "."%char)
         (list_ascii_of_string (Financials.clean_name company_name)) /\
  strip (Financials.clean_name company_name)
    = Financials.clean_name company_name.
Proof.
  unfold Financials.clean_name.
  set (step := fun name token : string => replace token "" name).
  assert (Hsplit : Financials.suffixes
                   = ([ " inc."; " inc"; " corp."; " corp"; " corporation";
                        " ltd."; " ltd"; " limited"; " plc"; " s.a."; " ag";
                        " co." ] ++ [","; "."])%list) by reflexivity.
  rewrite Hsplit, fold_left_app.
  set (body := fold_left step _ (lower company_name)).
  cbn [fold_left]. unfold step at 1 2.
  assert (Hbody : list_ascii_of_string body
                    `sublist_of` list_ascii_of_string (lower company_name))
    by apply delete_all_sublist.
  assert (Hnodot : list_ascii_of_string (replace "." "" (replace "," "" body))
                     `sublist_of` list_ascii_of_string (replace "," "" body))
    by apply replace_from_sublist.
  assert (Hnocomma : list_ascii_of_string (replace "," "" body)
                       `sublist_of` list_ascii_of_string body)
    by apply replace_from_sublist.
  split; [| split].
  - etransitivity; [apply strip_sublist |].
    etransitivity; [exact Hnodot |].
    etransitivity; [exact Hnocomma | exact Hbody].
  - apply (Forall_sublist _ _ _ (strip_sublist _)).
    apply Forall_and. split; [| apply Forall_and; split].
    + apply (Forall_sublist _ _ _ Hnodot), (Forall_sublist _ _ _ Hnocomma),
        (Forall_sublist _ _ _ Hbody), lower_no_upper.
    + apply (Forall_sublist _ _ _ Hnodot), replace_char_gone.
    + apply replace_char_gone.
  - apply strip_idempotent.
Qed.

End CleanNameFacts.

(** ** Symbol resolution with the yfinance client *)

Section YfClientFacts.

Import YfClient.

Variable ticker_info : string -> TickerInfo.

Lemma check_known_requests (known : list (string * string)) (name : string) :
  forall requests,
    exists asked,
      snd (check_known ticker_info known name requests)
        = (requests ++ asked)%list /\
      (length asked
         <= length (filter (fun kt => PyStr.contains kt.1 name = true) known))%nat.
Proof.
  induction known as [| [k t] known IH]; intros requests.
  - exists []. cbn. rewrite app_nil_r. auto.
  - cbn [check_known]. rewrite filter_cons. cbn [fst].
    destruct (PyStr.contains k name) eqn:Hk.
    + rewrite decide_True by reflexivity.
      destruct (verified ticker_info t).
      * exists [t]. cbn. split; [reflexivity | lia].
      * destruct (IH (requests ++ [t])%list) as (asked & Hreq & Hlen).
        exists (t :: asked). rewrite Hreq, <- app_assoc. cbn. split; [auto | lia].
    + rewrite decide_False by discriminate. apply IH.
Qed.

Lemma try_variations_requests (possible : list string) :
  forall requests,
    exists asked,
      snd (try_variations ticker_info possible requests)
        = (requests ++ asked)%list /\
      (length asked <= length possible)%nat.
Proof.
  induction possible as [| p possible IH]; intros requests.
  - exists []. cbn. rewrite app_nil_r. auto.
  - cbn [try_variations].
    assert (Hnext : exists asked,
               snd (try_variations ticker_info possible (requests ++ [p])%list)
                 = (requests ++ asked)%list /\
               (length asked <= length (p :: possible))%nat).
    { destruct (IH (requests ++ [p])%list) as (asked & Hreq & Hlen).
      exists (p :: asked). rewrite Hreq, <- app_assoc. cbn. split; [auto | lia]. }
    destruct (ticker_info p) as [| | [s |]]; try exact Hnext.
    destruct (truthy (Some s)); [| exact Hnext].
    exists [p]. cbn. split; [reflexivity | lia].
Qed.

(** A ticker taken from the table stands for a known name that occurs in
    the cleaned name and has been verified. *)
Lemma check_known_found (known : list (string * string)) (name : string) :
  forall requests t,
    fst (check_known ticker_info known name requests) = Some t ->
    exists k, In (k, t) known /\ PyStr.contains k name = true /\
              verified ticker_info t = true.
Proof.
  induction known as [| [k0 t0] known IH]; intros requests t; [discriminate |].
  cbn [check_known].
  destruct (PyStr.contains k0 name) eqn:Hk.
  - destruct (verified ticker_info t0) eqn:Hv.
    + cbn. intros [= <-]. exists k0. split; [left; reflexivity | auto].
    + intros Hfound. destruct (IH _ _ Hfound) as (k & Hin & Hc & Hver).
      exists k. split; [right; exact Hin | auto].
  - intros Hfound. destruct (IH _ _ Hfound) as (k & Hin & Hc & Hver).
    exists k. split; [right; exact Hin | auto].
Qed.

(** A verified known name is never passed over. *)
Lemma check_known_complete (known : list (string * string)) (name : string) :
  forall requests k t,
    In (k, t) known -> PyStr.contains k name = true ->
    verified ticker_info t = true ->
    exists t', fst (check_known ticker_info known name requests) = Some t'.
Proof.
  induction known as [| [k0 t0] known IH]; intros requests k t Hin Hk Hv;
    [destruct Hin |].
  cbn [check_known]. destruct Hin as [[= -> ->] | Hin].
  - rewrite Hk, Hv. cbn. eauto.
  - destruct (PyStr.contains k0 name); [| eauto].
    destruct (verified ticker_info t0); [cbn; eauto | eauto].
Qed.

Lemma try_variations_found (possible : list string) :
  forall requests s,
    fst (try_variations ticker_info possible requests) = Some s ->
    exists p, In p possible /\ ticker_info p = InfoWith (Some s) /\ s <> "".
Proof.
  induction possible as [| p0 possible IH]; intros requests s; [discriminate |].
  cbn [try_variations].
  assert (Hnext : fst (try_variations ticker_info possible
                                      (requests ++ [p0])%list) = Some s ->
                  exists p, In p (p0 :: possible) /\
                            ticker_info p = InfoWith (Some s) /\ s <> "").
  { intros Hfound. destruct (IH _ _ Hfound) as (p & Hin & Hp).
    exists p. split; [right; exact Hin | exact Hp]. }
  destruct (ticker_info p0) as [| | [s0 |]] eqn:Hinfo; try exact Hnext.
  destruct (truthy (Some s0)) eqn:Htruthy; [| exact Hnext].
  cbn. intros [= <-]. exists p0. split; [left; reflexivity |].
  split; [exact Hinfo |].
  cbn in Htruthy. destruct (String.eqb_spec s0 ""); [discriminate | auto].
Qed.

Lemma resolve_empty_name (company_name : string) :
  clean_name company_name = "" ->
  resolve ticker_info company_name = (None, []).
Proof.
  intros Hempty. unfold resolve. rewrite Hempty. reflexivity.
Qed.

(** X8. The yfinance [lookup_symbol] never raises.  For a company name
    that is empty once cleaned (only suffix tokens, punctuation or blanks)
    it returns [None] without asking yfinance anything: taking the first
    word of the empty name raises inside the [try]. *)
Theorem yf_lookup_symbol_survives_empty_name
        (self : YFinanceClient) (w : World) (company_name : string) :
  exists found requests self' w',
    lookup_symbol ticker_info self w company_name
      = Ok (found, requests, self', w') /\
    (PyStr.split (clean_name company_name) = [] ->
     found = None /\ requests = []).
Proof.
  unfold lookup_symbol, _wait_for_rate_limit.
  destruct (wait_for_rate_limit_returns (limiter self) w) as (l' & w' & ->).
  cbn [bind].
  destruct (resolve ticker_info company_name) as [found requests] eqn:Hres.
  eexists _, _, _, _. split; [reflexivity |].
  intros Hnil.
  rewrite (resolve_empty_name company_name) in Hres
    by (apply strip_no_words, Hnil).
  inversion Hres. auto.
Qed.

(** X9. A symbol the yfinance resolver returns is either the table ticker
    of a known name that occurs in the cleaned company name and that
    yfinance has information for, or the symbol yfinance itself reports for
    one of the three spellings tried (no blanks, hyphens, first word).  The
    table has precedence: when some known name occurs and its ticker is
    verified, a table ticker is returned.  At most one request is made per
    known name occurring in the cleaned name, plus three. *)
Theorem yf_resolve_provenance (company_name : string) :
  (forall s,
      fst (resolve ticker_info company_name) = Some s ->
      (exists k, In (k, s) COMPANY_TICKERS /\
                 PyStr.contains k (clean_name company_name) = true /\
                 verified ticker_info s = true) \/
      (exists word p,
          first_word (clean_name company_name) = Ok word /\
          In p [ PyStr.replace " " "" (clean_name company_name);
                 PyStr.replace " " "-" (clean_name company_name);
                 word ] /\
          ticker_info p = InfoWith (Some s) /\ s <> "")) /\
  (forall k t,
      In (k, t) COMPANY_TICKERS ->
      PyStr.contains k (clean_name company_name) = true ->
      verified ticker_info t = true ->
      exists k' t',
        fst (resolve ticker_info company_name) = Some t' /\
        In (k', t') COMPANY_TICKERS /\
        PyStr.contains k' (clean_name company_name) = true /\
        verified ticker_info t' = true) /\
  (length (snd (resolve ticker_info company_name))
     <= length (filter (fun kt => PyStr.contains kt.1 (clean_name company_name)
                                  = true) COMPANY_TICKERS) + 3)%nat.
Proof.
  unfold resolve. set (name := clean_name company_name).
  pose proof (check_known_found COMPANY_TICKERS name []) as Hfound.
  pose proof (check_known_complete COMPANY_TICKERS name []) as Hcomplete.
  destruct (check_known_requests COMPANY_TICKERS name [])
    as (asked & Hasked & Hlen).
  destruct (check_known ticker_info COMPANY_TICKERS name [])
    as [[t |] requests] eqn:Hknown; cbn [fst snd] in *.
  - split; [| split].
    + intros s [= <-]. left. apply Hfound. reflexivity.
    + intros k t0 Hin Hk Hv.
      destruct (Hfound t eq_refl) as (k' & Hin' & Hk' & Hv').
      exists k', t. auto.
    + subst requests. rewrite app_nil_l. lia.
  - split; [| split].
    + intros s Hs. right.
      unfold possible_tickers in Hs.
      destruct (first_word name) as [word | e |] eqn:Hword;
        cbn [bind] in Hs; try discriminate.
      destruct (try_variations_found _ _ _ Hs) as (p & Hin & Hinfo & Hne).
      exists word, p. auto.
    + intros k t Hin Hk Hv.
      destruct (Hcomplete k t Hin Hk Hv) as (t' & Ht'). discriminate.
    + subst requests. cbn [app] in *.
      unfold possible_tickers.
      destruct (first_word name) as [word | e |]; cbn [bind snd];
        [| lia | lia].
      destruct (try_variations_requests
                  [PyStr.replace " " "" name; PyStr.replace " " "-" name; word]
                  asked) as (more & -> & Hmore).
      rewrite length_app. cbn [length] in Hmore. lia.
Qed.

End YfClientFacts.

Section YfClientWitnesses.

Import YfClient.

Lemma yf_lookup_symbol_survives_empty_name_witness :
  exists found requests self' w',
    lookup_symbol MoreSamples.knows_aapl init (Samples.empty_dir 130) " , ."
      = Ok (found, requests, self', w') /\
    found = None /\ requests = [].
Proof.
  destruct (yf_lookup_symbol_survives_empty_name MoreSamples.knows_aapl init
              (Samples.empty_dir 130) " , .")
    as (found & requests & self' & w' & Hrun & Hnone).
  exists found, requests, self', w'. split; [exact Hrun |].
  apply Hnone. vm_compute. reflexivity.
Defined.

Lemma yf_resolve_provenance_witness :
  exists k' t',
    fst (resolve MoreSamples.knows_aapl "Apple Inc.") = Some t' /\
    In (k', t') COMPANY_TICKERS /\
    PyStr.contains k' (clean_name "Apple Inc.") = true /\
    verified MoreSamples.knows_aapl t' = true.
Proof.
  destruct (yf_resolve_provenance MoreSamples.knows_aapl "Apple Inc.")
    as (_ & Hfirst & _).
  apply (Hfirst "apple" "AAPL").
  - left. reflexivity.
  - vm_compute. reflexivity.
  - vm_compute. reflexivity.
Defined.

End YfClientWitnesses.

(** ** The resolution loops, further *)

Section LoopShape.

Import ResolutionLoops TaxonomySpec.

Lemma fold_left_flat_map {A B C : Type} (f : A -> B -> A) (g : C -> list B)
      (l : list C) :
  forall a,
    fold_left f (flat_map g l) a
      = fold_left (fun a x => fold_left f (g x) a) l a.
Proof.
  induction l as [| x l IH]; intros a; [reflexivity |].
  cbn [flat_map fold_left]. rewrite fold_left_app. apply IH.
Qed.

Lemma fold_left_same {A B : Type} (f g : A -> B -> A) (l : list B) :
  (forall a x, f a x = g a x) ->
  forall a, fold_left f l a = fold_left g l a.
Proof.
  intros Hfg. induction l as [| x l IH]; intros a; [reflexivity |].
  cbn. rewrite Hfg. apply IH.
Qed.

(** The three nested loops visit the companies in file order. *)
Lemma create_company_ticker_map_flat {St : Type}
      (lookup_symbol : St -> string -> result (option string * St))
      (c : St) (market_data : list Sector) :
  create_company_ticker_map lookup_symbol c market_data
    = fold_left (create_company lookup_symbol) (all_companies market_data)
                (Ok {| built := ∅; client := c; sent := [] |}).
Proof.
  unfold create_company_ticker_map, all_companies.
  rewrite fold_left_flat_map. apply fold_left_same. intros acc sector.
  unfold create_sector. rewrite fold_left_flat_map. reflexivity.
Qed.

Lemma count_companies_length (market_data : list Sector) :
  FileUtils.count_companies market_data
    = Z.of_nat (length (all_companies market_data)).
Proof.
  unfold FileUtils.count_companies, all_companies.
  assert (Hsub : forall subs total,
             fold_left (fun total subsector =>
                          total + Z.of_nat (length (companies subsector)))
                       subs total
             = total + Z.of_nat (length (flat_map companies subs))).
  { induction subs as [| sub subs IH]; intros total; cbn [fold_left flat_map].
    - cbn. lia.
    - rewrite IH, length_app. lia. }
  assert (Hsec : forall md total,
             fold_left (fun total sector =>
                          fold_left (fun total subsector =>
                                       total + Z.of_nat (length (companies subsector)))
                                    (subsectors sector) total)
                       md total
             = total + Z.of_nat (length (flat_map
                                           (fun sector =>
                                              flat_map companies (subsectors sector))
                                           md))).
  { induction md as [| sector md IH]; intros total; cbn [fold_left flat_map].
    - cbn. lia.
    - rewrite IH, Hsub, length_app. lia. }
  rewrite Hsec. lia.
Qed.

End LoopShape.

Section LoopKeys.

Import ResolutionLoops TaxonomySpec.

Context {St : Type}.
Variable lookup_symbol : St -> string -> result (option string * St).

(** What one round of either loop does to the state, given the name it
    looks at: nothing, or one resolver call and at most one new key. *)
Lemma create_company_effect acc company st' :
  create_company lookup_symbol acc company = Ok st' ->
  exists st, acc = Ok st /\
    ((is_Some (built st !! company_name company) /\ st' = st) \/
     (built st !! company_name company = None /\
      sent st' = (sent st ++ [company_name company])%list /\
      (built st' = built st \/
       exists t, truthy (Some t) = true /\
                 built st' = <[company_name company := VStr t]> (built st)))).
Proof.
  unfold create_company. destruct acc as [st | e |]; try discriminate.
  cbn [bind]. intros Hstep. exists st. split; [reflexivity |].
  destruct (built st !! company_name company) eqn:Hseen.
  { left. inversion Hstep. eauto. }
  right. split; [reflexivity |].
  destruct (lookup_symbol (client st) (company_name company))
    as [[ticker c'] | e |]; try discriminate.
  cbn [bind] in Hstep.
  destruct ticker as [t |]; [destruct (truthy (Some t)) eqn:Ht |];
    inversion Hstep; subst; cbn; eauto.
Qed.

Lemma process_unmapped_effect existing acc company st' :
  process_unmapped lookup_symbol existing acc company = Ok st' ->
  exists st, acc = Ok st /\
    ((is_Some (existing !! unmapped_name company) /\ st' = st) \/
     (existing !! unmapped_name company = None /\
      sent st' = (sent st ++ [unmapped_name company])%list /\
      (built st' = built st \/
       exists t, truthy (Some t) = true /\
                 built st' = <[unmapped_name company := VStr t]> (built st)))).
Proof.
  unfold process_unmapped. destruct acc as [st | e |]; try discriminate.
  cbn [bind]. intros Hstep. exists st. split; [reflexivity |].
  destruct (existing !! unmapped_name company) eqn:Hseen.
  { left. inversion Hstep. eauto. }
  right. split; [reflexivity |].
  destruct (lookup_symbol (client st) (unmapped_name company))
    as [[ticker c'] | e |]; try discriminate.
  cbn [bind] in Hstep.
  destruct ticker as [t |]; [destruct (truthy (Some t)) eqn:Ht |];
    inversion Hstep; subst; cbn; eauto.
Qed.

(** A property carried by every round on an element of the list is carried
    by the loop. *)
Lemma fold_left_carries_on {X : Type} (P : LoopState (St := St) -> Prop)
      (step : result LoopState -> X -> result LoopState) (l : list X) :
  (forall acc x st', x ∈ l -> step acc x = Ok st' ->
                     exists st, acc = Ok st /\ (P st -> P st')) ->
  forall acc st',
    fold_left step l acc = Ok st' ->
    exists st, acc = Ok st /\ (P st -> P st').
Proof.
  induction l as [| x l IH]; intros Hstep acc st' Hrun.
  - exists st'. auto.
  - cbn in Hrun.
    destruct (IH (fun acc y st1 Hy => Hstep acc y st1 (list_elem_of_further _ _ _ Hy))
                 _ _ Hrun) as (st1 & Hacc1 & HP1).
    destruct (Hstep _ _ _ (list_elem_of_here _ _) Hacc1) as (st & Hacc & HP).
    exists st. auto.
Qed.

Lemma create_loop_sent (l : list Company) :
  forall acc st',
    fold_left (create_company lookup_symbol) l acc = Ok st' ->
    exists st, acc = Ok st /\
      (length (sent st') <= length (sent st) + length l)%nat /\
      (forall n, n ∈ sent st' -> n ∈ sent st \/ n ∈ map company_name l).
Proof.
  induction l as [| co l IH]; intros acc st1 Hrun.
  - exists st1. cbn. split; [auto |]. split; [lia | auto].
  - cbn in Hrun. destruct (IH _ _ Hrun) as (st2 & Hacc & Hlen & Hin).
    destruct (create_company_effect _ _ _ Hacc)
      as (st & -> & [[_ ->] | (_ & Hs & _)]);
      exists st; (split; [reflexivity |]).
    + split; [cbn; lia |]. intros n Hn.
      destruct (Hin n Hn) as [? | ?]; [auto |].
      right. cbn. apply elem_of_cons. auto.
    + rewrite Hs, length_app in Hlen. cbn in Hlen.
      split; [cbn; lia |]. intros n Hn.
      destruct (Hin n Hn) as [Hold | ?].
      * rewrite Hs in Hold. apply elem_of_app in Hold.
        destruct Hold as [? | Hhere]; [auto |].
        apply list_elem_of_singleton in Hhere. subst n.
        right. cbn. apply elem_of_cons. auto.
      * right. cbn. apply elem_of_cons. auto.
Qed.

Lemma size_list_to_set_le (l : list string) :
  (size (list_to_set l : gset string) <= length l)%nat.
Proof.
  induction l as [| x l IH]; [rewrite list_to_set_nil, size_empty; lia |].
  rewrite list_to_set_cons, size_union_alt, size_singleton. cbn [length].
  assert (size (list_to_set l ∖ {[x]} : gset string)
          <= size (list_to_set l : gset string))%nat
    by (apply subseteq_size, subseteq_difference_l; reflexivity).
  lia.
Qed.

(** X10. Whatever the resolver does, every key of the mapping
    [create_company_ticker_map] builds is the name of a company of the
    taxonomy and every name it sends to the resolver is one too; so the
    number of mapped companies never exceeds the total that
    [get_total_companies] counts, nor does the number of resolver calls. *)
Theorem create_company_ticker_map_within_taxonomy
        (c : St) (market_data : list Sector) (st' : LoopState) :
  create_company_ticker_map lookup_symbol c market_data = Ok st' ->
  (forall n, is_Some (built st' !! n) -> n ∈ all_names market_data) /\
  (forall n, n ∈ sent st' -> n ∈ all_names market_data) /\
  Z.of_nat (size (built st')) <= FileUtils.count_companies market_data /\
  Z.of_nat (length (sent st')) <= FileUtils.count_companies market_data.
Proof.
  intros Hrun. rewrite create_company_ticker_map_flat in Hrun.
  rewrite count_companies_length.
  assert (Hkeys : forall n, is_Some (built st' !! n) ->
                            n ∈ all_names market_data).
  { eapply (fold_left_carries_on
              (fun st => forall n, is_Some (built st !! n) ->
                                   n ∈ all_names market_data)) in Hrun.
    - destruct Hrun as (st & [= <-] & Hkeep). apply Hkeep.
      intros n [v Hv]. cbn in Hv. rewrite lookup_empty in Hv. discriminate.
    - intros acc co st1 Hin Hstep.
      destruct (create_company_effect _ _ _ Hstep)
        as (st & -> & [[_ ->] | (_ & _ & [Hsame | (t & _ & Hnew)])]);
        exists st; (split; [reflexivity |]); auto.
      + intros Hinv n. rewrite Hsame. apply Hinv.
      + intros Hinv n. rewrite Hnew.
        destruct (decide (company_name co = n)) as [<- | Hne].
        * intros _. unfold all_names. apply list_elem_of_fmap.
          exists co. auto.
        * rewrite lookup_insert_ne by exact Hne. apply Hinv. }
  destruct (create_loop_sent _ _ _ Hrun) as (st & [= <-] & Hlen & Hin).
  cbn [sent length] in Hlen, Hin.
  split; [exact Hkeys |]. split.
  { intros n Hn. destruct (Hin n Hn) as [Hnil | Hname]; [| exact Hname].
    apply elem_of_nil in Hnil. destruct Hnil. }
  split; [| lia].
  assert (Hdom : dom (built st') ⊆ (list_to_set (all_names market_data) : gset string)).
  { intros n Hn. apply elem_of_list_to_set, Hkeys, elem_of_dom, Hn. }
  apply subseteq_size in Hdom. rewrite size_dom in Hdom.
  pose proof (size_list_to_set_le (all_names market_data)) as Hle.
  unfold all_names in Hle at 2. rewrite length_map in Hle. lia.
Qed.

(** X12. Whatever the resolver does, [process_unmapped_companies] creates
    entries only for names that are not keys of the prior mapping, so the
    merge [{**existing_mappings, **new_mappings}] keeps every prior entry
    with its value and adds the new ones; nothing is merged (or saved) when
    no name was resolved. *)
Theorem process_unmapped_companies_merge_keeps_prior
        (c : St) (unmapped : list UnmappedCompany)
        (existing : gmap string MapVal) (run : UnmappedRun) :
  process_unmapped_companies lookup_symbol c unmapped existing = Ok run ->
  (forall n, is_Some (new_mappings run !! n) ->
             existing !! n = None /\ n ∈ map unmapped_name unmapped) /\
  (updated_mappings run = None <-> new_mappings run = ∅) /\
  (forall merged, updated_mappings run = Some merged ->
     (forall n v, existing !! n = Some v -> merged !! n = Some v) /\
     (forall n v, new_mappings run !! n = Some v -> merged !! n = Some v) /\
     dom merged = dom existing ∪ dom (new_mappings run)).
Proof.
  unfold process_unmapped_companies.
  destruct (fold_left _ _ _) as [st | e |] eqn:Hloop; try discriminate.
  cbn [bind]. intros [= <-]. cbn [new_mappings updated_mappings].
  assert (Hnew : forall n, is_Some (built st !! n) ->
                           existing !! n = None /\
                           n ∈ map unmapped_name unmapped).
  { eapply (fold_left_carries_on
              (fun st => forall n, is_Some (built st !! n) ->
                                   existing !! n = None /\
                                   n ∈ map unmapped_name unmapped)) in Hloop.
    - destruct Hloop as (st0 & [= <-] & Hkeep). apply Hkeep.
      intros n [v Hv]. cbn in Hv. rewrite lookup_empty in Hv. discriminate.
    - intros acc co st1 Hin Hstep.
      destruct (process_unmapped_effect _ _ _ _ Hstep)
        as (st0 & -> & [[_ ->] | (Hfree & _ & [Hsame | (t & _ & Hins)])]);
        exists st0; (split; [reflexivity |]); auto.
      + intros Hinv n. rewrite Hsame. apply Hinv.
      + intros Hinv n. rewrite Hins.
        destruct (decide (unmapped_name co = n)) as [<- | Hne].
        * intros _. split; [exact Hfree |].
          apply list_elem_of_fmap. exists co. auto.
        * rewrite lookup_insert_ne by exact Hne. apply Hinv. }
  split; [exact Hnew |].
  destruct (decide (built st = ∅)) as [Hempty | Hfull].
  - split; [tauto |]. discriminate.
  - split; [split; [discriminate | contradiction] |].
    intros merged [= <-]. split; [| split].
    + intros n v Hv. apply lookup_union_Some_raw. right. split; [| exact Hv].
      destruct (built st !! n) eqn:Hb; [| reflexivity].
      destruct (Hnew n (mk_is_Some _ _ Hb)) as [Hnone _]. congruence.
    + intros n v Hv. apply lookup_union_Some_raw. left. exact Hv.
    + rewrite dom_union_L. apply (comm_L (∪)).
Qed.

End LoopKeys.

Section CreateLoopByName.

Import ResolutionLoops TaxonomySpec LoopSpec.

Context {St : Type}.
Variable lookup_symbol : St -> string -> result (option string * St).
Variable answer : string -> option string.
Variable reachable : St -> Prop.
Hypothesis deterministic :
  forall st n, reachable st ->
    exists st', lookup_symbol st n = Ok (answer n, st') /\ reachable st'.

Lemma resolved_truthy (n : string) :
  (truthy (answer n) = true ->
   exists t, answer n = Some t /\ resolved answer n = Some (VStr t)) /\
  (truthy (answer n) = false -> resolved answer n = None).
Proof.
  unfold resolved. destruct (answer n) as [t |]; [| split; [discriminate | auto]].
  destruct (truthy (Some t)); split; try discriminate; eauto.
Qed.

Lemma occurrences_snoc (n m : string) (l : list string) :
  occurrences n (l ++ [m])
    = (occurrences n l + if decide (m = n) then 1 else 0)%nat.
Proof.
  unfold occurrences. rewrite filter_app, length_app. f_equal.
  rewrite filter_cons, filter_nil. destruct (decide (m = n)); reflexivity.
Qed.

Lemma create_loop_by_name (c : St) (cs : list Company) :
  reachable c ->
  exists st,
    fold_left (create_company lookup_symbol) cs
              (Ok {| built := ∅; client := c; sent := [] |}) = Ok st /\
    after_prefix answer reachable (map company_name cs) st.
Proof.
  intros Hc. induction cs as [| co cs IH] using rev_ind.
  - eexists. split; [reflexivity |]. split; [exact Hc |]. split.
    + intros n. cbn. rewrite lookup_empty, decide_False by apply not_elem_of_nil.
      reflexivity.
    + intros n. cbn. rewrite decide_False by apply not_elem_of_nil.
      destruct (truthy (answer n)); reflexivity.
  - destruct IH as (st & Hrun & Hreach & Hbuilt & Hsent).
    rewrite fold_left_app, Hrun, map_app. cbn [fold_left map].
    set (m := company_name co). set (names := map company_name cs) in *.
    unfold create_company. cbn [bind]. fold m.
    destruct (resolved_truthy m) as [Hyes Hno].
    assert (Hmem : forall n, n ∈ (names ++ [m])%list <-> n ∈ names \/ n = m).
    { intros n. rewrite elem_of_app, list_elem_of_singleton. tauto. }
    destruct (built st !! m) as [v |] eqn:Hseen.
    + (* already resolved: nothing happens *)
      rewrite Hbuilt in Hseen.
      destruct (decide (m ∈ names)) as [Hin | ]; [| discriminate].
      assert (Hm : truthy (answer m) = true).
      { destruct (truthy (answer m)) eqn:Ht; [reflexivity |].
        rewrite (Hno eq_refl) in Hseen. discriminate. }
      exists st. split; [reflexivity |]. split; [exact Hreach |]. split.
      * intros n. rewrite Hbuilt.
        destruct (decide (n ∈ names)) as [Hn | Hn].
        -- rewrite decide_True by (apply Hmem; auto). reflexivity.
        -- rewrite decide_False; [reflexivity |].
           intros Hn'. apply Hmem in Hn'. destruct Hn' as [? | ->]; auto.
      * intros n. rewrite Hsent. destruct (truthy (answer n)) eqn:Ht.
        -- destruct (decide (n ∈ names)) as [Hn | Hn].
           ++ rewrite decide_True by (apply Hmem; auto). reflexivity.
           ++ rewrite decide_False; [reflexivity |].
              intros Hn'. apply Hmem in Hn'. destruct Hn' as [? | ->]; auto.
        -- rewrite occurrences_snoc, decide_False by congruence. lia.
    + destruct (deterministic (client st) m Hreach) as (c' & -> & Hreach').
      cbn [bind].
      destruct (truthy (answer m)) eqn:Ht.
      * (* a new name resolves *)
        destruct (Hyes eq_refl) as (t & Hans & Hres).
        assert (Hfresh : m ∉ names).
        { intros Hin. rewrite Hbuilt, decide_True, Hres in Hseen by exact Hin.
          discriminate. }
        exists {| built := <[m := VStr t]> (built st); client := c';
                  sent := (sent st ++ [m])%list |}.
        split; [rewrite Hans; reflexivity |].
        split; [exact Hreach' |]. split.
        -- intros n. cbn [built].
           destruct (decide (m = n)) as [<- | Hne].
           ++ rewrite lookup_insert_eq, decide_True by (apply Hmem; auto).
              symmetry. exact Hres.
           ++ rewrite lookup_insert_ne, Hbuilt by exact Hne.
              destruct (decide (n ∈ names)) as [Hn | Hn].
              ** rewrite decide_True by (apply Hmem; auto). reflexivity.
              ** rewrite decide_False; [reflexivity |].
                 intros Hn'. apply Hmem in Hn'. destruct Hn'; congruence.
        -- intros n. cbn [sent]. rewrite occurrences_snoc, Hsent.
           destruct (decide (m = n)) as [<- | Hne].
           ++ rewrite Ht, decide_False, decide_True
                by (try apply Hmem; auto). reflexivity.
           ++ destruct (truthy (answer n)).
              ** destruct (decide (n ∈ names)) as [Hn | Hn].
                 --- rewrite decide_True by (apply Hmem; auto). lia.
                 --- rewrite decide_False; [lia |].
                     intros Hn'. apply Hmem in Hn'. destruct Hn'; congruence.
              ** rewrite occurrences_snoc, decide_False by exact Hne. lia.
      * (* no usable answer: the name is sent, nothing is stored *)
        pose proof (Hno eq_refl) as Hres.
        assert (Hafter : after_prefix answer reachable (names ++ [m])
                           {| built := built st; client := c';
                              sent := (sent st ++ [m])%list |}).
        { split; [exact Hreach' |]. split.
          - intros n. cbn [built]. rewrite Hbuilt.
            destruct (decide (n ∈ names)) as [Hn | Hn].
            + rewrite decide_True by (apply Hmem; auto). reflexivity.
            + destruct (decide (n = m)) as [-> | Hne].
              * rewrite decide_True by (apply Hmem; auto).
                symmetry. exact Hres.
              * rewrite decide_False; [reflexivity |].
                intros Hn'. apply Hmem in Hn'. destruct Hn'; congruence.
          - intros n. cbn [sent]. rewrite occurrences_snoc, Hsent.
            destruct (decide (m = n)) as [<- | Hne].
            + rewrite Ht, occurrences_snoc, decide_True by reflexivity.
              reflexivity.
            + destruct (truthy (answer n)).
              * destruct (decide (n ∈ names)) as [Hn | Hn].
                -- rewrite decide_True by (apply Hmem; auto). lia.
                -- rewrite decide_False; [lia |].
                   intros Hn'. apply Hmem in Hn'. destruct Hn'; congruence.
              * rewrite occurrences_snoc, decide_False by exact Hne. lia. }
        destruct (answer m); eexists; (split; [reflexivity | exact Hafter]).
Qed.

(** X11. With a resolver that answers by name alone,
    [create_company_ticker_map] returns, and the mapping it builds holds
    exactly the taxonomy names with a non-empty answer, each with that
    answer.  A name that resolves is sent to the resolver once however often
    it is listed; a name that does not is sent again at every listing,
    because the skip looks at the mapping being built, which holds resolved
    names only. *)
Theorem create_company_ticker_map_by_name (c : St)
        (market_data : list Sector) :
  reachable c ->
  exists st',
    create_company_ticker_map lookup_symbol c market_data = Ok st' /\
    (forall n, built st' !! n
               = if decide (n ∈ all_names market_data)
                 then resolved answer n else None) /\
    (forall n, truthy (answer n) = true ->
               occurrences n (sent st')
                 = if decide (n ∈ all_names market_data) then 1%nat else 0%nat) /\
    (forall n, truthy (answer n) = false ->
               occurrences n (sent st')
                 = occurrences n (all_names market_data)).
Proof.
  intros Hc. rewrite create_company_ticker_map_flat.
  destruct (create_loop_by_name c (all_companies market_data) Hc)
    as (st' & Hrun & _ & Hbuilt & Hsent).
  exists st'. split; [exact Hrun |]. split; [exact Hbuilt |].
  split; intros n Hn; rewrite Hsent, Hn; reflexivity.
Qed.

End CreateLoopByName.

Section LoopWitnesses.

Import ResolutionLoops TaxonomySpec.

Lemma knows_x_by_name (st : unit) (n : string) :
  True ->
  exists st',
    Samples.knows_x st n
      = Ok (if String.eqb n "X" then Some "XXX" else None, st') /\ True.
Proof. intros _. exists st. split; [reflexivity | exact I]. Qed.

Lemma create_company_ticker_map_by_name_witness :
  exists st',
    create_company_ticker_map Samples.knows_x tt MoreSamples.repeated
      = Ok st' /\
    built st' !! "X" = Some (VStr "XXX") /\
    built st' !! "Q" = None /\
    occurrences "X" (sent st') = 1%nat /\
    occurrences "Q" (sent st') = 2%nat.
Proof.
  destruct (create_company_ticker_map_by_name Samples.knows_x
              (fun n => if String.eqb n "X" then Some "XXX" else None)
              (fun _ => True) knows_x_by_name tt MoreSamples.repeated I)
    as (st' & Hrun & Hbuilt & Hyes & Hno).
  exists st'. split; [exact Hrun |].
  split; [rewrite Hbuilt; reflexivity |].
  split; [rewrite Hbuilt; reflexivity |].
  split; [rewrite Hyes; reflexivity | rewrite Hno; reflexivity].
Defined.

Lemma create_company_ticker_map_within_taxonomy_witness :
  exists st',
    create_company_ticker_map Samples.knows_x tt MoreSamples.repeated
      = Ok st' /\
    Z.of_nat (size (built st')) <= 4 /\
    Z.of_nat (length (sent st')) <= 4.
Proof.
  destruct (create_company_ticker_map_returns Samples.knows_x
              (fun st n => ex_intro _ _ eq_refl) tt MoreSamples.repeated)
    as (st' & Hrun).
  exists st'. split; [exact Hrun |].
  destruct (create_company_ticker_map_within_taxonomy Samples.knows_x tt
              MoreSamples.repeated st' Hrun) as (_ & _ & Hsize & Hcalls).
  auto.
Defined.

Lemma process_unmapped_companies_merge_keeps_prior_witness :
  exists run merged,
    process_unmapped_companies Samples.knows_x tt Samples.xy
                               {[ "Y" := VNull ]} = Ok run /\
    updated_mappings run = Some merged /\
    merged !! "Y" = Some VNull /\
    dom merged = dom ({[ "Y" := VNull ]} : gmap string MapVal)
                   ∪ dom (new_mappings run).
Proof.
  assert (Hrun : process_unmapped_companies Samples.knows_x tt Samples.xy
                   {[ "Y" := VNull ]}
                 = Ok {| new_mappings := {[ "X" := VStr "XXX" ]};
                         updated_mappings :=
                           Some ({[ "X" := VStr "XXX" ]} ∪ {[ "Y" := VNull ]});
                         resolver_calls := ["X"];
                         client_after := tt |})
    by (vm_compute; reflexivity).
  eexists _, _. split; [exact Hrun |]. split; [reflexivity |].
  destruct (process_unmapped_companies_merge_keeps_prior Samples.knows_x tt
              Samples.xy {[ "Y" := VNull ]} _ Hrun) as (_ & _ & Hmerged).
  destruct (Hmerged _ eq_refl) as (Hprior & _ & Hdom).
  split; [apply Hprior, lookup_singleton_eq | exact Hdom].
Defined.

End LoopWitnesses.


(** ** The latest mapping file *)

Section LatestFacts.

Import FileUtils ArtifactSpec.

Variable w : World.

Lemma glob_mapping_files_spec (p : string) :
  p ∈ glob_mapping_files w <->
  is_Some (files w !! p) /\ is_mapping_file p = true.
Proof.
  unfold glob_mapping_files.
  change (fun p0 : string =>
            PyStr.startswith p0 "company_ticker_map" &&
            PyStr.endswith p0 ".json" && (23 <=? String.length p0)%nat = true)
    with (fun p0 : string => is_mapping_file p0 = true).
  rewrite list_elem_of_filter.
  change (map fst (map_to_list (files w))) with ((map_to_list (files w)).*1).
  rewrite list_elem_of_fmap. split.
  - intros [Hm ([q f] & -> & Hin)]. split; [| exact Hm].
    apply elem_of_map_to_list in Hin. cbn. eauto.
  - intros [[f Hf] Hm]. split; [exact Hm |].
    exists (p, f). split; [reflexivity |]. apply elem_of_map_to_list, Hf.
Qed.

Lemma max_by_mtime_spec (rest : list string) :
  forall best,
    max_by_mtime w best rest ∈ best :: rest /\
    forall p, p ∈ best :: rest ->
              getmtime w p <= getmtime w (max_by_mtime w best rest).
Proof.
  induction rest as [| q rest IH]; intros best.
  - cbn. split; [apply list_elem_of_here |].
    intros p Hp. apply list_elem_of_singleton in Hp. subst. lia.
  - cbn [max_by_mtime].
    destruct (Z.ltb_spec (getmtime w best) (getmtime w q)) as [Hlt | Hge].
    + destruct (IH q) as [Hin Hmax]. split.
      * apply list_elem_of_further, Hin.
      * intros p Hp. apply elem_of_cons in Hp. destruct Hp as [-> | Hp].
        -- specialize (Hmax q (list_elem_of_here _ _)). lia.
        -- apply Hmax, Hp.
    + destruct (IH best) as [Hin Hmax]. split.
      * apply elem_of_cons in Hin. destruct Hin as [-> | Hin].
        -- apply list_elem_of_here.
        -- do 2 apply list_elem_of_further. exact Hin.
      * intros p Hp. apply elem_of_cons in Hp. destruct Hp as [-> | Hp].
        -- apply Hmax, list_elem_of_here.
        -- apply elem_of_cons in Hp. destruct Hp as [-> | Hp].
           ++ specialize (Hmax best (list_elem_of_here _ _)). lia.
           ++ apply Hmax, list_elem_of_further, Hp.
Qed.

(** A file strictly newer than all the others is the one picked. *)
Lemma max_by_mtime_newest (p : string) (rest : list string) :
  forall best,
    p ∈ best :: rest ->
    (forall q, q ∈ best :: rest -> q <> p -> getmtime w q < getmtime w p) ->
    max_by_mtime w best rest = p.
Proof.
  induction rest as [| q rest IH]; intros best Hin Hnewest.
  - apply list_elem_of_singleton in Hin. subst. reflexivity.
  - cbn [max_by_mtime].
    apply elem_of_cons in Hin.
    destruct (Z.ltb_spec (getmtime w best) (getmtime w q)) as [Hlt | Hge].
    + apply IH.
      * destruct Hin as [Heq | Hin]; [| exact Hin]. subst best.
        destruct (decide (q = p)) as [-> | Hne]; [lia |].
        specialize (Hnewest q (list_elem_of_further _ _ _ (list_elem_of_here _ _))
                            Hne). lia.
      * intros q' Hq'. apply Hnewest, list_elem_of_further, Hq'.
    + apply IH.
      * destruct Hin as [Heq | Hin]; [subst best; apply list_elem_of_here |].
        apply elem_of_cons in Hin. destruct Hin as [Heq | Hin].
        -- subst q. destruct (decide (best = p)) as [-> | Hne];
             [apply list_elem_of_here |].
           specialize (Hnewest best (list_elem_of_here _ _) Hne). lia.
        -- apply list_elem_of_further, Hin.
      * intros q' Hq'. apply Hnewest.
        apply elem_of_cons in Hq'. destruct Hq' as [-> | Hq'].
        -- apply list_elem_of_here.
        -- do 2 apply list_elem_of_further. exact Hq'.
Qed.

(** X13. [get_latest_mapping_file] answers [(None, None)] when no file of
    the directory matches [company_ticker_map*.json].  Otherwise it looks at
    a matching file whose modification time no other matching file exceeds:
    it returns that file with its parsed content, or [(None, None)] when
    that file does not parse, however many older artifacts do. *)
Theorem get_latest_mapping_file_newest :
  ((forall p, is_Some (files w !! p) -> is_mapping_file p = false) ->
   get_latest_mapping_file w = (None, None)) /\
  ((exists p, is_Some (files w !! p) /\ is_mapping_file p = true) ->
   exists latest f,
     files w !! latest = Some f /\
     is_mapping_file latest = true /\
     (forall p g, files w !! p = Some g -> is_mapping_file p = true ->
                  mtime g <= mtime f) /\
     get_latest_mapping_file w
       = match body f with
         | Unparsable => (None, None)
         | contents => (Some latest, Some contents)
         end).
Proof.
  unfold get_latest_mapping_file. split.
  - intros Hnone.
    destruct (glob_mapping_files w) as [| p rest] eqn:Hglob; [reflexivity |].
    assert (Hp : p ∈ glob_mapping_files w)
      by (rewrite Hglob; apply list_elem_of_here).
    apply glob_mapping_files_spec in Hp. destruct Hp as [Hex Hm].
    rewrite (Hnone p Hex) in Hm. discriminate.
  - intros (p0 & Hex0 & Hm0).
    destruct (glob_mapping_files w) as [| p rest] eqn:Hglob.
    { assert (Hin : p0 ∈ glob_mapping_files w)
        by (apply glob_mapping_files_spec; auto).
      rewrite Hglob in Hin. apply elem_of_nil in Hin. destruct Hin. }
    destruct (max_by_mtime_spec rest p) as [Hin Hmax].
    set (latest := max_by_mtime w p rest) in *.
    rewrite <- Hglob in Hin. apply glob_mapping_files_spec in Hin.
    destruct Hin as [[f Hf] Hm].
    exists latest, f. split; [exact Hf |]. split; [exact Hm |]. split.
    + intros q g Hq Hqm.
      assert (Hqin : q ∈ p :: rest).
      { rewrite <- Hglob. apply glob_mapping_files_spec. eauto. }
      specialize (Hmax q Hqin). unfold getmtime in Hmax.
      rewrite Hq, Hf in Hmax. exact Hmax.
    + rewrite Hf. destruct f as [t [md mp | secs |]]; reflexivity.
Qed.

End LatestFacts.

Section NumberedNames.

Import ArtifactSpec MappingStoreSpec.

Lemma string_app_cons (c : ascii) (s1 s2 : string) :
  String c s1 ++ s2 = String c (s1 ++ s2).
Proof. reflexivity. Qed.

Lemma string_length_app (s1 s2 : string) :
  String.length (s1 ++ s2) = (String.length s1 + String.length s2)%nat.
Proof.
  induction s1 as [| c s1 IH]; [reflexivity |].
  rewrite string_app_cons. cbn [String.length]. rewrite IH. reflexivity.
Qed.

Lemma string_app_assoc (s1 s2 s3 : string) :
  (s1 ++ s2) ++ s3 = s1 ++ (s2 ++ s3).
Proof.
  induction s1 as [| c s1 IH]; [reflexivity |].
  rewrite !string_app_cons, IH. reflexivity.
Qed.

Lemma prefix_app (p s : string) : String.prefix p (p ++ s) = true.
Proof.
  induction p as [| c p IH]; [destruct s; reflexivity |].
  rewrite string_app_cons. cbn [String.prefix].
  destruct (ascii_dec c c); [exact IH | congruence].
Qed.

Lemma substring_whole (p : string) : String.substring 0 (String.length p) p = p.
Proof.
  induction p as [| c p IH]; [reflexivity |].
  cbn [String.length String.substring]. rewrite IH. reflexivity.
Qed.

Lemma substring_app_tail (s p : string) :
  String.substring (String.length s) (String.length p) (s ++ p) = p.
Proof.
  induction s as [| c s IH]; [apply substring_whole |].
  rewrite string_app_cons. cbn [String.length String.substring]. exact IH.
Qed.

Lemma endswith_app (s p : string) : PyStr.endswith (s ++ p) p = true.
Proof.
  unfold PyStr.endswith. rewrite string_length_app.
  replace (String.length s + String.length p - String.length p)%nat
    with (String.length s) by lia.
  rewrite substring_app_tail, String.eqb_refl.
  apply andb_true_iff. split; [apply Nat.leb_le; lia | reflexivity].
Qed.

(** Every name of the numbered sequence of the default base is matched by
    the glob. *)
Lemma numbered_is_mapping_file (k : nat) :
  is_mapping_file (numbered "company_ticker_map.json" k) = true.
Proof.
  unfold numbered. destruct (k =? 1)%nat; [reflexivity |].
  change (OsPath.splitext "company_ticker_map.json")
    with ("company_ticker_map", ".json").
  unfold candidate, is_mapping_file, PyStr.startswith.
  rewrite prefix_app.
  rewrite <- !string_app_assoc, endswith_app, !string_length_app.
  cbn [andb]. apply Nat.leb_le. cbn. lia.
Qed.

End NumberedNames.

Section SaveThenLoad.

Import FileUtils ArtifactSpec MappingStoreSpec.

Lemma latest_after_write (w : World) (f : string) (b : FileBody) :
  is_mapping_file f = true ->
  (forall p g, files w !! p = Some g -> is_mapping_file p = true -> p <> f ->
               mtime g < clock w) ->
  get_latest_mapping_file (write_file w f b)
    = match b with
      | Unparsable => (None, None)
      | contents => (Some f, Some contents)
      end.
Proof.
  intros Hm Hnewest. set (w' := write_file w f b).
  assert (Hf : files w' !! f = Some {| mtime := clock w; body := b |})
    by apply lookup_insert_eq.
  assert (Hin : f ∈ glob_mapping_files w')
    by (apply glob_mapping_files_spec; eauto).
  unfold get_latest_mapping_file.
  destruct (glob_mapping_files w') as [| p rest] eqn:Hglob;
    [apply elem_of_nil in Hin; destruct Hin |].
  rewrite (max_by_mtime_newest w' f rest p Hin).
  - rewrite Hf. destruct b; reflexivity.
  - intros q Hq Hne. rewrite <- Hglob in Hq.
    apply glob_mapping_files_spec in Hq. destruct Hq as [[g Hg] Hqm].
    unfold getmtime. rewrite Hf, Hg. cbn [mtime].
    unfold w' in Hg. cbn [write_file files] in Hg.
    rewrite lookup_insert_ne in Hg by congruence.
    exact (Hnewest q g Hg Hqm Hne).
Qed.

(** X14. An artifact saved under the default base name is what the next
    [get_latest_mapping_file] returns, with the mappings as saved, provided
    every mapping file already there was modified before the save:
    [file_utils.save_mappings] is read back with [total_companies]
    recomputed, [yf_lookup.save_mappings] with the metadata as given. *)
Theorem save_mappings_then_get_latest (w : World)
        (mappings : list (string * MapVal)) (metadata : gmap string MetaVal) :
  (forall p g, files w !! p = Some g -> is_mapping_file p = true ->
               mtime g < clock w) ->
  (exists w' f,
      save_mappings w mappings metadata "company_ticker_map.json"
        = Ok (w', f) /\
      get_latest_mapping_file w'
        = (Some f,
           Some (MappingArtifact
                   (<["total_companies" := MNum (get_total_companies w)]>
                      metadata)
                   mappings))) /\
  (exists w' f,
      YfLookup.save_mappings w mappings metadata "company_ticker_map.json"
        = Ok (w', f) /\
      get_latest_mapping_file w'
        = (Some f, Some (MappingArtifact metadata mappings))).
Proof.
  intros Holder.
  destruct (get_next_available_filename_first_free w "company_ticker_map.json")
    as (k & _ & Hnext & _ & _).
  split.
  - unfold save_mappings. rewrite Hnext. cbn [bind].
    eexists _, _. split; [reflexivity |].
    rewrite latest_after_write; [reflexivity | apply numbered_is_mapping_file |].
    intros p g Hp Hm _. exact (Holder p g Hp Hm).
  - unfold YfLookup.save_mappings.
    rewrite yf_get_next_available_filename_same, Hnext. cbn [bind].
    eexists _, _. split; [reflexivity |].
    rewrite latest_after_write; [reflexivity | apply numbered_is_mapping_file |].
    intros p g Hp Hm _. exact (Holder p g Hp Hm).
Qed.

End SaveThenLoad.

Section ArtifactWitnesses.

Import FileUtils ArtifactSpec.

Lemma tik_dir_mapping_files_older (p : string) (g : File) :
  files Samples.tik_dir !! p = Some g -> is_mapping_file p = true ->
  mtime g < clock Samples.tik_dir.
Proof.
  unfold Samples.tik_dir. cbn [files clock]. intros Hp _.
  apply lookup_insert_Some in Hp. destruct Hp as [[_ <-] | [_ Hp]].
  - cbn. lia.
  - apply lookup_insert_Some in Hp. destruct Hp as [[_ <-] | [_ Hp]].
    + cbn. lia.
    + rewrite lookup_empty in Hp. discriminate.
Qed.

Lemma get_latest_mapping_file_newest_witness :
  get_latest_mapping_file Samples.with_taxonomy = (None, None) /\
  exists latest f,
    files Samples.tik_dir !! latest = Some f /\
    is_mapping_file latest = true /\
    (forall p g, files Samples.tik_dir !! p = Some g ->
                 is_mapping_file p = true -> mtime g <= mtime f) /\
    get_latest_mapping_file Samples.tik_dir
      = match body f with
        | Unparsable => (None, None)
        | contents => (Some latest, Some contents)
        end.
Proof.
  split.
  - destruct (get_latest_mapping_file_newest Samples.with_taxonomy) as [Hnone _].
    apply Hnone. intros p [g Hg].
    unfold Samples.with_taxonomy in Hg. cbn [files] in Hg.
    apply lookup_singleton_Some in Hg. destruct Hg as [<- _].
    vm_compute. reflexivity.
  - destruct (get_latest_mapping_file_newest Samples.tik_dir) as [_ Hsome].
    apply Hsome. exists "company_ticker_map.json". split.
    + unfold Samples.tik_dir. cbn [files]. rewrite lookup_insert_eq. eauto.
    + vm_compute. reflexivity.
Defined.

Lemma save_mappings_then_get_latest_witness :
  (exists w' f,
      save_mappings Samples.tik_dir [("A", VStr "TIK")] ∅
                    "company_ticker_map.json" = Ok (w', f) /\
      get_latest_mapping_file w'
        = (Some f,
           Some (MappingArtifact
                   (<["total_companies" :=
                        MNum (get_total_companies Samples.tik_dir)]> ∅)
                   [("A", VStr "TIK")]))) /\
  (exists w' f,
      YfLookup.save_mappings Samples.tik_dir [("A", VStr "TIK")] ∅
                             "company_ticker_map.json" = Ok (w', f) /\
      get_latest_mapping_file w'
        = (Some f, Some (MappingArtifact ∅ [("A", VStr "TIK")]))).
Proof.
  apply (save_mappings_then_get_latest Samples.tik_dir [("A", VStr "TIK")] ∅).
  exact tik_dir_mapping_files_older.
Defined.

End ArtifactWitnesses.

(** ** Symbols of an artifact *)

Section SymbolCollections.

Import Utils ArtifactSpec.

Lemma truthy_nonempty (s : string) : truthy (Some s) = true <-> s <> "".
Proof. destruct s; cbn; split; intros H; congruence. Qed.

Lemma ticker_symbols_fold (mappings : list (string * MapVal))
      (acc : gset string) (s : string) :
  s ∈ fold_left
        (fun symbols '(_, value) =>
           match value with
           | VObj (Some s) _ => symbols ∪ {[ s ]}
           | VObj None _ => symbols
           | VStr s => symbols ∪ {[ s ]}
           | VNull => symbols
           end)
        mappings acc
  <-> s ∈ acc \/ exists c v, (c, v) ∈ mappings /\ symbol_of v = Some s.
Proof.
  revert acc. induction mappings as [| [c v] l IH]; intros acc; cbn [fold_left].
  - split; [auto |]. intros [H | (c & v & Hin & _)]; [exact H |].
    apply elem_of_nil in Hin. destruct Hin.
  - rewrite IH. split.
    + intros [Hacc | (c' & v' & Hin & Hs)].
      * destruct v as [| t | [t |] notes]; try (left; exact Hacc);
          (apply elem_of_union in Hacc; destruct Hacc as [Hacc | Hacc];
           [left; exact Hacc |]);
          apply elem_of_singleton in Hacc; subst t;
          right; eexists c, _; (split; [left | reflexivity]).
      * right. exists c', v'. split; [right; exact Hin | exact Hs].
    + intros [Hacc | (c' & v' & Hin & Hs)].
      * left. destruct v as [| t | [t |] notes]; try exact Hacc;
          apply elem_of_union; left; exact Hacc.
      * apply elem_of_cons in Hin. destruct Hin as [Heq | Hin].
        -- inversion Heq; subst c' v'. left.
           destruct v as [| t | [t |] notes]; cbn in Hs; try discriminate;
             inversion Hs; subst t; apply elem_of_union; right;
             apply elem_of_singleton; reflexivity.
        -- right. exists c', v'. split; assumption.
Qed.

Lemma collect_symbols_fold (mappings : list (string * MapVal))
      (acc : gset string) (s : string) :
  s ∈ fold_left
        (fun symbols '(_, mapping) =>
           match mapping with
           | VObj sym _ =>
               match sym with
               | Some s => if truthy sym then symbols ∪ {[ s ]} else symbols
               | None => symbols
               end
           | VStr s => if truthy (Some s) then symbols ∪ {[ s ]} else symbols
           | VNull => symbols
           end)
        mappings acc
  <-> s ∈ acc \/
      (s <> "" /\ exists c v, (c, v) ∈ mappings /\ symbol_of v = Some s).
Proof.
  revert acc. induction mappings as [| [c v] l IH]; intros acc; cbn [fold_left].
  - split; [auto |]. intros [H | (_ & c & v & Hin & _)]; [exact H |].
    apply elem_of_nil in Hin. destruct Hin.
  - rewrite IH. split.
    + intros [Hacc | (Hne & c' & v' & Hin & Hs)].
      * destruct v as [| t | [t |] notes]; try (left; exact Hacc);
          (destruct (truthy (Some t)) eqn:Ht; [| left; exact Hacc]);
          (apply elem_of_union in Hacc; destruct Hacc as [Hacc | Hacc];
           [left; exact Hacc |]);
          apply elem_of_singleton in Hacc; subst t;
          right; (split; [apply truthy_nonempty, Ht |]);
          eexists c, _; (split; [left | reflexivity]).
      * right. split; [exact Hne |].
        exists c', v'. split; [right; exact Hin | exact Hs].
    + intros [Hacc | (Hne & c' & v' & Hin & Hs)].
      * left. destruct v as [| t | [t |] notes]; try exact Hacc;
          (destruct (truthy (Some t)); [| exact Hacc]);
          apply elem_of_union; left; exact Hacc.
      * apply elem_of_cons in Hin. destruct Hin as [Heq | Hin].
        -- inversion Heq; subst c' v'. left.
           destruct v as [| t | [t |] notes]; cbn in Hs; try discriminate;
             inversion Hs; subst t;
             rewrite (proj2 (truthy_nonempty s) Hne);
             apply elem_of_union; right; apply elem_of_singleton; reflexivity.
        -- right. split; [exact Hne |]. exists c', v'. split; assumption.
Qed.

Lemma size_add_le (X : gset string) (s : string) :
  (size (X ∪ {[ s ]}) <= S (size X))%nat.
Proof.
  rewrite size_union_alt.
  assert (size (({[ s ]} : gset string) ∖ X) <= 1)%nat; [| lia].
  rewrite <- (size_singleton (C := gset string) s).
  apply subseteq_size, subseteq_difference_l. reflexivity.
Qed.

Lemma ticker_symbols_size (mappings : list (string * MapVal))
      (acc : gset string) :
  (size (fold_left
           (fun symbols '(_, value) =>
              match value with
              | VObj (Some s) _ => symbols ∪ {[ s ]}
              | VObj None _ => symbols
              | VStr s => symbols ∪ {[ s ]}
              | VNull => symbols
              end)
           mappings acc)
   <= size acc + length mappings)%nat.
Proof.
  revert acc. induction mappings as [| [c v] l IH]; intros acc;
    cbn [fold_left length]; [lia |].
  etransitivity; [apply IH |].
  destruct v as [| t | [t |] notes]; try lia;
    pose proof (size_add_le acc t); lia.
Qed.

Lemma ticker_symbols_elem (mappings : list (string * MapVal)) (s : string) :
  s ∈ ticker_symbols mappings <->
  exists c v, (c, v) ∈ mappings /\ symbol_of v = Some s.
Proof.
  unfold ticker_symbols. rewrite ticker_symbols_fold.
  split; [intros [H | H]; [apply elem_of_empty in H; destruct H | exact H]
         | auto].
Qed.

(** X15. The symbols [count_unique_tickers] counts are exactly the symbols
    that some entry of the artifact carries, as a plain string or as the
    [sym] of an object; [fetch_all_company_profiles] collects the same
    symbols except the empty string; and the count never exceeds the number
    of entries. *)
Theorem symbol_collections_agree_up_to_empty
        (mappings : list (string * MapVal)) :
  (forall s, s ∈ ticker_symbols mappings <->
             exists c v, (c, v) ∈ mappings /\ symbol_of v = Some s) /\
  CompanyInfo.collect_symbols mappings = ticker_symbols mappings ∖ {[ "" ]} /\
  (size (ticker_symbols mappings) <= length mappings)%nat.
Proof.
  split; [apply ticker_symbols_elem |]. split.
  - apply set_eq. intros s. unfold CompanyInfo.collect_symbols.
    rewrite collect_symbols_fold, elem_of_difference, ticker_symbols_elem,
      elem_of_singleton.
    split.
    + intros [H | [Hne H]]; [apply elem_of_empty in H; destruct H |].
      split; assumption.
    + intros [H Hne]. right. split; assumption.
  - unfold ticker_symbols.
    etransitivity; [apply ticker_symbols_size |].
    rewrite size_empty. lia.
Qed.

End SymbolCollections.

(** ** More on the duplicate clean-up *)

Section CleanupFacts.

Import Utils DuplicateSpec ArtifactSpec MappingStoreSpec.

Lemma read_taxonomy_total_get_total (w : World) (total : Z) :
  read_taxonomy_total w = Ok total -> FileUtils.get_total_companies w = total.
Proof.
  unfold read_taxonomy_total, FileUtils.get_total_companies.
  destruct (files w !! "enriched_market_matrix.json") as [[t [| |]] |];
    intros H; try discriminate; congruence.
Qed.

Lemma save_mappings_written (w : World) (mappings : list (string * MapVal))
      (metadata : gmap string MetaVal) :
  exists k,
    FileUtils.save_mappings w mappings metadata FileUtils.default_base
      = Ok (write_file w (numbered FileUtils.default_base k)
              (MappingArtifact
                 (<["total_companies" :=
                      MNum (FileUtils.get_total_companies w)]> metadata)
                 mappings),
            numbered FileUtils.default_base k) /\
    files w !! numbered FileUtils.default_base k = None.
Proof.
  destruct (get_next_available_filename_first_free w FileUtils.default_base)
    as (k & _ & Hnext & Hfree & _).
  exists k. unfold FileUtils.save_mappings. rewrite Hnext. cbn [bind].
  split; [reflexivity | apply not_elem_of_dom, Hfree].
Qed.

Lemma dict_set_fresh {V : Type} (d : list (string * V)) (k : string) (v : V) :
  k ∉ map fst d -> PyDict.set d k v = (d ++ [(k, v)])%list.
Proof.
  induction d as [| [k0 v0] d IH]; intros Hfresh; [reflexivity |].
  cbn [PyDict.set app]. cbn [map fst] in Hfresh.
  apply not_elem_of_cons in Hfresh. destruct Hfresh as [Hne Hfresh].
  destruct (String.eqb_spec k0 k); [congruence |].
  rewrite IH by exact Hfresh. reflexivity.
Qed.

(** With one entry per company, the annotated mapping lists the companies
    in the order of the original. *)
Lemma annotate_in_order (m0 : list (string * option string))
      (t2c : gmap string (list string)) :
  (forall ticker, t2c !! ticker = nonempty (sharing m0 ticker)) ->
  forall m : list (string * option string),
    NoDup (map fst m) ->
    annotate (find_duplicates t2c) (legacy m) = map (annotated_entry m0) m.
Proof.
  intros Hall m. unfold annotate.
  induction m as [| [c0 t0] m IH] using rev_ind; intros Hnodup;
    [reflexivity |].
  rewrite legacy_snoc, fold_left_app. cbn [fold_left].
  rewrite (annotate_company_entry m0 t2c _ c0 t0 Hall).
  rewrite map_app in Hnodup. cbn [map fst] in Hnodup.
  apply NoDup_app in Hnodup. destruct Hnodup as (Hm & Hfresh & _).
  rewrite IH by exact Hm. rewrite map_app. cbn [map].
  apply dict_set_fresh. rewrite map_map. cbn [annotated_entry fst].
  intros Hin. apply (Hfresh c0 Hin). apply list_elem_of_singleton. reflexivity.
Qed.

Lemma sharing_nonempty (m : list (string * option string)) (s : string) :
  sharing m s <> [] <-> exists c, (c, Some s) ∈ m.
Proof.
  unfold sharing. split.
  - intros Hne.
    destruct (filter (fun item => item.2 = Some s) m) as [| [c t] l] eqn:Hf;
      [contradiction |].
    assert (Hin : (c, t) ∈ filter (fun item => item.2 = Some s) m)
      by (rewrite Hf; left).
    apply list_elem_of_filter in Hin. destruct Hin as [Ht Hin].
    cbn in Ht. subst t. exists c. exact Hin.
  - intros [c Hin] Hnil.
    assert (Hf : (c, Some s) ∈ filter (fun item => item.2 = Some s) m)
      by (apply list_elem_of_filter; split; [reflexivity | exact Hin]).
    destruct (filter (fun item => item.2 = Some s) m);
      [apply elem_of_nil in Hf; exact Hf | discriminate].
Qed.

Lemma legacy_symbols (m : list (string * option string)) (s : string) :
  (exists c v, (c, v) ∈ legacy m /\ symbol_of v = Some s) <->
  exists c, (c, Some s) ∈ m.
Proof.
  unfold legacy. split.
  - intros (c & v & Hin & Hs).
    apply list_elem_of_fmap in Hin. destruct Hin as ([c' t] & Heq & Hin).
    cbn [fst snd] in Heq. inversion Heq; subst c v.
    destruct t as [t |]; cbn in Hs; [| discriminate].
    inversion Hs; subst t. exists c'. exact Hin.
  - intros [c Hin]. exists c, (VStr s). split; [| reflexivity].
    apply list_elem_of_fmap. exists (c, Some s). split; [reflexivity | exact Hin].
Qed.

(** The grouping dictionary has one key per distinct ticker. *)
Lemma grouping_size (m : list (string * option string))
      (t2c : gmap string (list string)) :
  (forall ticker, t2c !! ticker = nonempty (sharing m ticker)) ->
  size t2c = size (ticker_symbols (legacy m)).
Proof.
  intros Hall. rewrite <- size_dom. f_equal. apply set_eq. intros s.
  rewrite ticker_symbols_elem, legacy_symbols, <- sharing_nonempty, elem_of_dom, Hall.
  destruct (sharing m s); cbn; split.
  - intros [x Hx]. discriminate.
  - intros H. contradiction.
  - intros _. discriminate.
  - intros _. eauto.
Qed.

Local Abbreviation is_object :=
  (fun item : string * MapVal => exists sym notes, snd item = VObj sym notes).

Lemma dict_set_objects (d : list (string * MapVal)) (k : string)
      (sym notes : option string) :
  Forall is_object d -> Forall is_object (PyDict.set d k (VObj sym notes)).
Proof.
  induction d as [| [k0 v0] d IH]; intros Hd; cbn [PyDict.set].
  - constructor; [cbn; eauto | constructor].
  - apply Forall_cons in Hd. destruct Hd as [H0 Hd].
    destruct (String.eqb k0 k); constructor; auto. cbn. eauto.
Qed.

Lemma dict_set_nonempty {V : Type} (d : list (string * V)) (k : string)
      (v : V) :
  PyDict.set d k v <> [].
Proof.
  destruct d as [| [k0 v0] d]; cbn; [| destruct (String.eqb k0 k)];
    discriminate.
Qed.

Lemma annotate_company_objects (duplicates : gmap string (list string))
      (d : list (string * MapVal)) (item : string * MapVal) :
  Forall is_object d ->
  Forall is_object (annotate_company duplicates d item) /\
  annotate_company duplicates d item <> [].
Proof.
  intros Hd. unfold annotate_company.
  destruct (sym_of item.2 ≫= (fun t => duplicates !! t));
    (split; [apply dict_set_objects, Hd | apply dict_set_nonempty]).
Qed.

Lemma annotate_objects (duplicates : gmap string (list string))
      (l : list (string * MapVal)) (acc : list (string * MapVal)) :
  Forall is_object acc ->
  Forall is_object (fold_left (annotate_company duplicates) l acc) /\
  (l <> [] ->
   fold_left (annotate_company duplicates) l acc <> []).
Proof.
  revert acc. induction l as [| x l IH]; intros acc Hacc; cbn [fold_left].
  - split; [exact Hacc | congruence].
  - destruct (annotate_company_objects duplicates acc x Hacc) as [Hobj Hne].
    destruct (IH _ Hobj) as [Hall Hrest]. split; [exact Hall |].
    intros _. destruct l as [| y l]; [exact Hne |].
    apply Hrest. discriminate.
Qed.

(** The grouping raises [TypeError] on any non-empty annotated mapping. *)
Lemma group_by_ticker_annotated (duplicates : gmap string (list string))
      (mappings : list (string * MapVal)) :
  mappings <> [] ->
  group_by_ticker (annotate duplicates mappings) = Raise TypeError.
Proof.
  intros Hne. unfold annotate.
  destruct (annotate_objects duplicates mappings [] (Forall_nil_2 _))
    as [Hobj Hnonempty].
  specialize (Hnonempty Hne).
  destruct (fold_left (annotate_company duplicates) mappings [])
    as [| [c v] post]; [contradiction |].
  apply Forall_cons in Hobj. destruct Hobj as [(sym & notes & Hv) _].
  cbn in Hv. subst v.
  apply (group_by_ticker_object [] post c sym notes).
Qed.

End CleanupFacts.

Section CleanupMore.

Import Utils DuplicateSpec ArtifactSpec MappingStoreSpec.

(** X16. With a latest artifact of plain values, [clean_duplicate_tickers]
    reads the taxonomy before it looks for duplicates: without the taxonomy
    file it raises [FileNotFoundError] whatever the mapping holds.  With the
    taxonomy and no ticker shared by two companies it reports that there is
    nothing to clean and leaves the directory exactly as it was. *)
Theorem clean_duplicate_tickers_nothing_to_clean
        (w : World) (latest : string) (md : gmap string MetaVal)
        (m : list (string * option string)) :
  FileUtils.get_latest_mapping_file w
    = (Some latest, Some (MappingArtifact md (legacy m))) ->
  (files w !! "enriched_market_matrix.json" = None ->
   clean_duplicate_tickers w = Raise FileNotFoundError) /\
  (forall total,
      read_taxonomy_total w = Ok total ->
      (forall ticker, (length (sharing m ticker) <= 1)%nat) ->
      clean_duplicate_tickers w = Ok (w, NoDuplicates)).
Proof.
  intros Hlatest. unfold clean_duplicate_tickers. rewrite Hlatest. split.
  - intros Hmissing. unfold read_taxonomy_total. rewrite Hmissing. reflexivity.
  - intros total Htotal Hsingle. rewrite Htotal. cbn [bind].
    destruct (group_by_ticker_sharing m) as (t2c & Hgroup & Hall).
    rewrite Hgroup. cbn [bind].
    destruct (decide (find_duplicates t2c = ∅)) as [_ | Hsome];
      [reflexivity |].
    exfalso. apply Hsome. apply map_empty. intros ticker.
    destruct (find_duplicates t2c !! ticker) as [cs |] eqn:Hcs;
      [| reflexivity].
    apply (duplicates_sharing m t2c Hall) in Hcs. destruct Hcs as [-> Hlen].
    specialize (Hsingle ticker). lia.
Qed.

(** X17. When some ticker is shared, the artifact [clean_duplicate_tickers]
    saves lists the companies of the original in their order, each with its
    ticker as [sym] and its note.  Its metadata names the original file,
    gives the taxonomy total, and gives as [mapped_companies] the number of
    distinct tickers, which is what [count_unique_tickers] answers on the
    original directory, not the number of companies that have a ticker. *)
Theorem clean_duplicate_tickers_output
        (w : World) (latest : string) (md : gmap string MetaVal)
        (m : list (string * option string)) (total : Z) :
  FileUtils.get_latest_mapping_file w
    = (Some latest, Some (MappingArtifact md (legacy m))) ->
  NoDup (map fst m) ->
  read_taxonomy_total w = Ok total ->
  (exists ticker, (1 < length (sharing m ticker))%nat) ->
  exists w' output_file duplicates,
    clean_duplicate_tickers w = Ok (w', Cleaned duplicates output_file) /\
    (body <$> files w' !! output_file)
      = Some (MappingArtifact
                (<["mapped_companies" :=
                     MNum (Z.of_nat (count_unique_tickers w))]>
                 (<["total_companies" := MNum total]>
                  (<["original_file" := MStr latest]>
                   (<["source" := MStr "duplicate_cleanup"]> ∅))))
                (map (annotated_entry m) m)).
Proof.
  intros Hlatest Hnodup Htotal [shared Hshared].
  unfold clean_duplicate_tickers, count_unique_tickers.
  rewrite Hlatest, Htotal. cbn [bind].
  destruct (group_by_ticker_sharing m) as (t2c & Hgroup & Hall).
  rewrite Hgroup. cbn [bind].
  destruct (decide (find_duplicates t2c = ∅)) as [Hnone | _].
  { exfalso.
    pose proof (proj2 (duplicates_sharing m t2c Hall shared (sharing m shared))
                      (conj eq_refl Hshared)) as Hfound.
    rewrite Hnone, lookup_empty in Hfound. discriminate. }
  match goal with
  | |- context [FileUtils.save_mappings w ?nm ?meta FileUtils.default_base] =>
      destruct (save_mappings_written w nm meta) as (k & Hrun & _);
      rewrite Hrun
  end.
  cbn [bind]. eexists _, _, _. split; [reflexivity |].
  cbn [write_file files]. rewrite lookup_insert_eq.
  cbn [fmap option_fmap option_map body].
  rewrite (read_taxonomy_total_get_total w total Htotal).
  rewrite (annotate_in_order m t2c Hall m Hnodup).
  rewrite (grouping_size m t2c Hall).
  reflexivity.
Qed.

(** X18. [clean_duplicate_tickers] cannot be run twice: when it has saved an
    annotated artifact, newer than every mapping file that was there, the
    next run finds that artifact as the latest and raises [TypeError] on
    its first entry, whose value is an object. *)
Theorem clean_duplicate_tickers_not_rerunnable
        (w : World) (latest : string) (md : gmap string MetaVal)
        (m : list (string * option string)) (total : Z) :
  FileUtils.get_latest_mapping_file w
    = (Some latest, Some (MappingArtifact md (legacy m))) ->
  read_taxonomy_total w = Ok total ->
  (exists ticker, (1 < length (sharing m ticker))%nat) ->
  (forall p g, files w !! p = Some g -> is_mapping_file p = true ->
               mtime g < clock w) ->
  exists w' output_file duplicates,
    clean_duplicate_tickers w = Ok (w', Cleaned duplicates output_file) /\
    clean_duplicate_tickers w' = Raise TypeError.
Proof.
  intros Hlatest Htotal [shared Hshared] Holder.
  assert (Hm : legacy m <> []).
  { destruct m; [cbn in Hshared; lia | discriminate]. }
  unfold clean_duplicate_tickers at 1.
  rewrite Hlatest, Htotal. cbn [bind].
  destruct (group_by_ticker_sharing m) as (t2c & Hgroup & Hall).
  rewrite Hgroup. cbn [bind].
  destruct (decide (find_duplicates t2c = ∅)) as [Hnone | _].
  { exfalso.
    pose proof (proj2 (duplicates_sharing m t2c Hall shared (sharing m shared))
                      (conj eq_refl Hshared)) as Hfound.
    rewrite Hnone, lookup_empty in Hfound. discriminate. }
  match goal with
  | |- context [FileUtils.save_mappings w ?nm ?meta FileUtils.default_base] =>
      destruct (save_mappings_written w nm meta) as (k & Hrun & _);
      rewrite Hrun
  end.
  cbn [bind]. eexists _, _, _. split; [reflexivity |].
  pose proof (numbered_is_mapping_file k) as Hname.
  change "company_ticker_map.json" with FileUtils.default_base in Hname.
  unfold clean_duplicate_tickers.
  rewrite latest_after_write;
    [| exact Hname | intros p g Hp Hpm _; exact (Holder p g Hp Hpm)].
  assert (Htotal' : forall b,
             read_taxonomy_total
               (write_file w (numbered FileUtils.default_base k) b)
             = Ok total).
  { intros b. rewrite <- Htotal. unfold read_taxonomy_total.
    cbn [write_file files]. rewrite lookup_insert_ne; [reflexivity |].
    intros Heq. rewrite Heq in Hname. vm_compute in Hname. discriminate. }
  rewrite Htotal'. cbn [bind].
  rewrite (group_by_ticker_annotated _ _ Hm). reflexivity.
Qed.

End CleanupMore.

Section CleanupWitnesses.

Import Utils DuplicateSpec ArtifactSpec.

Lemma distinct_mapping_single (ticker : string) :
  (length (sharing CleanupSamples.distinct_mapping ticker) <= 1)%nat.
Proof.
  unfold sharing, CleanupSamples.distinct_mapping.
  rewrite !filter_cons, filter_nil. cbn [snd].
  repeat case_decide; simplify_eq; cbn; lia.
Qed.

Lemma clean_duplicate_tickers_nothing_to_clean_witness :
  clean_duplicate_tickers Samples.first_artifact = Raise FileNotFoundError /\
  clean_duplicate_tickers CleanupSamples.distinct_dir
    = Ok (CleanupSamples.distinct_dir, NoDuplicates).
Proof.
  split.
  - destruct (clean_duplicate_tickers_nothing_to_clean
                Samples.first_artifact "company_ticker_map.json" ∅
                [("A", Some "TIK")]) as [Hmissing _];
      [vm_compute; reflexivity |].
    apply Hmissing. vm_compute. reflexivity.
  - destruct (clean_duplicate_tickers_nothing_to_clean
                CleanupSamples.distinct_dir "company_ticker_map.json" ∅
                CleanupSamples.distinct_mapping) as [_ Hclean];
      [vm_compute; reflexivity |].
    apply (Hclean 3); [vm_compute; reflexivity |].
    exact distinct_mapping_single.
Defined.

Lemma clean_duplicate_tickers_output_witness :
  exists w' output_file duplicates,
    clean_duplicate_tickers Samples.tik_dir
      = Ok (w', Cleaned duplicates output_file) /\
    (body <$> files w' !! output_file)
      = Some (MappingArtifact
                (<["mapped_companies" :=
                     MNum (Z.of_nat (count_unique_tickers Samples.tik_dir))]>
                 (<["total_companies" := MNum 3]>
                  (<["original_file" := MStr "company_ticker_map.json"]>
                   (<["source" := MStr "duplicate_cleanup"]> ∅))))
                (map (annotated_entry Samples.tik_mapping)
                     Samples.tik_mapping)).
Proof.
  apply (clean_duplicate_tickers_output Samples.tik_dir
           "company_ticker_map.json" ∅ Samples.tik_mapping 3).
  - vm_compute. reflexivity.
  - apply (bool_decide_unpack _). vm_compute. exact I.
  - vm_compute. reflexivity.
  - exists "TIK". vm_compute. lia.
Defined.

Lemma clean_duplicate_tickers_not_rerunnable_witness :
  exists w' output_file duplicates,
    clean_duplicate_tickers Samples.tik_dir
      = Ok (w', Cleaned duplicates output_file) /\
    clean_duplicate_tickers w' = Raise TypeError.
Proof.
  apply (clean_duplicate_tickers_not_rerunnable Samples.tik_dir
           "company_ticker_map.json" ∅ Samples.tik_mapping 3).
  - vm_compute. reflexivity.
  - vm_compute. reflexivity.
  - exists "TIK". vm_compute. lia.
  - exact tik_dir_mapping_files_older.
Defined.

End CleanupWitnesses.

(** ** Cleaning a company name for the AI provider *)

Section StripChars.

Import PyStrSep.

Variable chars : string.

Lemma lstrip_chars_sublist (s : string) :
  list_ascii_of_string (lstrip_chars chars s)
    `sublist_of` list_ascii_of_string s.
Proof.
  induction s as [| c s IH]; [constructor |].
  cbn [lstrip_chars]. destruct (among chars c); [| reflexivity].
  cbn [list_ascii_of_string]. apply sublist_cons, IH.
Qed.

Lemma rstrip_chars_sublist (s : string) :
  list_ascii_of_string (rstrip_chars chars s)
    `sublist_of` list_ascii_of_string s.
Proof.
  induction s as [| c s IH]; [constructor |].
  cbn [rstrip_chars list_ascii_of_string].
  destruct (rstrip_chars chars s) as [| c' r] eqn:Hr.
  - destruct (among chars c); cbn [list_ascii_of_string].
    + apply sublist_cons, IH.
    + apply sublist_skip, IH.
  - cbn [list_ascii_of_string] in *. apply sublist_skip, IH.
Qed.

Lemma strip_chars_sublist (s : string) :
  list_ascii_of_string (strip_chars chars s)
    `sublist_of` list_ascii_of_string s.
Proof.
  unfold strip_chars.
  etransitivity; [apply lstrip_chars_sublist | apply rstrip_chars_sublist].
Qed.

Lemma lstrip_chars_idempotent (s : string) :
  lstrip_chars chars (lstrip_chars chars s) = lstrip_chars chars s.
Proof.
  induction s as [| c s IH]; [reflexivity |].
  cbn [lstrip_chars]. destruct (among chars c) eqn:Hc; [exact IH |].
  cbn [lstrip_chars]. rewrite Hc. reflexivity.
Qed.

Lemma rstrip_chars_tail_fixed (c : ascii) (s : string) :
  rstrip_chars chars (String c s) = String c s -> rstrip_chars chars s = s.
Proof.
  cbn [rstrip_chars]. destruct (rstrip_chars chars s) as [| c' r] eqn:Hr.
  - destruct (among chars c); [discriminate |]. intros [= <-]. reflexivity.
  - intros [= <-]. reflexivity.
Qed.

Lemma rstrip_chars_idempotent (s : string) :
  rstrip_chars chars (rstrip_chars chars s) = rstrip_chars chars s.
Proof.
  induction s as [| c s IH]; [reflexivity |].
  cbn [rstrip_chars]. destruct (rstrip_chars chars s) as [| c' r] eqn:Hr.
  - destruct (among chars c) eqn:Hc; [reflexivity |].
    cbn [rstrip_chars]. rewrite Hc. reflexivity.
  - change (rstrip_chars chars (String c (String c' r)))
      with (match rstrip_chars chars (String c' r) with
            | "" => if among chars c then "" else String c ""
            | r0 => String c r0
            end).
    rewrite IH. reflexivity.
Qed.

Lemma lstrip_chars_keeps_rstrip_fixed (s : string) :
  rstrip_chars chars s = s ->
  rstrip_chars chars (lstrip_chars chars s) = lstrip_chars chars s.
Proof.
  induction s as [| c s IH]; [reflexivity |].
  intros Hfix. cbn [lstrip_chars]. destruct (among chars c); [| exact Hfix].
  apply IH, (rstrip_chars_tail_fixed c), Hfix.
Qed.

Lemma strip_chars_idempotent (s : string) :
  strip_chars chars (strip_chars chars s) = strip_chars chars s.
Proof.
  unfold strip_chars.
  rewrite (lstrip_chars_keeps_rstrip_fixed (rstrip_chars chars s))
    by apply rstrip_chars_idempotent.
  apply lstrip_chars_idempotent.
Qed.

Lemma string_length_chars (s : string) :
  String.length s = length (list_ascii_of_string s).
Proof. induction s as [| c s IH]; [reflexivity |]. cbn. rewrite IH. reflexivity. Qed.

(** A string that stripping leaves alone starts with a character that is
    kept. *)
Lemma lstrip_chars_fixed_head (c : ascii) (rest : string) :
  lstrip_chars chars (String c rest) = String c rest -> among chars c = false.
Proof.
  cbn [lstrip_chars]. destruct (among chars c); [| reflexivity].
  intros Hfix. pose proof (sublist_length _ _ (lstrip_chars_sublist rest)) as Hlen.
  rewrite Hfix in Hlen. cbn [list_ascii_of_string length] in Hlen. lia.
Qed.

Lemma rstrip_chars_snoc (front : string) (c : ascii) :
  among chars c = true ->
  rstrip_chars chars (front ++ String c "") = rstrip_chars chars front.
Proof.
  intros Hc. induction front as [| a front IH].
  - change (rstrip_chars chars (String c "") = rstrip_chars chars "").
    cbn [rstrip_chars]. rewrite Hc. reflexivity.
  - rewrite string_app_cons. cbn [rstrip_chars]. rewrite IH. reflexivity.
Qed.

(** ... and ends with one. *)
Lemma rstrip_chars_fixed_last (front : string) (c : ascii) :
  rstrip_chars chars (front ++ String c "") = front ++ String c "" ->
  among chars c = false.
Proof.
  destruct (among chars c) eqn:Hc; [| reflexivity].
  rewrite (rstrip_chars_snoc front c Hc). intros Hfix.
  pose proof (sublist_length _ _ (rstrip_chars_sublist front)) as Hlen.
  rewrite Hfix, <- !string_length_chars, string_length_app in Hlen.
  cbn [String.length] in Hlen. lia.
Qed.

Lemma strip_chars_fixed (s : string) :
  lstrip_chars chars (strip_chars chars s) = strip_chars chars s /\
  rstrip_chars chars (strip_chars chars s) = strip_chars chars s.
Proof.
  unfold strip_chars. split; [apply lstrip_chars_idempotent |].
  apply lstrip_chars_keeps_rstrip_fixed, rstrip_chars_idempotent.
Qed.

End StripChars.

Section CleanCompanyName.

Import PyStrSep Perplexity.

Lemma prefix_paren (c : ascii) (s : string) :
  String.prefix "(" (String c s) = bool_decide (c = "("%char).
Proof.
  cbn [String.prefix]. destruct (ascii_dec "(" c) as [<- | Hne].
  - destruct s; reflexivity.
  - rewrite bool_decide_eq_false_2 by congruence. reflexivity.
Qed.

Lemma contains_paren (s : string) :
  PyStr.contains "(" s = false <->
  Forall (fun a => a <> "("%char) (list_ascii_of_string s).
Proof.
  induction s as [| c s IH]; cbn [PyStr.contains list_ascii_of_string].
  - split; [constructor | reflexivity].
  - rewrite prefix_paren, orb_false_iff, IH, Forall_cons.
    rewrite bool_decide_eq_false. reflexivity.
Qed.

(** The first piece of a split at ["("] extends what was read by the
    characters before the first ["("]. *)
Lemma split_paren_head (s cur : string) :
  exists piece,
    hd EmptyString (split_from "(" 0 cur s) = cur ++ piece /\
    Forall (fun a => a <> "("%char) (list_ascii_of_string piece) /\
    list_ascii_of_string piece `sublist_of` list_ascii_of_string s.
Proof.
  revert cur. induction s as [| c s IH]; intros cur.
  - exists "". cbn. split; [| split; constructor].
    clear. induction cur as [| a cur IH]; [reflexivity |].
    rewrite string_app_cons, <- IH. reflexivity.
  - cbn [split_from]. rewrite prefix_paren.
    destruct (decide (c = "("%char)) as [-> | Hne].
    + rewrite bool_decide_eq_true_2 by reflexivity. cbn [hd].
      exists "". split; [| split].
      * clear. induction cur as [| a cur IH]; [reflexivity |].
        rewrite string_app_cons, <- IH. reflexivity.
      * constructor.
      * apply sublist_nil_l.
    + rewrite bool_decide_eq_false_2 by exact Hne.
      destruct (IH (cur ++ String c "")) as (piece & Hhd & Hno & Hsub).
      exists (String c piece). split; [| split].
      * rewrite Hhd, string_app_assoc. reflexivity.
      * cbn [list_ascii_of_string]. constructor; assumption.
      * cbn [list_ascii_of_string]. apply sublist_skip, Hsub.
Qed.

Lemma clean_company_name_cut (name : string) :
  exists cut,
    clean_company_name name = strip_chars " ,.;" cut /\
    Forall (fun a => a <> "("%char) (list_ascii_of_string cut) /\
    list_ascii_of_string cut `sublist_of` list_ascii_of_string name.
Proof.
  unfold clean_company_name.
  destruct (PyStr.contains "(" name) eqn:Hparen.
  - destruct (split_paren_head name "") as (piece & Hhd & Hno & Hsub).
    exists piece. unfold split_sep. rewrite Hhd. auto.
  - exists name. split; [reflexivity |]. split; [| reflexivity].
    apply contains_paren, Hparen.
Qed.

Lemma clean_company_name_no_paren (name : string) :
  PyStr.contains "(" (clean_company_name name) = false.
Proof.
  destruct (clean_company_name_cut name) as (cut & Hclean & Hno & _).
  apply contains_paren. rewrite Hclean.
  exact (Forall_sublist _ _ _ (strip_chars_sublist _ _) Hno).
Qed.

Lemma clean_company_name_idempotent (name : string) :
  clean_company_name (clean_company_name name) = clean_company_name name.
Proof.
  destruct (clean_company_name_cut name) as (cut & Hclean & _ & _).
  unfold clean_company_name at 1.
  rewrite clean_company_name_no_paren, Hclean.
  apply strip_chars_idempotent.
Qed.

(** X19. [clean_company_name] only drops characters; what it returns holds
    no opening parenthesis and neither starts nor ends with a blank, a
    comma, a period or a semicolon; cleaning a cleaned name changes
    nothing, which is what lets [get_tickers_from_perplexity] find a
    company by the name it has sent. *)
Theorem clean_company_name_shape (name : string) :
  list_ascii_of_string (clean_company_name name)
    `sublist_of` list_ascii_of_string name /\
  PyStr.contains "(" (clean_company_name name) = false /\
  (forall c rest, clean_company_name name = String c rest ->
                  among " ,.;" c = false) /\
  (forall front c, clean_company_name name = front ++ String c "" ->
                   among " ,.;" c = false) /\
  clean_company_name (clean_company_name name) = clean_company_name name.
Proof.
  destruct (clean_company_name_cut name) as (cut & Hclean & Hno & Hsub).
  destruct (strip_chars_fixed " ,.;" cut) as [Hl Hr].
  split; [| split; [| split; [| split]]].
  - rewrite Hclean. etransitivity; [apply strip_chars_sublist | exact Hsub].
  - apply clean_company_name_no_paren.
  - intros c rest Heq. apply (lstrip_chars_fixed_head " ,.;" c rest).
    rewrite <- Heq, Hclean. exact Hl.
  - intros front c Heq. apply (rstrip_chars_fixed_last " ,.;" front c).
    rewrite <- Heq, Hclean. exact Hr.
  - apply clean_company_name_idempotent.
Qed.

End CleanCompanyName.

Section TickerNames.

Import ProcessMarketData Perplexity PerplexitySpec.

(** The name map sends a cleaned name to the last company that has it. *)
Lemma name_map_lookup (companies : list UnmappedCompany) (k : string) :
  name_map (clean_companies companies) !! k
    = unmapped_name <$>
        last (filter (fun c => clean_company_name (unmapped_name c) = k)
                     companies).
Proof.
  unfold name_map, clean_companies.
  induction companies as [| c companies IH] using rev_ind; [reflexivity |].
  rewrite map_app, fold_left_app, filter_app. cbn [map fold_left].
  cbn [cleaned_name original_name].
  rewrite clean_company_name_idempotent, filter_cons, filter_nil.
  destruct (decide (clean_company_name (unmapped_name c) = k)) as [Heq | Hne].
  - rewrite Heq, lookup_insert_eq, last_snoc. reflexivity.
  - rewrite lookup_insert_ne by exact Hne. rewrite app_nil_r. exact IH.
Qed.

Lemma final_results_all (names : gmap string string)
      (items : list TickerResult) :
  final_results names (map Some items)
    = Some (map (fun item =>
                   {| result_name :=
                        default (result_name item)
                                (names !! result_name item);
                      result_sym := result_sym item;
                      result_notes := result_notes item |})
                items).
Proof.
  induction items as [| item items IH]; [reflexivity |].
  cbn [map final_results]. rewrite IH. reflexivity.
Qed.

Lemma filter_none {A : Type} (P : A -> Prop) `{forall x, Decision (P x)}
      (l : list A) :
  (forall x, x ∈ l -> ~ P x) -> filter P l = [].
Proof.
  induction l as [| a l IH]; intros Hnone; [reflexivity |].
  rewrite filter_cons, decide_False by (apply Hnone; left).
  apply IH. intros x Hx. apply Hnone. right. exact Hx.
Qed.

Lemma filter_same_key {A B : Type} `{EqDecision B} (f : A -> B)
      (l : list A) (x : A) :
  NoDup (map f l) -> x ∈ l -> filter (fun y => f y = f x) l = [x].
Proof.
  induction l as [| a l IH]; intros Hnodup Hin.
  - apply elem_of_nil in Hin. destruct Hin.
  - cbn [map] in Hnodup. apply NoDup_cons in Hnodup.
    destruct Hnodup as [Hfresh Hnodup]. rewrite filter_cons.
    apply elem_of_cons in Hin. destruct Hin as [-> | Hin].
    + rewrite decide_True by reflexivity. f_equal.
      apply filter_none. intros y Hy Heq. apply Hfresh. rewrite <- Heq.
      apply list_elem_of_fmap. exists y. split; [reflexivity | exact Hy].
    + rewrite decide_False; [apply IH; assumption |].
      intros Heq. apply Hfresh. rewrite Heq.
      apply list_elem_of_fmap. exists x. split; [reflexivity | exact Hin].
Qed.

(** X20. When the provider answers with a JSON array of well-formed items,
    [get_tickers_from_perplexity] returns one result per item, in order,
    with [sym] and [notes] untouched.  An item whose name is the cleaned
    name of a company of the batch is given the original name of the last
    such company, so with pairwise different cleaned names every company is
    found again under its original name; an item with any other name keeps
    the name the provider gave. *)
Theorem get_tickers_from_perplexity_restores_names
        (loads : string -> option Json) (chat : string -> option string)
        (api_key : string) (companies : list UnmappedCompany)
        (response_text : string) (items : list TickerResult) :
  api_key <> "" ->
  chat ("Return ticker symbols for:" ++ PyStrSep.nl
          ++ company_list (clean_companies companies))
    = Some response_text ->
  loads (clean_json_response loads response_text)
    = Some (JsonArray (map Some items)) ->
  get_tickers_from_perplexity loads chat (Some api_key) companies
    = Ok (map (renamed companies) items) /\
  (NoDup (map (fun c => clean_company_name (unmapped_name c)) companies) ->
   forall c, c ∈ companies ->
     original_of companies (clean_company_name (unmapped_name c))
       = unmapped_name c) /\
  (forall k,
      k ∉ map (fun c => clean_company_name (unmapped_name c)) companies ->
      original_of companies k = k).
Proof.
  intros Hkey Hchat Hloads. split; [| split].
  - unfold get_tickers_from_perplexity.
    replace (truthy (Some api_key)) with true
      by (symmetry; apply truthy_nonempty, Hkey).
    cbn [negb]. rewrite Hchat, Hloads, final_results_all.
    unfold default at 1. cbn [from_option id]. f_equal.
    apply map_ext. intros item. unfold renamed, original_of.
    rewrite name_map_lookup.
    destruct (last _); reflexivity.
  - intros Hnodup c Hc. unfold original_of.
    rewrite (filter_same_key
               (fun c => clean_company_name (unmapped_name c))
               companies c Hnodup Hc).
    reflexivity.
  - intros k Hk. unfold original_of. rewrite filter_none; [reflexivity |].
    intros c Hc Heq. apply Hk. rewrite <- Heq.
    apply list_elem_of_fmap. exists c. split; [reflexivity | exact Hc].
Qed.

End TickerNames.

(** ** Unwrapping the provider's JSON *)

Section CleanJsonResponse.

Import PyStrSep Perplexity.

Variable loads : string -> option Json.

Lemma fenced_json_spec (part cleaned : string) :
  fenced_json loads part = Some cleaned ->
  (exists raw, cleaned = PyStr.strip raw) /\ valid loads cleaned = true.
Proof.
  unfold fenced_json.
  destruct (truthy (Some (PyStr.strip part))); [| discriminate].
  match goal with
  | |- context [valid loads (PyStr.strip ?x)] =>
      destruct (valid loads (PyStr.strip x)) eqn:Hvalid; [| discriminate];
      intros [= <-]; split; [exists x; reflexivity | exact Hvalid]
  end.
Qed.

Lemma first_fenced_json_spec (parts : list string) (cleaned : string) :
  first_fenced_json loads parts = Some cleaned ->
  (exists raw, cleaned = PyStr.strip raw) /\ valid loads cleaned = true.
Proof.
  induction parts as [| part parts IH]; [discriminate |].
  cbn [first_fenced_json].
  destruct (fenced_json loads part) as [c |] eqn:Hpart; [| exact IH].
  intros [= <-]. exact (fenced_json_spec part c Hpart).
Qed.

Lemma string_app_nil_l (s : string) : "" ++ s = s.
Proof. reflexivity. Qed.

Lemma string_app_nil_r (s : string) : s ++ "" = s.
Proof.
  induction s as [| c s IH]; [reflexivity |].
  rewrite string_app_cons, IH. reflexivity.
Qed.

Lemma chars_app (s1 s2 : string) :
  list_ascii_of_string (s1 ++ s2)
    = (list_ascii_of_string s1 ++ list_ascii_of_string s2)%list.
Proof.
  induction s1 as [| c s1 IH]; [reflexivity |].
  rewrite string_app_cons. cbn [list_ascii_of_string app]. rewrite IH.
  reflexivity.
Qed.

(** A piece without backticks is read up to the fence that follows. *)
Lemma split_fence_piece (piece rest cur : string) :
  Forall (fun a => a <> "`"%char) (list_ascii_of_string piece) ->
  split_from "```" 0 cur (piece ++ rest)
    = split_from "```" 0 (cur ++ piece) rest.
Proof.
  revert cur. induction piece as [| c piece IH]; intros cur Hno.
  - rewrite string_app_nil_l, string_app_nil_r. reflexivity.
  - cbn [list_ascii_of_string] in Hno. apply Forall_cons in Hno.
    destruct Hno as [Hc Hno].
    rewrite string_app_cons. cbn [split_from String.prefix].
    destruct (ascii_dec "`" c) as [Heq | _]; [congruence |].
    rewrite IH by exact Hno. rewrite string_app_assoc. reflexivity.
Qed.

Lemma split_fence (rest cur : string) :
  split_from "```" 0 cur ("```" ++ rest)
    = cur :: split_from "```" 0 "" rest.
Proof.
  pose proof (prefix_app "```" rest) as Hfence.
  change ("```" ++ rest) with (String "`" (String "`" (String "`" rest))) in *.
  change (split_from "```" 0 cur (String "`" (String "`" (String "`" rest))))
    with (if String.prefix "```" (String "`" (String "`" (String "`" rest)))
          then cur :: split_from "```" 0 "" rest
          else split_from "```" 0 (cur ++ "`")
                          (String "`" (String "`" rest))).
  rewrite Hfence. reflexivity.
Qed.

Lemma split_fence_end (cur : string) :
  split_from "```" 0 cur "```" = [cur; ""].
Proof. exact (split_fence "" cur). Qed.

Lemma contains_fence (rest : string) :
  PyStr.contains "```" ("```" ++ rest) = true.
Proof.
  pose proof (prefix_app "```" rest) as Hfence.
  change ("```" ++ rest) with (String "`" (String "`" (String "`" rest))) in *.
  cbn [PyStr.contains]. rewrite Hfence. reflexivity.
Qed.

Lemma rstrip_snoc_space (front : string) (c : ascii) :
  PyStr.is_space c = true ->
  PyStr.rstrip (front ++ String c "") = PyStr.rstrip front.
Proof.
  intros Hc. induction front as [| a front IH].
  - change (PyStr.rstrip (String c "") = PyStr.rstrip "").
    cbn [PyStr.rstrip]. rewrite Hc. reflexivity.
  - rewrite string_app_cons. cbn [PyStr.rstrip]. rewrite IH. reflexivity.
Qed.

Lemma rstrip_app_kept (front s : string) :
  PyStr.rstrip s <> "" ->
  PyStr.rstrip (front ++ s) = front ++ PyStr.rstrip s.
Proof.
  intros Hs. induction front as [| a front IH]; [reflexivity |].
  rewrite !string_app_cons. cbn [PyStr.rstrip]. rewrite IH.
  destruct (front ++ PyStr.rstrip s) eqn:Happ; [| reflexivity].
  exfalso. destruct front; [| rewrite string_app_cons in Happ; discriminate].
  rewrite string_app_nil_l in Happ. contradiction.
Qed.

Lemma strip_fixed_rstrip (body : string) :
  PyStr.strip body = body -> PyStr.rstrip body = body.
Proof.
  intros Hfix. rewrite <- Hfix at 1. unfold PyStr.strip.
  rewrite (lstrip_keeps_rstrip_fixed (PyStr.rstrip body))
    by apply rstrip_idempotent.
  exact Hfix.
Qed.

(** What the part between the fences of a tagged block yields. *)
Lemma fenced_json_tagged (body : string) :
  PyStr.strip body = body -> body <> "" -> valid loads body = true ->
  fenced_json loads ("json" ++ nl ++ body ++ nl) = Some body.
Proof.
  intros Hfix Hne Hvalid.
  assert (Hstrip : PyStr.strip ("json" ++ nl ++ body ++ nl)
                   = "json" ++ nl ++ body).
  { unfold PyStr.strip.
    replace ("json" ++ nl ++ body ++ nl) with (("json" ++ nl) ++ body ++ nl)
      by (rewrite string_app_assoc; reflexivity).
    unfold nl at 2. rewrite rstrip_app_kept.
    - rewrite (rstrip_snoc_space body "010"%char eq_refl), (strip_fixed_rstrip body Hfix).
      rewrite string_app_assoc. reflexivity.
    - rewrite (rstrip_snoc_space body "010"%char eq_refl), (strip_fixed_rstrip body Hfix).
      exact Hne. }
  assert (Htag : PyStr.startswith (PyStr.lower ("json" ++ nl ++ body))
                                  ("json" ++ nl) = true)
    by exact (prefix_app ("json" ++ nl) (PyStr.lower body)).
  unfold fenced_json. rewrite Hstrip, Htag.
  change (PyStrSep.slice_from 5 ("json" ++ nl ++ body)) with body.
  rewrite Hfix, Hvalid. reflexivity.
Qed.

(** X22. [clean_json_response] always returns a text without whitespace at
    its ends.  It is either the stripped response or, for a response with
    a code fence, a part that [json.loads] accepts; without a fence it is
    the stripped response.  A response that wraps a JSON text in a fenced
    block tagged [json] is unwrapped to that text. *)
Theorem clean_json_response_unwraps (response_text : string) :
  PyStr.strip (clean_json_response loads response_text)
    = clean_json_response loads response_text /\
  (clean_json_response loads response_text = PyStr.strip response_text \/
   (PyStr.contains "```" response_text = true /\
    valid loads (clean_json_response loads response_text) = true)) /\
  (PyStr.contains "```" response_text = false ->
   clean_json_response loads response_text = PyStr.strip response_text) /\
  (forall body,
      response_text = "```json" ++ nl ++ body ++ nl ++ "```" ->
      Forall (fun a => a <> "`"%char) (list_ascii_of_string body) ->
      PyStr.strip body = body -> body <> "" -> valid loads body = true ->
      clean_json_response loads response_text = body).
Proof.
  split; [| split; [| split]].
  - unfold clean_json_response.
    destruct (PyStr.contains "```" response_text);
      [| apply strip_idempotent].
    destruct (first_fenced_json loads _) as [cleaned |] eqn:Hfirst;
      [| apply strip_idempotent].
    destruct (first_fenced_json_spec _ _ Hfirst) as [[raw ->] _].
    apply strip_idempotent.
  - unfold clean_json_response.
    destruct (PyStr.contains "```" response_text); [| left; reflexivity].
    destruct (first_fenced_json loads _) as [cleaned |] eqn:Hfirst;
      [| left; reflexivity].
    right. split; [reflexivity |].
    exact (proj2 (first_fenced_json_spec _ _ Hfirst)).
  - intros Hnone. unfold clean_json_response. rewrite Hnone. reflexivity.
  - intros body -> Hno Hfix Hne Hvalid. unfold clean_json_response.
    replace ("```json" ++ nl ++ body ++ nl ++ "```")
      with ("```" ++ ("json" ++ nl ++ body ++ nl) ++ "```")
      by (rewrite !string_app_assoc; reflexivity).
    rewrite contains_fence.
    unfold split_sep. rewrite split_fence, split_fence_piece.
    + rewrite string_app_nil_l, split_fence_end.
      cbn [first_fenced_json].
      replace (fenced_json loads "") with (@None string) by reflexivity.
      rewrite (fenced_json_tagged body Hfix Hne Hvalid). reflexivity.
    + rewrite !chars_app. repeat apply Forall_app_2; try exact Hno;
        repeat constructor; discriminate.
Qed.

End CleanJsonResponse.

(** ** The batches of the Perplexity flow *)

Section Batches.

Import ProcessMarketData.

Context {A : Type}.

Lemma batches_concat (batch_size : nat) :
  (0 < batch_size)%nat ->
  forall (fuel : nat) (companies : list A),
    (length companies <= fuel)%nat ->
    concat (batches fuel batch_size companies) = companies.
Proof.
  intros Hpos. induction fuel as [| fuel IH]; intros companies Hlen.
  - destruct companies; [reflexivity | cbn in Hlen; lia].
  - cbn [batches]. destruct companies as [| c companies]; [reflexivity |].
    cbn [concat]. rewrite IH; [apply take_drop |].
    rewrite length_drop. cbn [length] in *. lia.
Qed.

Lemma batches_sizes (batch_size : nat) :
  (0 < batch_size)%nat ->
  forall (fuel : nat) (companies batch : list A),
    batch ∈ batches fuel batch_size companies ->
    (0 < length batch <= batch_size)%nat.
Proof.
  intros Hpos. induction fuel as [| fuel IH]; intros companies batch Hin.
  - apply elem_of_nil in Hin. destruct Hin.
  - cbn [batches] in Hin. destruct companies as [| c companies];
      [apply elem_of_nil in Hin; destruct Hin |].
    apply elem_of_cons in Hin. destruct Hin as [-> | Hin]; [| eauto].
    rewrite length_take. cbn [length]. lia.
Qed.

End Batches.

Section PerplexityMerge.

Import ProcessMarketData.

Variable get_tickers : list UnmappedCompany -> list TickerResult.

Lemma add_results_from (results : list TickerResult) :
  forall (m : gmap string MapVal) n v,
    add_results m results !! n = Some v ->
    m !! n = Some v \/
    exists r, r ∈ results /\ result_name r = n /\
              v = json_of_sym (result_sym r).
Proof.
  unfold add_results.
  induction results as [| r rs IH]; intros m n v Hv; [left; exact Hv |].
  cbn [fold_left] in Hv. apply IH in Hv.
  destruct Hv as [Hv | (r' & Hin & Hn & Hval)].
  - destruct (decide (result_name r = n)) as [Heq | Hne].
    + rewrite Heq, lookup_insert_eq in Hv. inversion Hv; subst v.
      right. exists r. split; [left | auto].
    + rewrite lookup_insert_ne in Hv by exact Hne. left. exact Hv.
  - right. exists r'. split; [right; exact Hin | auto].
Qed.

Lemma batches_from (bs : list (list UnmappedCompany)) :
  forall (m : gmap string MapVal) n v,
    fold_left (fun m batch => add_results m (get_tickers batch)) bs m !! n
      = Some v ->
    m !! n = Some v \/
    exists batch r, batch ∈ bs /\ r ∈ get_tickers batch /\
                    result_name r = n /\ v = json_of_sym (result_sym r).
Proof.
  induction bs as [| b bs IH]; intros m n v Hv; [left; exact Hv |].
  cbn [fold_left] in Hv. apply IH in Hv.
  destruct Hv as [Hv | (batch & r & Hin & Hr & Hn & Hval)].
  - apply add_results_from in Hv.
    destruct Hv as [Hv | (r & Hr & Hn & Hval)]; [left; exact Hv |].
    right. exists b, r. split; [left | auto].
  - right. exists batch, r. split; [right; exact Hin | auto].
Qed.

(** X21. [process_unmapped_with_perplexity] raises [ValueError] for a batch
    size of 0 ([range] refuses the step) and asks nothing for a negative
    one.  For a positive batch size the batches are non-empty, hold at most
    [batch_size] companies and make up the unmapped list in order; every
    new entry is the [sym] of a result the provider gave under that name;
    and the merge, built exactly when there is a new entry, prefers the new
    entry to the prior one: unlike the resolver loops, this flow does not
    skip names that already have a mapping. *)
Theorem process_unmapped_with_perplexity_batches
        (batch_size : Z) (companies : list UnmappedCompany)
        (existing : gmap string MapVal) :
  (batch_size = 0 ->
   process_unmapped_with_perplexity get_tickers batch_size companies existing
     = Raise ValueError) /\
  (batch_size < 0 ->
   process_unmapped_with_perplexity get_tickers batch_size companies existing
     = Ok (∅, None)) /\
  (0 < batch_size ->
   let bs := batches (length companies) (Z.to_nat batch_size) companies in
   concat bs = companies /\
   (forall batch, batch ∈ bs ->
                  0 < Z.of_nat (length batch) <= batch_size) /\
   exists new_mappings updated,
     process_unmapped_with_perplexity get_tickers batch_size companies
                                      existing
       = Ok (new_mappings, updated) /\
     (forall n v, new_mappings !! n = Some v ->
        exists batch r, batch ∈ bs /\ r ∈ get_tickers batch /\
                        result_name r = n /\
                        v = json_of_sym (result_sym r)) /\
     (updated = None <-> new_mappings = ∅) /\
     (forall merged, updated = Some merged ->
        forall n, merged !! n
                  = match new_mappings !! n with
                    | Some v => Some v
                    | None => existing !! n
                    end)).
Proof.
  unfold process_unmapped_with_perplexity. split; [| split].
  - intros ->. reflexivity.
  - intros Hneg. destruct (Z.eqb_spec batch_size 0); [lia |].
    destruct (Z.ltb_spec batch_size 0); [| lia].
    cbn [fold_left]. rewrite decide_True by reflexivity. reflexivity.
  - intros Hpos. destruct (Z.eqb_spec batch_size 0); [lia |].
    destruct (Z.ltb_spec batch_size 0); [lia |].
    set (bs := batches (length companies) (Z.to_nat batch_size) companies).
    split; [apply batches_concat; lia |]. split.
    { intros batch Hin.
      pose proof (batches_sizes (Z.to_nat batch_size) ltac:(lia) _ _ _ Hin).
      lia. }
    set (new_mappings :=
           fold_left (fun m batch => add_results m (get_tickers batch)) bs ∅).
    eexists new_mappings, _. split; [reflexivity |]. split; [| split].
    + intros name v Hv. apply batches_from in Hv.
      destruct Hv as [Hv | Hv]; [| exact Hv].
      rewrite lookup_empty in Hv. discriminate.
    + destruct (decide (new_mappings = ∅)); split; intros Hnone;
        congruence.
    + intros merged Hmerged name.
      destruct (decide (new_mappings = ∅)); [discriminate |].
      inversion Hmerged; subst merged.
      rewrite lookup_union.
      destruct (new_mappings !! name), (existing !! name); reflexivity.
Qed.

End PerplexityMerge.

Section PerplexityWitnesses.

Import ProcessMarketData PyStrSep Perplexity PerplexitySpec PerplexitySamples.

Lemma clean_company_name_shape_witness :
  among " ,.;" "A" = false /\ among " ,.;" "c" = false.
Proof.
  destruct (clean_company_name_shape "Alphabet Inc. (Class A),")
    as (_ & _ & Hfirst & Hlast & _).
  split.
  - apply (Hfirst "A"%char "lphabet Inc"). vm_compute. reflexivity.
  - apply (Hlast "Alphabet In" "c"%char). vm_compute. reflexivity.
Defined.

Lemma get_tickers_from_perplexity_restores_names_witness :
  get_tickers_from_perplexity sample_loads sample_chat (Some "key")
                              two_companies
    = Ok (map (renamed two_companies) answer_items).
Proof.
  destruct (get_tickers_from_perplexity_restores_names
              sample_loads sample_chat "key" two_companies answer_text
              answer_items) as [Hrun _].
  - discriminate.
  - reflexivity.
  - vm_compute. reflexivity.
  - exact Hrun.
Defined.

Lemma clean_json_response_unwraps_witness :
  clean_json_response sample_loads answer_text = "[...]".
Proof.
  destruct (clean_json_response_unwraps sample_loads answer_text)
    as (_ & _ & _ & Hunwrap).
  apply Hunwrap.
  - reflexivity.
  - apply (bool_decide_unpack _). vm_compute. exact I.
  - vm_compute. reflexivity.
  - discriminate.
  - vm_compute. reflexivity.
Defined.

Lemma process_unmapped_with_perplexity_batches_witness :
  process_unmapped_with_perplexity Samples.no_ticker 0
                                   [Samples.private_co] ∅
    = Raise ValueError /\
  process_unmapped_with_perplexity Samples.no_ticker (-1)
                                   [Samples.private_co] ∅
    = Ok (∅, None) /\
  concat (batches (length [Samples.private_co]) (Z.to_nat 20)
                  [Samples.private_co])
    = [Samples.private_co].
Proof.
  split; [| split].
  - destruct (process_unmapped_with_perplexity_batches Samples.no_ticker 0
                [Samples.private_co] ∅) as (Hzero & _ & _).
    apply Hzero. reflexivity.
  - destruct (process_unmapped_with_perplexity_batches Samples.no_ticker (-1)
                [Samples.private_co] ∅) as (_ & Hneg & _).
    apply Hneg. lia.
  - destruct (process_unmapped_with_perplexity_batches Samples.no_ticker 20
                [Samples.private_co] ∅) as (_ & _ & Hpos).
    destruct Hpos as (Hconcat & _); [lia | exact Hconcat].
Defined.

End PerplexityWitnesses.

(** ** Fetching the company profiles *)

Section FetchProfiles.

Import CompanyProfiles ProfileSpec.

Variable company_profile2 : string -> ProfileResponse.

Lemma get_company_profile_cases (self : CompanyInfo.CompanyInfoClient)
      (w : World) (symbol : string) :
  exists self' w',
    get_company_profile company_profile2 self w symbol
      = Ok (answer company_profile2 symbol, self', w') /\
    queries w' = (queries w ++ [symbol])%list /\
    files w' = files w /\ clock w <= clock w'.
Proof.
  unfold get_company_profile, CompanyInfo._wait_for_rate_limit, answer.
  destruct (wait_for_rate_limit_cases (CompanyInfo.limiter self) w)
    as (slept & calls & Hrun & Hcases).
  rewrite Hrun. cbn [bind].
  destruct (company_profile2 symbol) as [| [| item profile]];
    cbn; eexists _, _; (split; [reflexivity |]); cbn;
    (split; [reflexivity |]); (split; [reflexivity |]); lia.
Qed.

Lemma fetch_profiles_from (symbols : list string) :
  forall (profiles : gmap string (list (string * string)))
         (self : CompanyInfo.CompanyInfoClient) (w : World),
  exists profiles' self' w',
    fold_left (fetch_profile company_profile2) symbols (Ok (profiles, self, w))
      = Ok (profiles', self', w') /\
    queries w' = (queries w ++ symbols)%list /\
    files w' = files w /\ clock w <= clock w' /\
    forall s,
      profiles' !! s
        = if decide (s ∈ symbols)
          then match answer company_profile2 s with
               | Some p => Some p
               | None => profiles !! s
               end
          else profiles !! s.
Proof.
  induction symbols as [| symbol symbols IH]; intros profiles self w.
  - exists profiles, self, w. cbn [fold_left].
    split; [reflexivity |]. split; [rewrite app_nil_r; reflexivity |].
    split; [reflexivity |]. split; [lia |].
    intros s. rewrite decide_False by apply not_elem_of_nil. reflexivity.
  - cbn [fold_left]. unfold fetch_profile at 2. cbn [bind].
    destruct (get_company_profile_cases self w symbol)
      as (self1 & w1 & Hget & Hq1 & Hf1 & Hc1).
    rewrite Hget. cbn [bind].
    destruct (IH (match answer company_profile2 symbol with
                  | Some p => <[symbol := p]> profiles
                  | None => profiles
                  end) self1 w1)
      as (profiles' & self' & w' & Hrun & Hq & Hf & Hc & Hall).
    exists profiles', self', w'. split.
    { destruct (answer company_profile2 symbol); exact Hrun. }
    split; [rewrite Hq, Hq1, <- app_assoc; reflexivity |].
    split; [congruence |]. split; [lia |].
    intros s. rewrite Hall.
    destruct (decide (s = symbol)) as [-> | Hne].
    + rewrite (decide_True (P := symbol ∈ symbol :: symbols)) by left.
      destruct (answer company_profile2 symbol) as [p |] eqn:Hp.
      * rewrite lookup_insert_eq. destruct (decide (symbol ∈ symbols));
          reflexivity.
      * destruct (decide (symbol ∈ symbols)); reflexivity.
    + assert (Hsame : (match answer company_profile2 symbol with
                       | Some p => <[symbol := p]> profiles
                       | None => profiles
                       end) !! s = profiles !! s).
      { destruct (answer company_profile2 symbol);
          [apply lookup_insert_ne; congruence | reflexivity]. }
      rewrite Hsame.
      destruct (decide (s ∈ symbols)) as [Hin | Hnot].
      * rewrite decide_True by (right; exact Hin). reflexivity.
      * rewrite decide_False; [reflexivity |].
        intros Hin. apply elem_of_cons in Hin. destruct Hin; congruence.
Qed.

(** X23. Whatever the provider does, the loop of
    [fetch_all_company_profiles] returns.  It asks once for every symbol
    the set holds, in the order the set yields them, so never for an empty
    symbol and once only for a ticker that several companies share; it
    leaves the files alone; and [profiles] holds exactly the symbols for
    which the provider returned a non-empty profile, so [profiles_found]
    never exceeds [total_symbols]. *)
Theorem fetch_profiles_one_request_each
        (mappings : list (string * MapVal)) (order : list string)
        (self : CompanyInfo.CompanyInfoClient) (w : World) :
  order ≡ₚ elements (CompanyInfo.collect_symbols mappings) ->
  exists profiles self' w',
    fetch_profiles company_profile2 self w order = Ok (profiles, self', w') /\
    queries w' = (queries w ++ order)%list /\
    NoDup order /\ ("" ∉ order) /\
    length order = size (Utils.ticker_symbols mappings ∖ {[ "" ]}) /\
    files w' = files w /\ clock w <= clock w' /\
    (forall s, profiles !! s
               = if decide (s ∈ order) then answer company_profile2 s
                 else None) /\
    (size profiles <= length order)%nat.
Proof.
  intros Horder.
  destruct (fetch_profiles_from order ∅ self w)
    as (profiles & self' & w' & Hrun & Hq & Hf & Hc & Hall).
  assert (Hlookup : forall s, profiles !! s
                              = if decide (s ∈ order)
                                then answer company_profile2 s else None).
  { intros s. rewrite Hall, lookup_empty.
    destruct (decide (s ∈ order)); [| reflexivity].
    destruct (answer company_profile2 s); reflexivity. }
  assert (Hsymbols : CompanyInfo.collect_symbols mappings
                     = Utils.ticker_symbols mappings ∖ {[ "" ]}).
  { apply set_eq. intros s. unfold CompanyInfo.collect_symbols.
    rewrite collect_symbols_fold, elem_of_difference, ticker_symbols_elem,
      elem_of_singleton.
    split.
    - intros [H | [Hne H]]; [apply elem_of_empty in H; destruct H |].
      split; assumption.
    - intros [H Hne]. right. split; assumption. }
  exists profiles, self', w'. split; [exact Hrun |]. split; [exact Hq |].
  split; [rewrite Horder; apply NoDup_elements |]. split.
  { rewrite Horder, elem_of_elements, Hsymbols, elem_of_difference,
      elem_of_singleton. intros [_ Hne]. congruence. }
  split.
  { rewrite Horder, <- Hsymbols. reflexivity. }
  split; [exact Hf |]. split; [exact Hc |]. split; [exact Hlookup |].
  rewrite <- size_dom, <- (size_list_to_set (C := gset string) order)
    by (rewrite Horder; apply NoDup_elements).
  apply subseteq_size. intros s Hs. apply elem_of_dom in Hs.
  apply elem_of_list_to_set. rewrite Hlookup in Hs.
  destruct (decide (s ∈ order)); [assumption |]. destruct Hs; discriminate.
Qed.

End FetchProfiles.

Section FetchProfilesWitness.

Import CompanyProfiles ProfileSpec.

Lemma fetch_profiles_one_request_each_witness :
  exists profiles self' w',
    fetch_profiles ProfileSamples.knows_tik CompanyInfo.init Samples.tik_dir
      (elements (CompanyInfo.collect_symbols
                   (DuplicateSpec.legacy Samples.tik_mapping)))
      = Ok (profiles, self', w') /\
    queries w'
      = (queries Samples.tik_dir
           ++ elements (CompanyInfo.collect_symbols
                          (DuplicateSpec.legacy Samples.tik_mapping)))%list /\
    (size profiles
       <= length (elements (CompanyInfo.collect_symbols
                              (DuplicateSpec.legacy Samples.tik_mapping))))%nat.
Proof.
  destruct (fetch_profiles_one_request_each ProfileSamples.knows_tik
              (DuplicateSpec.legacy Samples.tik_mapping)
              (elements (CompanyInfo.collect_symbols
                           (DuplicateSpec.legacy Samples.tik_mapping)))
              CompanyInfo.init Samples.tik_dir)
    as (profiles & self' & w' & Hrun & Hq & _ & _ & _ & _ & _ & _ & Hsize).
  - reflexivity.
  - exists profiles, self', w'. auto.
Defined.

End FetchProfilesWitness.

(** ** The companies without a mapping *)

Section FindUnmappedFacts.

Import FindUnmapped FindUnmappedSpec ResolutionLoops.

Lemma fold_left_fmap {A B C : Type} (f : A -> B -> A) (g : C -> B)
      (l : list C) :
  forall a, fold_left f (map g l) a = fold_left (fun a x => f a (g x)) l a.
Proof.
  induction l as [| x l IH]; intros a; [reflexivity |]. cbn. apply IH.
Qed.

Lemma all_companies_listed (market_data : list Sector) :
  all_companies market_data
    = list_to_set (map unmapped_name (listed market_data)).
Proof.
  assert (Hfold : forall (l : list UnmappedCompany) (acc : gset string),
             fold_left (fun all c => all ∪ {[ unmapped_name c ]}) l acc
             = acc ∪ list_to_set (map unmapped_name l)).
  { induction l as [| c l IH]; intros acc; cbn [fold_left map list_to_set].
    - rewrite (right_id_L ∅ (∪)). reflexivity.
    - rewrite IH, (assoc_L (∪)). reflexivity. }
  rewrite <- (left_id_L ∅ (∪) (list_to_set _)), <- Hfold.
  unfold all_companies, listed.
  rewrite fold_left_flat_map. apply fold_left_same. intros acc sector.
  rewrite fold_left_flat_map. apply fold_left_same. intros acc' subsector.
  rewrite fold_left_fmap. reflexivity.
Qed.

Lemma unmapped_details_listed (market_data : list Sector)
      (unmapped : gset string) :
  unmapped_details market_data unmapped
    = filter (fun c => unmapped_name c ∈ unmapped) (listed market_data).
Proof.
  assert (Hfold : forall (l : list UnmappedCompany) acc,
             fold_left (fun details c =>
                          if decide (unmapped_name c ∈ unmapped)
                          then (details ++ [c])%list else details) l acc
             = (acc ++ filter (fun c => unmapped_name c ∈ unmapped) l)%list).
  { induction l as [| c l IH]; intros acc; cbn [fold_left].
    - rewrite filter_nil, app_nil_r. reflexivity.
    - rewrite IH, filter_cons.
      destruct (decide (unmapped_name c ∈ unmapped)); [| reflexivity].
      rewrite <- app_assoc. reflexivity. }
  rewrite <- (app_nil_l (filter _ _)), <- Hfold.
  unfold unmapped_details, listed.
  rewrite fold_left_flat_map. apply fold_left_same. intros acc sector.
  rewrite fold_left_flat_map. apply fold_left_same. intros acc' subsector.
  rewrite fold_left_fmap. reflexivity.
Qed.

Lemma filter_same {A : Type} (P Q : A -> Prop)
      `{forall x, Decision (P x)} `{forall x, Decision (Q x)} (l : list A) :
  (forall x, x ∈ l -> P x <-> Q x) -> filter P l = filter Q l.
Proof.
  induction l as [| a l IH]; intros Hiff; [reflexivity |].
  rewrite !filter_cons, IH
    by (intros x Hx; apply Hiff; right; exact Hx).
  pose proof (Hiff a (list_elem_of_here _ _)) as Ha.
  destruct (decide (P a)), (decide (Q a)); tauto || reflexivity.
Qed.

Lemma size_split (X Y : gset string) :
  (size (X ∖ Y) + size (X ∩ Y) = size X)%nat.
Proof.
  rewrite <- size_union.
  - f_equal. apply set_eq. intros x.
    rewrite elem_of_union, elem_of_difference, elem_of_intersection.
    destruct (decide (x ∈ Y)); tauto.
  - apply elem_of_disjoint. intros x Hd Hi.
    apply elem_of_difference in Hd. apply elem_of_intersection in Hi. tauto.
Qed.

(** Nothing is skipped when the loop runs over names that have no key in
    the prior mapping. *)
Lemma process_unmapped_all_sent {St : Type}
      (lookup_symbol : St -> string -> result (option string * St))
      (existing : gmap string MapVal) (l : list UnmappedCompany) :
  (forall c, c ∈ l -> existing !! unmapped_name c = None) ->
  forall acc st',
    fold_left (process_unmapped lookup_symbol existing) l acc = Ok st' ->
    exists st, acc = Ok st /\
               sent st' = (sent st ++ map unmapped_name l)%list.
Proof.
  induction l as [| c l IH]; intros Hnone acc st' Hrun.
  - exists st'. cbn in *. rewrite app_nil_r. auto.
  - cbn [fold_left] in Hrun.
    destruct (IH (fun c' Hc' => Hnone c' (list_elem_of_further _ _ _ Hc'))
                 _ _ Hrun) as (st1 & Hstep & Hsent).
    apply process_unmapped_effect in Hstep.
    destruct Hstep as (st & -> & [[Hsome _] | (_ & Hsent1 & _)]).
    + rewrite (Hnone c (list_elem_of_here _ _)) in Hsome.
      destruct Hsome; discriminate.
    + exists st. split; [reflexivity |].
      rewrite Hsent, Hsent1, <- app_assoc. reflexivity.
Qed.

(** X24. With the taxonomy and a latest mapping artifact in place,
    [find_unmapped_companies] returns the set of taxonomy names that are
    not keys of the mapping; a key counts as mapped whatever its value,
    [null] included.  The entries of its report are the taxonomy entries
    with such a name, in taxonomy order, a name listed twice giving two
    entries, so [unmapped_companies] may be smaller than the length of the
    list; the unmapped and the mapped names of the taxonomy add up to
    [total_companies].  A run of [process_unmapped_companies] over the
    reported entries, in any order, against the same mapping skips none of
    them. *)
Theorem find_unmapped_companies_report
        (w : World) (market_data : list Sector) (t : Z) (latest : string)
        (md : gmap string MetaVal) (mappings : list (string * MapVal)) :
  files w !! "enriched_market_matrix.json"
    = Some {| mtime := t; body := Taxonomy market_data |} ->
  FileUtils.get_latest_mapping_file w
    = (Some latest, Some (MappingArtifact md mappings)) ->
  exists unmapped report,
    find_unmapped_companies w = Ok (unmapped, report) /\
    (forall n, n ∈ unmapped <->
               n ∈ map unmapped_name (listed market_data) /\
               n ∉ map fst mappings) /\
    (forall c v, (c, v) ∈ mappings -> c ∉ unmapped) /\
    report_unmapped report
      = filter (fun c => unmapped_name c ∉ map fst mappings)
               (listed market_data) /\
    report_latest_mapping_file report = Some latest /\
    report_unmapped_companies report = size unmapped /\
    (size unmapped <= length (report_unmapped report))%nat /\
    (size unmapped
       + size (all_companies market_data
                 ∩ list_to_set (C := gset string) (map fst mappings))
     = report_total_companies report)%nat /\
    (forall (St : Type)
            (lookup_symbol : St -> string -> result (option string * St))
            (c : St) (unmapped_list : list UnmappedCompany)
            (run : UnmappedRun),
        unmapped_list ≡ₚ report_unmapped report ->
        process_unmapped_companies lookup_symbol c unmapped_list
                                   (list_to_map mappings) = Ok run ->
        resolver_calls run = map unmapped_name unmapped_list).
Proof.
  intros Htaxonomy Hlatest.
  unfold find_unmapped_companies. rewrite Htaxonomy, Hlatest.
  cbn [mapped_companies bind fst].
  set (mapped := list_to_set (map fst mappings) : gset string).
  set (all := all_companies market_data).
  assert (Hin : forall n, n ∈ all ∖ mapped <->
                          n ∈ map unmapped_name (listed market_data) /\
                          n ∉ map fst mappings).
  { intros n. unfold all, mapped.
    rewrite elem_of_difference, all_companies_listed, !elem_of_list_to_set.
    reflexivity. }
  assert (Hdetails : unmapped_details market_data (all ∖ mapped)
                     = filter (fun c => unmapped_name c ∉ map fst mappings)
                              (listed market_data)).
  { rewrite unmapped_details_listed. apply filter_same.
    intros c Hc. rewrite Hin. split; [tauto |].
    intros Hnot. split; [| exact Hnot].
    apply list_elem_of_fmap. exists c. split; [reflexivity | exact Hc]. }
  eexists _, _. split; [reflexivity |].
  cbn [report_unmapped report_latest_mapping_file report_unmapped_companies
       report_total_companies].
  split; [exact Hin |]. split.
  { intros c v Hcv Hc. apply Hin in Hc. destruct Hc as [_ Hc]. apply Hc.
    apply list_elem_of_fmap. exists (c, v). split; [reflexivity | exact Hcv]. }
  split; [exact Hdetails |]. split; [reflexivity |]. split; [reflexivity |].
  split.
  { rewrite Hdetails.
    rewrite <- (length_fmap unmapped_name).
    etransitivity; [| apply size_list_to_set_le].
    apply subseteq_size. intros n Hn. apply elem_of_list_to_set.
    apply Hin in Hn. destruct Hn as [Hlisted Hnot].
    apply list_elem_of_fmap in Hlisted. destruct Hlisted as (c & -> & Hc).
    apply list_elem_of_fmap. exists c. split; [reflexivity |].
    apply list_elem_of_filter. split; assumption. }
  split; [apply size_split |].
  intros St lookup_symbol c unmapped_list run Hperm Hrun.
  unfold process_unmapped_companies in Hrun.
  destruct (fold_left _ unmapped_list _) as [st | e |] eqn:Hloop;
    try discriminate.
  cbn [bind] in Hrun. inversion Hrun; subst run. cbn [resolver_calls].
  destruct (process_unmapped_all_sent lookup_symbol (list_to_map mappings)
              unmapped_list) with (acc := Ok {| built := ∅; client := c;
                                                sent := [] |}) (st' := st)
    as (st0 & Hst0 & Hsent); [| exact Hloop |].
  - intros company Hcompany. rewrite Hperm, Hdetails in Hcompany.
    apply list_elem_of_filter in Hcompany. destruct Hcompany as [Hnot _].
    apply not_elem_of_list_to_map_1. exact Hnot.
  - inversion Hst0; subst st0. exact Hsent.
Qed.

End FindUnmappedFacts.

Section FindUnmappedWitness.

Import FindUnmapped FindUnmappedSpec.

Lemma find_unmapped_companies_report_witness :
  exists unmapped report,
    find_unmapped_companies CleanupSamples.distinct_dir
      = Ok (unmapped, report) /\
    report_unmapped report
      = filter (fun c => unmapped_name c
                           ∉ map fst (DuplicateSpec.legacy
                                        CleanupSamples.distinct_mapping))
               (listed Samples.three_companies) /\
    report_unmapped_companies report = size unmapped.
Proof.
  destruct (find_unmapped_companies_report CleanupSamples.distinct_dir
              Samples.three_companies 100 "company_ticker_map.json" ∅
              (DuplicateSpec.legacy CleanupSamples.distinct_mapping))
    as (unmapped & report & Hrun & _ & _ & Hlist & _ & Hcount & _).
  - vm_compute. reflexivity.
  - vm_compute. reflexivity.
  - exists unmapped, report. auto.
Defined.

End FindUnmappedWitness.

(** ** Resolving the unmapped companies when no artifact exists yet *)

Section FirstUnmappedRun.

Import ResolutionLoops UnmappedScripts.

Variable isoformat : Z -> string.

Lemma yf_resolver_by_name (ticker_info : string -> YfClient.TickerInfo)
      (st : YfClient.YFinanceClient * World) (n : string) :
  True ->
  exists st',
    yf_resolver ticker_info st n
      = Ok (fst (YfClient.resolve ticker_info n), st') /\ True.
Proof.
  intros _. destruct st as [self w].
  unfold yf_resolver, YfClient.lookup_symbol, YfClient._wait_for_rate_limit.
  cbn [fst snd].
  destruct (wait_for_rate_limit_returns (YfClient.limiter self) w)
    as (l' & w' & ->).
  cbn [bind]. destruct (YfClient.resolve ticker_info n) as [found requests].
  cbn [bind fst]. eauto.
Qed.

(** The outcome of the loop over a resolver that answers by name, started
    without prior mapping. *)
Lemma first_run_by_name {St : Type}
      (lookup_symbol : St -> string -> result (option string * St))
      (answer : string -> option string) (reachable : St -> Prop) :
  (forall st n, reachable st ->
     exists st', lookup_symbol st n = Ok (answer n, st') /\ reachable st') ->
  forall (c : St) (unmapped : list UnmappedCompany),
    reachable c ->
    exists run,
      process_unmapped_companies lookup_symbol c unmapped ∅ = Ok run /\
      ((exists co, co ∈ unmapped /\
                   truthy (answer (unmapped_name co)) = true) ->
       exists merged, updated_mappings run = Some merged) /\
      ((forall co, co ∈ unmapped ->
                   truthy (answer (unmapped_name co)) = false) ->
       updated_mappings run = None).
Proof.
  intros Hname c unmapped Hc.
  destruct (unmapped_loop_deterministic lookup_symbol answer reachable Hname
              ∅ unmapped {| built := ∅; client := c; sent := [] |} Hc)
    as (st' & Hrun & _ & _ & Hsome & Hnone).
  unfold process_unmapped_companies. rewrite Hrun. cbn [bind].
  eexists. split; [reflexivity |]. cbn [updated_mappings]. split.
  - intros (co & Hin & Hfound).
    destruct (decide (built st' = ∅)) as [Hempty | _]; [| eauto].
    pose proof (Hsome co Hin (lookup_empty _) Hfound) as Hbuilt.
    rewrite Hempty, lookup_empty in Hbuilt. destruct Hbuilt; discriminate.
  - intros Hall. rewrite decide_True; [reflexivity |].
    apply Hnone. intros co Hin _. apply Hall, Hin.
Qed.

(** X25. When no mapping artifact exists yet, the two scripts differ as
    soon as one listed company resolves.  [process_unmapped_companies] of
    financials.py has made every lookup when it subscripts the missing
    [ticker_data] and raises [TypeError]: nothing is saved.  That of
    yf_lookup.py saves the new mappings, with the number of mappings
    written as [total_companies].  When no company resolves both return
    without saving. *)
Theorem process_unmapped_companies_without_artifact
        (symbol_lookup : string -> Financials.LookupResponse)
        (ticker_info : string -> YfClient.TickerInfo)
        (api_key : string) (w : World) (unmapped : list UnmappedCompany) :
  api_key <> "" ->
  FileUtils.get_latest_mapping_file w = (None, None) ->
  ((exists co, co ∈ unmapped /\
      truthy (Financials.finnhub_answer symbol_lookup (unmapped_name co))
        = true) ->
   financials_process_unmapped_companies isoformat (Some api_key)
                                         symbol_lookup w unmapped
     = Raise TypeError) /\
  ((forall co, co ∈ unmapped ->
      truthy (Financials.finnhub_answer symbol_lookup (unmapped_name co))
        = false) ->
   exists w1,
     financials_process_unmapped_companies isoformat (Some api_key)
                                           symbol_lookup w unmapped
       = Ok (w1, None)) /\
  ((exists co, co ∈ unmapped /\
      truthy (fst (YfClient.resolve ticker_info (unmapped_name co))) = true) ->
   exists w2 output_file metadata updated,
     yf_process_unmapped_companies isoformat ticker_info w unmapped
       = Ok (w2, Some output_file) /\
     (body <$> files w2 !! output_file)
       = Some (MappingArtifact metadata updated) /\
     metadata !! "total_companies"
       = Some (MNum (Z.of_nat (length updated))) /\
     metadata !! "mapped_companies"
       = Some (MNum (Z.of_nat (length updated)))) /\
  ((forall co, co ∈ unmapped ->
      truthy (fst (YfClient.resolve ticker_info (unmapped_name co))) = false) ->
   exists w1,
     yf_process_unmapped_companies isoformat ticker_info w unmapped
       = Ok (w1, None)).
Proof.
  intros Hkey Hlatest.
  destruct (first_run_by_name
              (Financials.resolver symbol_lookup)
              (Financials.finnhub_answer symbol_lookup) Financials.as_built
              (finnhub_resolver_deterministic symbol_lookup)
              (Financials.init, w) unmapped eq_refl)
    as (frun & Hfrun & Hfsome & Hfnone).
  destruct (first_run_by_name
              (yf_resolver ticker_info)
              (fun n => fst (YfClient.resolve ticker_info n)) (fun _ => True)
              (yf_resolver_by_name ticker_info)
              (YfClient.init, w) unmapped I)
    as (yrun & Hyrun & Hysome & Hynone).
  unfold financials_process_unmapped_companies, yf_process_unmapped_companies.
  replace (truthy (Some api_key)) with true
    by (symmetry; apply truthy_nonempty, Hkey).
  rewrite Hlatest.
  cbn [negb existing_mappings bind].
  change (list_to_map []) with (∅ : gmap string MapVal).
  unfold Financials.process_unmapped_companies,
    YfLookup.process_unmapped_companies.
  rewrite Hfrun, Hyrun. cbn [bind].
  split; [| split; [| split]].
  - intros Hfound. destruct (Hfsome Hfound) as [merged ->]. reflexivity.
  - intros Hnone. rewrite (Hfnone Hnone). eauto.
  - intros Hfound. destruct (Hysome Hfound) as [merged ->]. cbn [bind].
    match goal with
    | |- context [YfLookup.save_mappings ?w1 ?updated ?meta ?base] =>
        destruct (yf_save_mappings_next w1 updated meta base)
          as (k & w2 & Hsave & (_ & _ & _ & _ & _ & Hfile))
    end.
    rewrite Hsave. cbn [bind].
    eexists _, _, _, _. split; [reflexivity |].
    rewrite Hfile. cbn [fmap option_fmap option_map body].
    split; [reflexivity |]. split; reflexivity.
  - intros Hnone. rewrite (Hynone Hnone). eauto.
Qed.

End FirstUnmappedRun.

Section FirstUnmappedRunWitness.

Import UnmappedScripts.

Lemma process_unmapped_companies_without_artifact_witness :
  financials_process_unmapped_companies
    ScriptSamples.new_year (Some "key")
    (Samples.answering Samples.abc_listings) Samples.with_taxonomy
    [ScriptSamples.apple; ScriptSamples.abc]
    = Raise TypeError /\
  exists w2 output_file metadata updated,
    yf_process_unmapped_companies
      ScriptSamples.new_year MoreSamples.knows_aapl Samples.with_taxonomy
      [ScriptSamples.apple; ScriptSamples.abc]
      = Ok (w2, Some output_file) /\
    (body <$> files w2 !! output_file)
      = Some (MappingArtifact metadata updated) /\
    metadata !! "total_companies"
      = Some (MNum (Z.of_nat (length updated))) /\
    metadata !! "mapped_companies"
      = Some (MNum (Z.of_nat (length updated))).
Proof.
  destruct (process_unmapped_companies_without_artifact
              ScriptSamples.new_year
              (Samples.answering Samples.abc_listings) MoreSamples.knows_aapl
              "key" Samples.with_taxonomy
              [ScriptSamples.apple; ScriptSamples.abc])
    as (Hfinnhub & _ & Hyf & _).
  - discriminate.
  - vm_compute. reflexivity.
  - split.
    + apply Hfinnhub. exists ScriptSamples.abc.
      split; [right; left | vm_compute; reflexivity].
    + apply Hyf. exists ScriptSamples.apple.
      split; [left | vm_compute; reflexivity].
Defined.

End FirstUnmappedRunWitness.

(** ** Resolving the unmapped companies on top of a prior artifact *)

Section MergeFacts.

Import ResolutionLoops UnmappedScripts.

Lemma dict_set_app_fresh {V : Type} (d acc : list (string * V))
      (k : string) (v : V) :
  k ∉ map fst d ->
  PyDict.set (d ++ acc) k v = (d ++ PyDict.set acc k v)%list.
Proof.
  induction d as [| [k0 v0] d IH]; intros Hfresh; [reflexivity |].
  cbn [map fst] in Hfresh. apply not_elem_of_cons in Hfresh.
  destruct Hfresh as [Hne Hfresh].
  cbn [app PyDict.set]. destruct (String.eqb_spec k0 k); [congruence |].
  rewrite IH by exact Hfresh. reflexivity.
Qed.

Lemma dict_set_keys {V : Type} (d : list (string * V)) (k : string) (v : V)
      (n : string) :
  n ∈ map fst (PyDict.set d k v) -> n ∈ map fst d \/ n = k.
Proof.
  induction d as [| [k0 v0] d IH]; cbn [PyDict.set map fst].
  - intros Hn. apply list_elem_of_singleton in Hn. auto.
  - destruct (String.eqb_spec k0 k) as [-> | Hne]; cbn [map fst];
      intros Hn; apply elem_of_cons in Hn.
    + destruct Hn as [-> | Hn]; [auto |]. left. right. exact Hn.
    + destruct Hn as [-> | Hn]; [left; left |].
      destruct (IH Hn) as [Hd | ->]; [left; right; exact Hd | auto].
Qed.

Lemma list_to_map_set (d : list (string * MapVal)) (k : string)
      (v : MapVal) :
  (list_to_map (PyDict.set d k v) : gmap string MapVal)
    = <[k := v]> (list_to_map d).
Proof.
  induction d as [| [k0 v0] d IH]; [reflexivity |].
  cbn [PyDict.set]. destruct (String.eqb_spec k0 k) as [-> | Hne].
  - cbn [list_to_map foldr uncurry]. rewrite insert_insert_eq. reflexivity.
  - cbn [list_to_map foldr uncurry]. 
    change (foldr (fun '(k, v) => <[k:=v]>) ∅ (PyDict.set d k v))
      with (list_to_map (PyDict.set d k v) : gmap string MapVal).
    rewrite IH. apply insert_insert_ne. exact Hne.
Qed.

Lemma dict_set_keys_eq {V : Type} (d : list (string * V)) (k : string)
      (v : V) :
  map fst (PyDict.set d k v) = MergeSpec.keep (map fst d) k.
Proof.
  unfold MergeSpec.keep.
  induction d as [| [k0 v0] d IH]; cbn [PyDict.set map fst].
  - rewrite decide_False by apply not_elem_of_nil. reflexivity.
  - destruct (String.eqb_spec k0 k) as [-> | Hne]; cbn [map fst].
    + rewrite decide_True by left. reflexivity.
    + rewrite IH. destruct (decide (k ∈ map fst d)) as [Hin | Hnot].
      * rewrite decide_True by (right; exact Hin). reflexivity.
      * rewrite decide_False; [reflexivity |].
        intros Hin. apply elem_of_cons in Hin. destruct Hin; congruence.
Qed.

Lemma dict_set_elem {V : Type} (d : list (string * V)) (k : string) (v : V)
      (n : string) (v' : V) :
  (n, v') ∈ PyDict.set d k v -> (n, v') ∈ d \/ (n = k /\ v' = v).
Proof.
  induction d as [| [k0 v0] d IH]; cbn [PyDict.set].
  - intros Hin. apply list_elem_of_singleton in Hin.
    inversion Hin. auto.
  - destruct (String.eqb_spec k0 k) as [-> | Hne]; intros Hin;
      apply elem_of_cons in Hin.
    + destruct Hin as [Heq | Hin]; [inversion Heq; auto |].
      left. right. exact Hin.
    + destruct Hin as [Heq | Hin]; [left; rewrite Heq; left |].
      destruct (IH Hin) as [Hd | Hk]; [left; right; exact Hd | auto].
Qed.

Lemma keep_NoDup (names : list string) :
  forall seen, NoDup seen -> NoDup (fold_left MergeSpec.keep names seen).
Proof.
  induction names as [| n names IH]; intros seen Hseen; [exact Hseen |].
  cbn [fold_left]. apply IH. unfold MergeSpec.keep.
  destruct (decide (n ∈ seen)) as [Hin | Hnot]; [exact Hseen |].
  apply NoDup_app. split; [exact Hseen |]. split.
  - intros x Hx Hn. apply list_elem_of_singleton in Hn. congruence.
  - apply NoDup_singleton.
Qed.

Variable new : gmap string MapVal.

Local Abbreviation step :=
  (fun (d : list (string * MapVal)) (name : string) =>
     match new !! name with
     | Some v => PyDict.set d name v
     | None => d
     end).

Lemma merge_appends (names : list string) (d : list (string * MapVal)) :
  (forall n, n ∈ names -> n ∉ map fst d) ->
  forall acc,
    fold_left step names (d ++ acc)%list
      = (d ++ fold_left step names acc)%list.
Proof.
  intros Hfresh. induction names as [| n names IH]; intros acc;
    [reflexivity |].
  cbn [fold_left].
  rewrite <- IH by (intros m Hm; apply Hfresh; right; exact Hm).
  f_equal. destruct (new !! n); [| reflexivity].
  apply dict_set_app_fresh, Hfresh. left.
Qed.

Lemma merge_keys (names : list string) :
  forall (acc : list (string * MapVal)) n,
    n ∈ map fst (fold_left step names acc) ->
    n ∈ map fst acc \/ n ∈ names.
Proof.
  induction names as [| m names IH]; intros acc n Hn; [left; exact Hn |].
  cbn [fold_left] in Hn. apply IH in Hn.
  destruct Hn as [Hn | Hn]; [| right; right; exact Hn].
  destruct (new !! m); [| left; exact Hn].
  apply dict_set_keys in Hn. destruct Hn as [Hn | ->]; [left; exact Hn |].
  right. left.
Qed.

Lemma merge_lookup (names : list string) :
  forall (d : list (string * MapVal)) k,
    (list_to_map (fold_left step names d) : gmap string MapVal) !! k
      = if decide (k ∈ names)
        then match new !! k with
             | Some v => Some v
             | None => (list_to_map d : gmap string MapVal) !! k
             end
        else (list_to_map d : gmap string MapVal) !! k.
Proof.
  induction names as [| n names IH]; intros d k.
  - rewrite decide_False by apply not_elem_of_nil. reflexivity.
  - cbn [fold_left]. rewrite IH.
    assert (Hstep : (list_to_map (step d n) : gmap string MapVal) !! k
                    = if decide (k = n)
                      then match new !! k with
                           | Some v => Some v
                           | None => (list_to_map d : gmap string MapVal) !! k
                           end
                      else (list_to_map d : gmap string MapVal) !! k).
    { destruct (decide (k = n)) as [-> | Hne].
      - destruct (new !! n); [| reflexivity].
        rewrite list_to_map_set, lookup_insert_eq. reflexivity.
      - destruct (new !! n); [| reflexivity].
        rewrite list_to_map_set, lookup_insert_ne by congruence.
        reflexivity. }
    rewrite Hstep.
    destruct (decide (k = n)) as [-> | Hne].
    + rewrite (decide_True (P := n ∈ n :: names)) by left.
      destruct (decide (n ∈ names)), (new !! n); reflexivity.
    + destruct (decide (k ∈ names)) as [Hin | Hnot].
      * rewrite decide_True by (right; exact Hin). reflexivity.
      * rewrite decide_False; [reflexivity |].
        intros Hin. apply elem_of_cons in Hin. destruct Hin; congruence.
Qed.

(** The keys come in the order in which the names were first resolved. *)
Lemma merge_order (names : list string) :
  forall acc : list (string * MapVal),
    map fst (fold_left step names acc)
      = fold_left MergeSpec.keep
                  (filter (fun n => is_Some (new !! n)) names)
                  (map fst acc).
Proof.
  induction names as [| n names IH]; intros acc; [reflexivity |].
  cbn [fold_left]. rewrite IH, filter_cons.
  destruct (new !! n) as [v |] eqn:Hn.
  - rewrite decide_True by eauto. cbn [fold_left].
    rewrite dict_set_keys_eq. reflexivity.
  - rewrite decide_False; [reflexivity |].
    intros [v Hv]. discriminate.
Qed.

Lemma merge_values (names : list string) :
  forall (acc : list (string * MapVal)) n v,
    (n, v) ∈ fold_left step names acc -> (n, v) ∈ acc \/ new !! n = Some v.
Proof.
  induction names as [| m names IH]; intros acc n v Hin; [left; exact Hin |].
  cbn [fold_left] in Hin. apply IH in Hin.
  destruct Hin as [Hin | Hnew]; [| right; exact Hnew].
  destruct (new !! m) as [v0 |] eqn:Hm; [| left; exact Hin].
  apply dict_set_elem in Hin. destruct Hin as [Hin | [-> ->]]; auto.
Qed.

End MergeFacts.

Section LoopInvariants.

Import ResolutionLoops.

Context {St : Type}.
Variable lookup_symbol : St -> string -> result (option string * St).
Variable existing : gmap string MapVal.

Lemma process_unmapped_built_sent (l : list UnmappedCompany) :
  forall acc st',
    fold_left (process_unmapped lookup_symbol existing) l acc = Ok st' ->
    exists st, acc = Ok st /\
      ((forall n, is_Some (built st !! n) -> n ∈ sent st) ->
       forall n, is_Some (built st' !! n) -> n ∈ sent st').
Proof.
  apply fold_left_carries. intros acc co st' Hstep.
  apply process_unmapped_effect in Hstep.
  destruct Hstep as (st & -> & [[_ ->] | (_ & Hsent & Hbuilt)]);
    exists st; (split; [reflexivity |]); [auto |].
  intros Hinv n Hn. rewrite Hsent, elem_of_app.
  destruct Hbuilt as [Hsame | (t & _ & Hnew)].
  - left. apply Hinv. rewrite <- Hsame. exact Hn.
  - rewrite Hnew in Hn.
    destruct (decide (unmapped_name co = n)) as [<- | Hne].
    + right. left.
    + rewrite lookup_insert_ne in Hn by exact Hne. left. apply Hinv, Hn.
Qed.

Variable keeps : St -> Prop.
Hypothesis lookup_keeps :
  forall c n r c', lookup_symbol c n = Ok (r, c') -> keeps c -> keeps c'.

Lemma process_unmapped_keeps (l : list UnmappedCompany) :
  forall acc st',
    fold_left (process_unmapped lookup_symbol existing) l acc = Ok st' ->
    exists st, acc = Ok st /\ (keeps (client st) -> keeps (client st')).
Proof.
  apply (fold_left_carries (fun st => keeps (client st))).
  intros acc co st' Hstep. unfold process_unmapped in Hstep.
  destruct acc as [st | e |]; try discriminate. cbn [bind] in Hstep.
  exists st. split; [reflexivity |]. intros Hkeeps.
  destruct (existing !! unmapped_name co); [inversion Hstep; subst; auto |].
  destruct (lookup_symbol (client st) (unmapped_name co))
    as [[ticker c'] | e |] eqn:Hlook; try discriminate.
  cbn [bind] in Hstep. pose proof (lookup_keeps _ _ _ _ Hlook Hkeeps).
  destruct ticker as [t |]; [destruct (truthy (Some t)) |];
    inversion Hstep; subst; assumption.
Qed.

End LoopInvariants.

Section ScriptsOnPrior.

Import ResolutionLoops UnmappedScripts MappingStoreSpec.

Variable isoformat : Z -> string.

Lemma finnhub_resolver_keeps_files
      (symbol_lookup : string -> Financials.LookupResponse)
      (files0 : gmap string File)
      (c : Financials.FinnhubClient * World) (n : string)
      (r : option string) (c' : Financials.FinnhubClient * World) :
  Financials.resolver symbol_lookup c n = Ok (r, c') ->
  files (snd c) = files0 -> files (snd c') = files0.
Proof.
  destruct c as [self w]. unfold Financials.resolver, Financials.lookup_symbol,
    Financials._wait_for_rate_limit. cbn [fst snd].
  destruct (wait_for_rate_limit_cases (Financials.limiter self) w)
    as (slept & calls & Hwait & _).
  rewrite Hwait. cbn [bind].
  destruct (Financials.select_symbol _ _ _) as [found | e |];
    cbn [bind]; try discriminate; intros [= <- <-]; cbn; auto.
Qed.

Lemma yf_resolver_keeps_files
      (ticker_info : string -> YfClient.TickerInfo)
      (files0 : gmap string File)
      (c : YfClient.YFinanceClient * World) (n : string)
      (r : option string) (c' : YfClient.YFinanceClient * World) :
  yf_resolver ticker_info c n = Ok (r, c') ->
  files (snd c) = files0 -> files (snd c') = files0.
Proof.
  destruct c as [self w]. unfold yf_resolver, YfClient.lookup_symbol,
    YfClient._wait_for_rate_limit. cbn [fst snd].
  destruct (wait_for_rate_limit_cases (YfClient.limiter self) w)
    as (slept & calls & Hwait & _).
  rewrite Hwait. cbn [bind].
  destruct (YfClient.resolve ticker_info n) as [found requests].
  cbn [bind]. intros [= <- <-]. cbn. auto.
Qed.

(** What the loop and the merge give on top of a prior mapping, for a
    resolver that answers by name and leaves the files alone. *)
Lemma run_on_prior {St : Type}
      (lookup_symbol : St -> string -> result (option string * St))
      (answer : string -> option string) (reachable : St -> Prop)
      (world_of : St -> World) (w : World) :
  (forall st n, reachable st ->
     exists st', lookup_symbol st n = Ok (answer n, st') /\ reachable st') ->
  (forall c n r c', lookup_symbol c n = Ok (r, c') ->
     files (world_of c) = files w -> files (world_of c') = files w) ->
  forall (c : St) (unmapped : list UnmappedCompany)
         (prior : list (string * MapVal)),
    reachable c -> files (world_of c) = files w ->
    exists run added,
      process_unmapped_companies lookup_symbol c unmapped (list_to_map prior)
        = Ok run /\
      files (world_of (client_after run)) = files w /\
      merge prior run = (prior ++ added)%list /\
      (forall n, n ∈ map fst added -> n ∉ map fst prior) /\
      map fst added
        = MergeSpec.first_occurrences
            (filter (fun n => is_Some (new_mappings run !! n))
                    (resolver_calls run)) /\
      NoDup (map fst added) /\
      (forall n v, (n, v) ∈ added -> new_mappings run !! n = Some v) /\
      (forall merged, updated_mappings run = Some merged ->
                      list_to_map (prior ++ added) = merged).
Proof.
  intros Hname Hfiles c unmapped prior Hc Hw.
  destruct (unmapped_loop_deterministic lookup_symbol answer reachable Hname
              (list_to_map prior) unmapped
              {| built := ∅; client := c; sent := [] |} Hc)
    as (st' & Hrun & _).
  assert (Hproc : process_unmapped_companies lookup_symbol c unmapped
                    (list_to_map prior)
                  = Ok {| new_mappings := built st';
                          updated_mappings :=
                            if decide (built st' = ∅) then None
                            else Some (built st' ∪ list_to_map prior);
                          resolver_calls := sent st';
                          client_after := client st' |}).
  { unfold process_unmapped_companies. rewrite Hrun. reflexivity. }
  assert (Hskip : forall n, n ∈ sent st' -> n ∉ map fst prior).
  { intros n Hn Hin.
    apply (process_unmapped_companies_skips lookup_symbol _ _ _ _ Hproc n);
      [| exact Hn].
    apply elem_of_dom. rewrite dom_list_to_map_L.
    apply elem_of_list_to_set. exact Hin. }
  assert (Hsent : forall n, is_Some (built st' !! n) -> n ∈ sent st').
  { destruct (process_unmapped_built_sent lookup_symbol (list_to_map prior)
                unmapped _ _ Hrun) as (st0 & [= <-] & Hkeep).
    apply Hkeep. cbn. intros n Hn. rewrite lookup_empty in Hn.
    destruct Hn; discriminate. }
  eexists _, (fold_left
                (fun d name =>
                   match built st' !! name with
                   | Some v => PyDict.set d name v
                   | None => d
                   end)
                (sent st') []).
  split; [exact Hproc |]. cbn [client_after updated_mappings]. split.
  { destruct (process_unmapped_keeps lookup_symbol (list_to_map prior)
                (fun st => files (world_of st) = files w) Hfiles
                unmapped _ _ Hrun) as (st0 & [= <-] & Hkeep).
    apply Hkeep. exact Hw. }
  assert (Hmerge : merge prior
                     {| new_mappings := built st';
                        updated_mappings :=
                          if decide (built st' = ∅) then None
                          else Some (built st' ∪ list_to_map prior);
                        resolver_calls := sent st';
                        client_after := client st' |}
                   = (prior ++ fold_left
                                 (fun d name =>
                                    match built st' !! name with
                                    | Some v => PyDict.set d name v
                                    | None => d
                                    end)
                                 (sent st') [])%list).
  { unfold merge. cbn [new_mappings resolver_calls].
    rewrite <- (merge_appends (built st') (sent st') prior Hskip []).
    rewrite app_nil_r. reflexivity. }
  split; [exact Hmerge |]. split.
  { intros n Hn. apply merge_keys in Hn. destruct Hn as [Hn | Hn].
    - apply elem_of_nil in Hn. destruct Hn.
    - apply Hskip, Hn. }
  cbn [new_mappings resolver_calls].
  split; [apply (merge_order (built st') (sent st') []) |]. split.
  { rewrite (merge_order (built st') (sent st') []).
    apply keep_NoDup, NoDup_nil_2. }
  split.
  { intros n v Hin. apply merge_values in Hin.
    destruct Hin as [Hin | Hnew]; [| exact Hnew].
    apply elem_of_nil in Hin. destruct Hin. }
  intros merged Hmerged. rewrite <- Hmerge. unfold merge.
  cbn [new_mappings resolver_calls].
  destruct (decide (built st' = ∅)); [discriminate |].
  inversion Hmerged; subst merged. apply map_eq. intros k.
  rewrite merge_lookup, lookup_union.
  destruct (decide (k ∈ sent st')) as [Hin | Hnot].
  - destruct (built st' !! k), (list_to_map prior !! k); reflexivity.
  - destruct (built st' !! k) as [v |] eqn:Hk.
    + exfalso. apply Hnot, Hsent. rewrite Hk. eauto.
    + destruct (list_to_map prior !! k); reflexivity.
Qed.

Lemma get_total_companies_files (w w' : World) :
  files w' = files w ->
  FileUtils.get_total_companies w' = FileUtils.get_total_companies w.
Proof. unfold FileUtils.get_total_companies. intros ->. reflexivity. Qed.


End ScriptsOnPrior.

Section ScriptsOnPriorWitness.

Import ResolutionLoops UnmappedScripts.


End ScriptsOnPriorWitness.
